(** * DendroPy [splits.py]: split bitmasks, split encoding and split distributions

    A shallow embedding of [dendropy/splits.py].  Python [long] values are
    unbounded integers and are modelled by [Z]; Python [str] values by
    [string]; floats by the rationals they denote; the dictionaries of the
    encoder and of [SplitDistribution] by stdpp's [gmap], with the order of
    their iteration left open.  Exceptions are results of their own, and a
    method of [SplitDistribution] returns, with its result or exception, the
    state it leaves the object in.  Loops whose termination is not
    structural carry a fuel argument: [None] means that the fuel ran out,
    and the theorems show that it does not when enough fuel is given.

    The embedding of the source comes first ([BitUtil], [TaxaList],
    [Encoder], [Distribution], [DistributionMore]), each part followed by
    the notions its properties are stated with; the proofs follow
    ([BitUtilFacts], [EncoderFacts], [DistributionFacts], and further
    properties of the same functions in [BitUtilMoreFacts],
    [EncoderMoreFacts], [DistributionMoreFacts]). *)

From Stdlib Require Import ZArith QArith String Ascii List Sorted Lia.
From stdpp Require Import gmap strings list fin_maps.

Close Scope Q_scope.
Local Open Scope Z_scope.

(** ** Python values, exceptions and results *)

Inductive exn : Type :=
| ValueError (msg : string)
| OverflowError
| TypeError
| AttributeError
| KeyError
| UnknownTaxon (label : string).

Inductive res (A : Type) : Type :=
| Ok (a : A)
| Raise (e : exn).
Arguments Ok {A} a.
Arguments Raise {A} e.

Definition bind {A B : Type} (r : res A) (k : A -> res B) : res B :=
  match r with
  | Ok a => k a
  | Raise e => Raise e
  end.

Notation "'let*' x ':=' r 'in' k" := (bind r (fun x => k))
  (at level 10, x name, r at level 100, k at level 200).

(** The arguments [count_bits] can be called with: an [int]/[long], a finite
    [float] (whose value is a rational), the special floats, and [None]. *)
Inductive pyvalue : Type :=
| PyInt (z : Z)
| PyFloat (q : Q)
| PyNaN
| PyInf (negative : bool)
| PyNone.

Module BitUtil.

(** ** [count_bits] (splits.py, lines 34-50) *)

Definition n_bits_set : list Z :=
  [0; 1; 1; 2; 1; 2; 2; 3; 1; 2; 2; 3; 2; 3; 3; 4].

(** [long(a)]: the identity on integers, truncation towards zero on finite
    floats, an exception on the special floats and on [None]. *)
Definition long (a : pyvalue) : res Z :=
  match a with
  | PyInt z => Ok z
  | PyFloat q => Ok (Z.quot (Qnum q) (Zpos (Qden q)))
  | PyNaN => Raise (ValueError "cannot convert float NaN to integer")
  | PyInf _ => Raise OverflowError
  | PyNone => Raise TypeError
  end.

(** [c != a] for an integer [c]; the comparison of a [long] with a [float]
    is exact in Python. *)
Definition long_ne (c : Z) (a : pyvalue) : bool :=
  match a with
  | PyInt z => negb (c =? z)
  | PyFloat q => negb (Qeq_bool (inject_Z c) q)
  | PyNaN | PyInf _ | PyNone => true
  end.

(** The [while c > 0] loop of [count_bits]. *)
Fixpoint count_bits_loop (fuel : nat) (c n_bits : Z) : option Z :=
  if c >? 0 then
    match fuel with
    | O => None
    | S fuel' =>
        let i := Z.land c 15 in
        count_bits_loop fuel' (Z.shiftr c 4)
          (n_bits + nth (Z.to_nat i) n_bits_set 0)
    end
  else Some n_bits.

Definition count_bits (fuel : nat) (a : pyvalue) : option (res Z) :=
  match long a with
  | Raise e => Some (Raise e)
  | Ok c =>
      if long_ne c a then Some (Raise (ValueError "non-integer argument"))
      else if c <? 1 then
        if c <? 0 then Some (Raise (ValueError "negative argument"))
        else Some (Ok 0)
      else option_map Ok (count_bits_loop fuel c 0)
  end.

(** ** [split_to_list] and [iter_split_indices] (lines 52-74) *)

(** The generator is modelled by the list of the values it yields. *)
Fixpoint iter_split_indices_loop (fuel : nat) (maskedSplitRep mask : Z)
    (standard_ordination : bool) (test_bit currBitIndex : Z) : option (list Z) :=
  if test_bit <=? maskedSplitRep then
    match fuel with
    | O => None
    | S fuel' =>
        let yielded :=
          if Z.land maskedSplitRep test_bit =? 0 then [] else [currBitIndex] in
        let currBitIndex' :=
          if standard_ordination || negb (Z.land mask test_bit =? 0)
          then currBitIndex + 1 else currBitIndex in
        option_map (app yielded)
          (iter_split_indices_loop fuel' maskedSplitRep mask standard_ordination
             (Z.shiftl test_bit 1) currBitIndex')
    end
  else Some [].

Definition iter_split_indices (fuel : nat) (s mask : Z)
    (one_based ordination_in_mask : bool) : option (list Z) :=
  let currBitIndex := if one_based then 1 else 0 in
  let test_bit := 1 in
  let maskedSplitRep := Z.land s mask in
  let standard_ordination := negb ordination_in_mask in
  iter_split_indices_loop fuel maskedSplitRep mask standard_ordination
    test_bit currBitIndex.

Definition split_to_list (fuel : nat) (s mask : Z)
    (one_based ordination_in_mask : bool) : option (list Z) :=
  iter_split_indices fuel s mask one_based ordination_in_mask.

(** ** [is_non_singleton_split] (lines 76-84) *)

(** Python's [x and y] on integers: [x] when [x] is zero, else [y]. *)
Definition py_and (x y : Z) : Z := if x =? 0 then x else y.

Definition truthy (x : Z) : bool := negb (x =? 0).

Definition is_non_singleton_split (split mask : Z) : Z :=
  py_and (Z.land (split - 1) split)
         (Z.land (Z.lxor split mask - 1) (Z.lxor split mask)).

(** ** [number_to_bitstring], [split_as_string], [split_as_string_rev]
    (lines 86-107) *)

(** [str(num & 1)] *)
Definition str_bit (b : Z) : string := if b =? 0 then "0" else "1".

(** [num>0 and number_to_bitstring(num>>1)+str(num&1) or ''].  The recursion
    on [num >> 1] is the recursion on the binary numeral; the lemma
    [number_to_bitstring_eq] below gives the equation of the source. *)
Fixpoint number_to_bitstring_pos (p : positive) : string :=
  match p with
  | xH => "1"
  | xO q => number_to_bitstring_pos q ++ "0"
  | xI q => number_to_bitstring_pos q ++ "1"
  end.

Definition number_to_bitstring (num : Z) : string :=
  match num with
  | Zpos p => number_to_bitstring_pos p
  | _ => ""
  end.

(** [s.rjust(width, fillchar)]: pads on the left, never truncates. *)
Fixpoint repeat_char (n : nat) (c : ascii) : string :=
  match n with
  | O => EmptyString
  | S n' => String c (repeat_char n' c)
  end.

Definition rjust (s : string) (width : nat) (fillchar : ascii) : string :=
  repeat_char (width - String.length s) fillchar ++ s.

(** [s.replace(old, new)] for a one-character [old]. *)
Fixpoint replace (old : ascii) (new : string) (s : string) : string :=
  match s with
  | EmptyString => EmptyString
  | String c s' =>
      if Ascii.eqb c old then new ++ replace old new s'
      else String c (replace old new s')
  end.

(** [s[::-1]] *)
Fixpoint string_rev (s : string) : string :=
  match s with
  | EmptyString => EmptyString
  | String c s' => string_rev s' ++ String c EmptyString
  end.

(** A taxa block is used here only through [len(taxa_block)]. *)
Definition split_as_string {T : Type} (split_mask : Z) (taxa_block : list T)
    (symbol1 symbol2 : string) : string :=
  let s := rjust (number_to_bitstring split_mask) (List.length taxa_block) "0" in
  replace "1" symbol2 (replace "0" symbol1 s).

Definition split_as_string_rev {T : Type} (split_mask : Z) (taxa_block : list T)
    (symbol1 symbol2 : string) : string :=
  string_rev (split_as_string split_mask taxa_block symbol1 symbol2).

End BitUtil.

Module BitSpec.
Import BitUtil.

(** ** Reference notions the bit utilities are measured against *)

(** The number of ones in the binary representation of a number, read off
    the binary numeral itself. *)
Fixpoint popcount_pos (p : positive) : Z :=
  match p with
  | xH => 1
  | xO q => popcount_pos q
  | xI q => 1 + popcount_pos q
  end.

Definition popcount (v : Z) : Z :=
  match v with
  | Zpos p => popcount_pos p
  | _ => 0
  end.

(** Which arguments are negative, and which are integers by value. *)
Definition is_negative (a : pyvalue) : Prop :=
  match a with
  | PyInt z => z < 0
  | PyFloat q => (q < 0)%Q
  | PyInf negative => negative = true
  | PyNaN | PyNone => False
  end.

Definition is_integer_valued (a : pyvalue) : Prop :=
  match a with
  | PyInt _ => True
  | PyFloat q => exists z : Z, (inject_Z z == q)%Q
  | PyNaN | PyInf _ | PyNone => False
  end.

(** The ones of the binary representation, counted on the bit string that
    [number_to_bitstring] prints. *)
Fixpoint count_char (c : ascii) (s : string) : Z :=
  match s with
  | EmptyString => 0
  | String d s' => (if Ascii.eqb d c then 1 else 0) + count_char c s'
  end.

(** Strings are compared through their lists of characters. *)
Abbreviation chars := list_ascii_of_string.

(** The bits of a mask, least significant first. *)
Fixpoint mask_bits (n : nat) (mask : Z) : list bool :=
  match n with
  | O => []
  | S n' => Z.odd mask :: mask_bits n' (Z.div2 mask)
  end.

(** The digit of a bit. *)
Definition bit_char (b : bool) : ascii := if b then "1"%char else "0"%char.

(** The binary digits of a positive number, least significant first. *)
Fixpoint lsb_chars (p : positive) : list ascii :=
  match p with
  | xH => ["1"%char]
  | xO q => "0"%char :: lsb_chars q
  | xI q => "1"%char :: lsb_chars q
  end.

(** The symbol that renders a bit. *)
Definition symbol_of (absent present : ascii) (b : bool) : ascii :=
  if b then present else absent.

(** The positions, counted from [i], at which a string carries a symbol. *)
Fixpoint symbol_positions (symbol : ascii) (s : string) (i : Z) : list Z :=
  match s with
  | EmptyString => []
  | String c s' =>
      (if Ascii.eqb c symbol then [i] else []) ++ symbol_positions symbol s' (i + 1)
  end.

(** The bit list re-derived from a rendering: the positions of the present
    symbol, counted from the right end, where the first taxon stands. *)
Definition bits_of_rendering (present : ascii) (s : string) : list Z :=
  symbol_positions present (string_rev s) 0.

(** The mask with exactly the listed bits: the sum of [1 << i]. *)
Definition mask_of_bits (bits : list Z) : Z :=
  fold_right (fun i acc => Z.shiftl 1 i + acc) 0 bits.

(** The set bits among the [n] lowest of a mask, numbered from [i]. *)
Fixpoint set_bits (n : nat) (mask : Z) (i : Z) : list Z :=
  match n with
  | O => []
  | S n' => (if Z.odd mask then [i] else []) ++ set_bits n' (Z.div2 mask) (i + 1)
  end.

End BitSpec.

Module TaxaList.

(** ** [split_taxa_list] (splits.py, lines 109-119) *)

(** The outcome of an access by index. *)
Inductive indexed (A : Type) : Type :=
| Found (a : A)
| IndexError.
Arguments Found {A} a.
Arguments IndexError {A}.

(** [l[index]] on a Python sequence: a negative index counts from the end,
    and an index outside [-len(l) .. len(l)-1] is an [IndexError]. *)
Definition list_getitem {T : Type} (l : list T) (index : Z) : indexed T :=
  let position := if index <? 0 then index + Z.of_nat (length l) else index in
  if position <? 0 then IndexError
  else match l !! Z.to_nat position with
       | Some x => Found x
       | None => IndexError
       end.

(** The loop [while split_mask]; the state is the mask, the index and the
    list built so far. *)
Fixpoint split_taxa_list_loop {T : Type} (fuel : nat) (split_mask : Z)
    (taxa_block : list T) (index : Z) (taxa : list T) : option (indexed (list T)) :=
  if split_mask =? 0 then Some (Found taxa)
  else
    match fuel with
    | O => None
    | S fuel' =>
        if negb (Z.land split_mask 1 =? 0) then
          match list_getitem taxa_block index with
          | Found t =>
              split_taxa_list_loop fuel' (Z.shiftr split_mask 1) taxa_block
                (index + 1) (taxa ++ [t])
          | IndexError => Some IndexError
          end
        else
          split_taxa_list_loop fuel' (Z.shiftr split_mask 1) taxa_block
            (index + 1) taxa
    end.

Definition split_taxa_list {T : Type} (fuel : nat) (split_mask : Z)
    (taxa_block : list T) (index : Z) : option (indexed (list T)) :=
  split_taxa_list_loop fuel split_mask taxa_block index [].

End TaxaList.

Module BitSpecMore.
Import BitUtil BitSpec.

(** ** Further notions for the bit utilities *)

(** The number a string of binary digits denotes, as [int(s, 2)] reads it,
    continuing from the value [acc] of the digits read so far. *)
Fixpoint bitstring_value_from (acc : Z) (s : string) : Z :=
  match s with
  | EmptyString => acc
  | String c s' =>
      bitstring_value_from (2 * acc + (if Ascii.eqb c "1" then 1 else 0)) s'
  end.

Definition bitstring_value (s : string) : Z := bitstring_value_from 0 s.

(** The number of binary digits of a number: none for zero and below. *)
Definition bit_length (num : Z) : nat :=
  if num >? 0 then S (Z.to_nat (Z.log2 num)) else O.

(** The number of bits of [mask] set below position [p]. *)
Definition rank (mask : Z) (p : Z) : Z :=
  Z.of_nat (length (set_bits (Z.to_nat p) mask 0)).

(** The index the loop of [iter_split_indices] gives to the bit at position
    [p], when it has reached the position [k] with the index [idx]. *)
Definition index_at (mask : Z) (standard_ordination : bool) (k idx p : Z) : Z :=
  idx + if standard_ordination then p - k else rank mask p - rank mask k.

End BitSpecMore.

(** ** Iteration order of dictionaries *)

(** Python leaves the order in which a [dict] is iterated to the
    implementation.  The development is parametric in it: [dict_items d] is
    [d.items()], some enumeration of the entries of [d]. *)
Class DictOrder : Type := {
  dict_items : forall V : Type, gmap Z V -> list (Z * V);
  dict_items_perm : forall (V : Type) (d : gmap Z V), dict_items V d ≡ₚ map_to_list d
}.
Arguments dict_items {_ _} d.

(** [d.keys()], and iteration over [d] itself. *)
Definition dict_keys `{DictOrder} {V : Type} (d : gmap Z V) : list Z :=
  (dict_items d).*1.

(** The elements of a list in the order of their first occurrence. *)
Fixpoint first_occurrences {A : Type} `{EqDecision A} (l : list A) : list A :=
  match l with
  | [] => []
  | x :: l' => x :: filter (fun y => y <> x) (first_occurrences l')
  end.

Module Encoder.

(** ** Trees, as [encode_splits] and [count_splits_on_tree] see them *)

(** A node: its taxon (identified by its label) if it has one, the edges of
    its children ([child.edge for child in child_nodes()], by identity), and
    what [distance_from_tip()] returns for it. *)
Record Node : Type := mkNode {
  taxon : option string;
  child_nodes : list nat;
  distance_from_tip : Q
}.

(** An edge: its head node, if any, and its length, if any. *)
Record Edge : Type := mkEdge {
  head_node : option Node;
  edge_length : option Q
}.

(** An edge together with its identity as an object. *)
Abbreviation EdgeRef := (nat * Edge)%type.

(** [tree.split_edges]: a plain dictionary, or a [NormalizedBitmaskDict]
    with its mask. *)
Inductive SplitEdges : Type :=
| PlainDict (d : gmap Z EdgeRef)
| NormalizedBitmaskDict (mask : Z) (d : gmap Z EdgeRef).

(** A tree: its edges in the order [postorder_edge_iter()] yields them, its
    rootedness flag, the attribute [split_mask] of its edges where it has
    been set, and its attribute [split_edges] once it has been set. *)
Record Tree : Type := mkTree {
  postorder_edge_iter : list EdgeRef;
  is_rooted : bool;
  split_mask : gmap nat Z;
  split_edges : option SplitEdges
}.

(** ** The taxon universe *)

(** Modelled from the spec: [taxa.TaxaBlock] is not part of the sources at
    hand.  The universe is an ordered, duplicate-free sequence of taxa; a
    taxon's index is its bit position, and the full mask has one bit per
    taxon.  A taxon outside the universe has no bit position. *)
Fixpoint taxon_index (taxa_block : list string) (t : string) : option nat :=
  match taxa_block with
  | [] => None
  | t' :: rest =>
      if String.eqb t' t then Some O else option_map S (taxon_index rest t)
  end.

Definition taxon_bitmask (taxa_block : list string) (t : string) : res Z :=
  match taxon_index taxa_block t with
  | Some i => Ok (Z.shiftl 1 (Z.of_nat i))
  | None => Raise (UnknownTaxon t)
  end.

Definition all_taxa_bitmask (taxa_block : list string) : Z :=
  2 ^ Z.of_nat (length taxa_block) - 1.

(** The taxa the nodes of a tree carry, in postorder. *)
Definition tree_taxa (tree : Tree) : list string :=
  omap (fun '(_, edge) => match head_node edge with
                          | Some node => taxon node
                          | None => None
                          end)
       (postorder_edge_iter tree).

(** Modelled from the spec: [tree.infer_taxa_block()] is not part of the
    sources at hand.  The universe of a tree is its own taxa in the order of
    first encounter. *)
Definition infer_taxa_block (tree : Tree) : list string :=
  first_occurrences (tree_taxa tree).

(** Modelled from the spec: [tree.normalize_taxa(taxa_block=...)] is not
    part of the sources at hand.  It re-expresses the taxa of the tree
    against the given universe; a taxon absent from the universe is an
    [UnknownTaxon] error.  Taxa are identified by their labels here, so a
    tree that passes is unchanged. *)
Definition normalize_taxa (tree : Tree) (taxa_block : list string) : res Tree :=
  match List.find (fun t => bool_decide (t ∉ taxa_block)) (tree_taxa tree) with
  | Some t => Raise (UnknownTaxon t)
  | None => Ok tree
  end.

(** ** [utils.NormalizedBitmaskDict] *)

(** Modelled from the spec: [utils.NormalizedBitmaskDict] is not part of the
    sources at hand.  The canonical key of a split is the member of
    [{key, key ^ mask}] chosen by the bit of the first taxon: a key in which
    that bit is set is XOR-ed with the mask. *)
Definition normalize (key mask : Z) : Z :=
  if Z.testbit key 0 then Z.lxor key mask else key.

(** [NormalizedBitmaskDict(other, mask=mask)]: the entries of [other] are
    inserted one by one, in the order of [other.items()], each under its
    canonical key. *)
Definition new_NormalizedBitmaskDict `{DictOrder}
    (other : gmap Z EdgeRef) (mask : Z) : gmap Z EdgeRef :=
  fold_left (fun d '(key, val) => <[normalize key mask := val]> d)
            (dict_items other) ∅.

(** [split_edges[key]]; the canonicalizing dictionary looks up the
    canonical key. *)
Definition split_edges_getitem (d : SplitEdges) (key : Z) : res EdgeRef :=
  match d with
  | PlainDict d =>
      match d !! key with Some e => Ok e | None => Raise KeyError end
  | NormalizedBitmaskDict mask d =>
      match d !! normalize key mask with Some e => Ok e | None => Raise KeyError end
  end.

(** [for split in split_edges]: the stored keys. *)
Definition split_edges_keys `{DictOrder} (d : SplitEdges) : list Z :=
  match d with
  | PlainDict d => dict_keys d
  | NormalizedBitmaskDict _ d => dict_keys d
  end.

(** ** [encode_splits] (splits.py, lines 121-153) *)

(** [getattr(edge, "split_mask")]: an [AttributeError] if it was never set. *)
Definition getattr_split_mask (attrs : gmap nat Z) (edge : nat) : res Z :=
  match attrs !! edge with
  | Some m => Ok m
  | None => Raise AttributeError
  end.

(** The inner loop [for child in child_nodes] (lines 140-141). *)
Fixpoint or_children (attrs : gmap nat Z) (edge : nat) (children : list nat)
    : res (gmap nat Z) :=
  match children with
  | [] => Ok attrs
  | child :: rest =>
      let* a := getattr_split_mask attrs edge in
      let* b := getattr_split_mask attrs child in
      or_children (<[edge := Z.lor a b]> attrs) edge rest
  end.

(** The body of the loop over the edges, up to the assignment of the mask
    of the edge (lines 137-147). *)
Definition set_split_mask (taxa_block : list string) (attrs : gmap nat Z)
    (edge : EdgeRef) : res (gmap nat Z) :=
  match head_node edge.2 with
  | None => Raise AttributeError
  | Some node =>
      match child_nodes node with
      | _ :: _ => or_children (<[edge.1 := 0]> attrs) edge.1 (child_nodes node)
      | [] =>
          match taxon node with
          | Some t =>
              let* m := taxon_bitmask taxa_block t in
              Ok (<[edge.1 := m]> attrs)
          | None => Ok (<[edge.1 := 0]> attrs)
          end
      end
  end.

(** The loop [for edge in tree.postorder_edge_iter()] (lines 136-148): the
    state is the attribute [split_mask] of the edges and the dictionary
    [split_map]. *)
Fixpoint encode_loop (taxa_block : list string) (edges : list EdgeRef)
    (attrs : gmap nat Z) (split_map : gmap Z EdgeRef)
    : res (gmap nat Z * gmap Z EdgeRef) :=
  match edges with
  | [] => Ok (attrs, split_map)
  | edge :: rest =>
      let* attrs' := set_split_mask taxa_block attrs edge in
      let* m := getattr_split_mask attrs' edge.1 in
      encode_loop taxa_block rest attrs' (<[m := edge]> split_map)
  end.

(** [unrooted] is [None], [True] or [False].  On an exception the state in
    which the tree is left is not modelled. *)
Definition encode_splits `{DictOrder} (tree : Tree)
    (taxa_block : option (list string)) (unrooted : option bool) : res Tree :=
  let taxa_block :=
    match taxa_block with
    | None => infer_taxa_block tree
    | Some taxa_block => taxa_block
    end in
  let* r := encode_loop taxa_block (postorder_edge_iter tree) (split_mask tree) ∅ in
  let '(attrs, split_map) := r in
  let unrooted_is_false := match unrooted with Some u => negb u | None => false end in
  let unset_and_rooted := match unrooted with Some _ => false | None => is_rooted tree end in
  if unrooted_is_false || unset_and_rooted then
    Ok {| postorder_edge_iter := postorder_edge_iter tree;
          is_rooted := is_rooted tree;
          split_mask := attrs;
          split_edges := Some (PlainDict split_map) |}
  else
    Ok {| postorder_edge_iter := postorder_edge_iter tree;
          is_rooted := is_rooted tree;
          split_mask := attrs;
          split_edges :=
            Some (NormalizedBitmaskDict (all_taxa_bitmask taxa_block)
                    (new_NormalizedBitmaskDict split_map
                       (all_taxa_bitmask taxa_block))) |}.

End Encoder.

Module EncoderSpec.
Import Encoder.

(** ** What [encode_splits] is measured against *)

(** Postorder, as far as the encoder depends on it: every edge is yielded
    once, and after the edges of all the children of its head node. *)
Fixpoint postorder_from (seen : list nat) (edges : list EdgeRef) : Prop :=
  match edges with
  | [] => True
  | edge :: rest =>
      (edge.1 ∉ seen) /\
      (forall node, head_node edge.2 = Some node ->
                    forall child, child ∈ child_nodes node -> child ∈ seen) /\
      postorder_from (edge.1 :: seen) rest
  end.

Definition postorder (edges : list EdgeRef) : Prop := postorder_from [] edges.

(** The split mask an edge must carry, given the masks [attrs] of the
    edges: the OR of the masks of the children of its head node; for a leaf,
    the bit of its taxon, or zero without a taxon. *)
Definition mask_of_edge (taxa_block : list string) (attrs : gmap nat Z)
    (edge : EdgeRef) : Prop :=
  exists node, head_node edge.2 = Some node /\
    match child_nodes node with
    | _ :: _ =>
        exists masks,
          Forall2 (fun child m => attrs !! child = Some m) (child_nodes node) masks /\
          attrs !! edge.1 = Some (fold_left Z.lor masks 0)
    | [] =>
        match taxon node with
        | Some t =>
            exists m, taxon_bitmask taxa_block t = Ok m /\ attrs !! edge.1 = Some m
        | None => attrs !! edge.1 = Some 0
        end
    end.

(** A mask all of whose bits are bits of the full mask. *)
Definition submask (m full : Z) : Prop := Z.land m full = m.

(** The rootedness decision of [encode_splits]. *)
Definition stored_plain (tree : Tree) (unrooted : option bool) : Prop :=
  unrooted = Some false \/ (unrooted = None /\ is_rooted tree = true).

(** The key under which [split_edges] files a split mask: the mask itself
    in a plain dictionary, its canonical form in a [NormalizedBitmaskDict]. *)
Definition key_of_mask (d : SplitEdges) (m : Z) : Z :=
  match d with
  | PlainDict _ => m
  | NormalizedBitmaskDict mask _ => normalize m mask
  end.

End EncoderSpec.

Module Distribution.
Import Encoder.

(** ** [SplitDistribution] (splits.py, lines 158-252) *)

(** The attributes of a [SplitDistribution].  Floats are modelled by the
    rationals they denote. *)
Record SplitDistribution : Type := mkSplitDistribution {
  total_trees_counted : Z;
  taxa_block : list string;
  splits : list Z;
  split_counts : gmap Z Z;
  split_edge_lengths : gmap Z (list Q);
  split_node_ages : gmap Z (list Q);
  ignore_edge_lengths : bool;
  ignore_node_ages : bool;
  unrooted : bool;
  __split_freqs : option (gmap Z Q);
  __trees_counted_for_freqs : Z
}.

(** Assignments to single attributes. *)
Definition set_total_trees_counted (v : Z) (self : SplitDistribution) :=
  mkSplitDistribution v (taxa_block self) (splits self) (split_counts self)
    (split_edge_lengths self) (split_node_ages self) (ignore_edge_lengths self)
    (ignore_node_ages self) (unrooted self) (__split_freqs self)
    (__trees_counted_for_freqs self).

Definition set_splits (v : list Z) (self : SplitDistribution) :=
  mkSplitDistribution (total_trees_counted self) (taxa_block self) v (split_counts self)
    (split_edge_lengths self) (split_node_ages self) (ignore_edge_lengths self)
    (ignore_node_ages self) (unrooted self) (__split_freqs self)
    (__trees_counted_for_freqs self).

Definition set_split_counts (v : gmap Z Z) (self : SplitDistribution) :=
  mkSplitDistribution (total_trees_counted self) (taxa_block self) (splits self) v
    (split_edge_lengths self) (split_node_ages self) (ignore_edge_lengths self)
    (ignore_node_ages self) (unrooted self) (__split_freqs self)
    (__trees_counted_for_freqs self).

Definition set_split_edge_lengths (v : gmap Z (list Q)) (self : SplitDistribution) :=
  mkSplitDistribution (total_trees_counted self) (taxa_block self) (splits self)
    (split_counts self) v (split_node_ages self) (ignore_edge_lengths self)
    (ignore_node_ages self) (unrooted self) (__split_freqs self)
    (__trees_counted_for_freqs self).

Definition set_split_node_ages (v : gmap Z (list Q)) (self : SplitDistribution) :=
  mkSplitDistribution (total_trees_counted self) (taxa_block self) (splits self)
    (split_counts self) (split_edge_lengths self) v (ignore_edge_lengths self)
    (ignore_node_ages self) (unrooted self) (__split_freqs self)
    (__trees_counted_for_freqs self).

Definition set_flags (ignore_lengths ignore_ages unrooted_flag : bool)
    (self : SplitDistribution) :=
  mkSplitDistribution (total_trees_counted self) (taxa_block self) (splits self)
    (split_counts self) (split_edge_lengths self) (split_node_ages self)
    ignore_lengths ignore_ages unrooted_flag (__split_freqs self)
    (__trees_counted_for_freqs self).

Definition set_split_freqs (v : option (gmap Z Q)) (self : SplitDistribution) :=
  mkSplitDistribution (total_trees_counted self) (taxa_block self) (splits self)
    (split_counts self) (split_edge_lengths self) (split_node_ages self)
    (ignore_edge_lengths self) (ignore_node_ages self) (unrooted self) v
    (__trees_counted_for_freqs self).

Definition set_trees_counted_for_freqs (v : Z) (self : SplitDistribution) :=
  mkSplitDistribution (total_trees_counted self) (taxa_block self) (splits self)
    (split_counts self) (split_edge_lengths self) (split_node_ages self)
    (ignore_edge_lengths self) (ignore_node_ages self) (unrooted self)
    (__split_freqs self) v.

(** [SplitDistribution(taxa_block)] (lines 163-180); [taxa.TaxaBlock()] is
    the empty universe. *)
Definition __init__ (taxa_block : option (list string)) : SplitDistribution :=
  {| total_trees_counted := 0;
     taxa_block := match taxa_block with
                   | Some taxa_block => taxa_block
                   | None => []
                   end;
     splits := [];
     split_counts := ∅;
     split_edge_lengths := ∅;
     split_node_ages := ∅;
     ignore_edge_lengths := false;
     ignore_node_ages := false;
     unrooted := true;
     __split_freqs := None;
     __trees_counted_for_freqs := 0 |}.

(** ** Methods: state and exceptions *)

(** A method runs on a state of [self] and ends with a result or an
    exception, and with the state it leaves [self] in: what a method wrote
    before it raised stays written. *)
Definition M (A : Type) : Type := SplitDistribution -> res A * SplitDistribution.

Definition ret {A : Type} (a : A) : M A := fun self => (Ok a, self).

Definition bindM {A B : Type} (m : M A) (k : A -> M B) : M B :=
  fun self =>
    match m self with
    | (Ok a, self') => k a self'
    | (Raise e, self') => (Raise e, self')
    end.

Definition get : M SplitDistribution := fun self => (Ok self, self).

Definition modify (f : SplitDistribution -> SplitDistribution) : M unit :=
  fun self => (Ok tt, f self).

Definition lift {A : Type} (r : res A) : M A := fun self => (r, self).

Notation "'let!' x ':=' m 'in' k" := (bindM m (fun x => k))
  (at level 10, x name, m at level 100, k at level 200).

Fixpoint for_each {X : Type} (l : list X) (body : X -> M unit) : M unit :=
  match l with
  | [] => ret tt
  | x :: rest => let! _ := body x in for_each rest body
  end.

(** [d[key]] on the dictionaries of samples. *)
Definition getitem {V : Type} (d : gmap Z V) (key : Z) : res V :=
  match d !! key with
  | Some v => Ok v
  | None => Raise KeyError
  end.

(** ** [calc_freqs] and [_get_split_frequencies] (lines 203-225) *)

(** [float(count) / total] *)
Definition float_div (count total : Z) : Q := (inject_Z count / inject_Z total)%Q.

Definition calc_freqs `{DictOrder} : M (gmap Z Q) :=
  let! self := get in
  let total :=
    if total_trees_counted self =? 0 then 1 else total_trees_counted self in
  let freqs :=
    fold_left (fun freqs '(split, count) => <[split := float_div count total]> freqs)
              (dict_items (split_counts self)) ∅ in
  let! _ := modify (set_split_freqs (Some freqs)) in
  let! _ := modify (set_trees_counted_for_freqs (total_trees_counted self)) in
  ret freqs.

Definition _get_split_frequencies `{DictOrder} : M (option (gmap Z Q)) :=
  let! self := get in
  let! _ :=
    if match __split_freqs self with None => true | Some _ => false end
       || negb (__trees_counted_for_freqs self =? total_trees_counted self)
    then let! _ := calc_freqs in ret tt
    else ret tt in
  let! self := get in
  ret (__split_freqs self).

(** ** [count_splits_on_tree] (lines 227-252) *)

(** The body of the loop [for split in tree.split_edges] (lines 235-252).
    [tree.split_edges[split]] is evaluated more than once in the source, with
    the same outcome each time; the model evaluates it once per use of the
    edge. *)
Definition count_split (split_edges : SplitEdges) (split : Z) : M unit :=
  let! self := get in
  let! _ :=
    match split_counts self !! split with
    | None =>
        let! _ := modify (set_splits (splits self ++ [split])) in
        modify (set_split_counts (<[split := 1]> (split_counts self)))
    | Some count =>
        modify (set_split_counts (<[split := count + 1]> (split_counts self)))
    end in
  let! _ :=
    if negb (ignore_edge_lengths self) then
      let! _ :=
        match split_edge_lengths self !! split with
        | None => modify (set_split_edge_lengths (<[split := []]> (split_edge_lengths self)))
        | Some _ => ret tt
        end in
      let! edge := lift (split_edges_getitem split_edges split) in
      let! self := get in
      let! lengths := lift (getitem (split_edge_lengths self) split) in
      let sample := match edge_length edge.2 with
                    | Some length => length
                    | None => 0%Q
                    end in
      modify (set_split_edge_lengths
                (<[split := lengths ++ [sample]]> (split_edge_lengths self)))
    else ret tt in
  if negb (ignore_node_ages self) then
    let! _ :=
      match split_node_ages self !! split with
      | None => modify (set_split_node_ages (<[split := []]> (split_node_ages self)))
      | Some _ => ret tt
      end in
    let! edge := lift (split_edges_getitem split_edges split) in
    match head_node edge.2 with
    | Some node =>
        let! self := get in
        let! ages := lift (getitem (split_node_ages self) split) in
        modify (set_split_node_ages
                  (<[split := ages ++ [distance_from_tip node]]> (split_node_ages self)))
    | None => ret tt
    end
  else ret tt.

(** [getattr(tree, "split_edges")] *)
Definition getattr_split_edges (tree : Tree) : res SplitEdges :=
  match split_edges tree with
  | Some d => Ok d
  | None => Raise AttributeError
  end.

(** The method returns nothing; the model returns the tree as the call
    leaves it, whose [split_edges] the loop has run over. *)
Definition count_splits_on_tree `{DictOrder} (tree : Tree) : M Tree :=
  let! self := get in
  let! _ := modify (set_total_trees_counted (total_trees_counted self + 1)) in
  let! tree := lift (normalize_taxa tree (taxa_block self)) in
  let! tree := lift (encode_splits tree (Some (taxa_block self)) (Some (unrooted self))) in
  let! split_edges := lift (getattr_split_edges tree) in
  let! _ := for_each (split_edges_keys split_edges) (count_split split_edges) in
  ret tree.

(** ** The lifetime of a distribution *)

(** The states a distribution goes through: it is created, trees are
    counted on it (the call returning or raising), its frequencies are
    computed or queried, and its flags are set. *)
Inductive lifetime `{DictOrder} : SplitDistribution -> Prop :=
| lifetime_init taxa_block :
    lifetime (__init__ taxa_block)
| lifetime_count self tree :
    lifetime self -> lifetime (count_splits_on_tree tree self).2
| lifetime_calc_freqs self :
    lifetime self -> lifetime (calc_freqs self).2
| lifetime_query self :
    lifetime self -> lifetime (_get_split_frequencies self).2
| lifetime_flags self ignore_lengths ignore_ages unrooted_flag :
    lifetime self -> lifetime (set_flags ignore_lengths ignore_ages unrooted_flag self).

(** The states reached from a fresh distribution by calls of
    [count_splits_on_tree] that return, together with the splits the loops
    of these calls have run over, in this order. *)
Inductive counted `{DictOrder} : SplitDistribution -> list Z -> Prop :=
| counted_init taxa_block :
    counted (__init__ taxa_block) []
| counted_flags self observed ignore_lengths ignore_ages unrooted_flag :
    counted self observed ->
    counted (set_flags ignore_lengths ignore_ages unrooted_flag self) observed
| counted_tree self observed tree tree' self' split_edges :
    counted self observed ->
    count_splits_on_tree tree self = (Ok tree', self') ->
    getattr_split_edges tree' = Ok split_edges ->
    counted self' (observed ++ split_edges_keys split_edges).

End Distribution.

Module DistributionSpec.
Import Encoder Distribution.

(** ** What the methods of [SplitDistribution] are measured against *)

(** The attributes [count_splits_on_tree] leaves alone once it has
    incremented [total_trees_counted]. *)
Definition same_frame (self self' : SplitDistribution) : Prop :=
  total_trees_counted self' = total_trees_counted self /\
  taxa_block self' = taxa_block self /\
  ignore_edge_lengths self' = ignore_edge_lengths self /\
  ignore_node_ages self' = ignore_node_ages self /\
  unrooted self' = unrooted self /\
  __split_freqs self' = __split_freqs self /\
  __trees_counted_for_freqs self' = __trees_counted_for_freqs self.

(** The frequency table of a state: each count divided by the number of
    trees counted, or by one when no tree has been counted. *)
Definition frequencies (self : SplitDistribution) : gmap Z Q :=
  (fun count =>
     float_div count
       (if total_trees_counted self =? 0 then 1 else total_trees_counted self))
  <$> split_counts self.

(** The cache is not ahead of the counter, and a cache stamped with the
    current counter holds the current frequencies. *)
Definition cache_sound (self : SplitDistribution) : Prop :=
  __trees_counted_for_freqs self <= total_trees_counted self /\
  forall freqs,
    __split_freqs self = Some freqs ->
    __trees_counted_for_freqs self = total_trees_counted self ->
    freqs = frequencies self.

(** [splits] lists the keys of [split_counts] without repetition, and every
    count is at least one. *)
Definition splits_sound (self : SplitDistribution) : Prop :=
  NoDup (splits self) /\
  (forall split, split ∈ splits self <-> split ∈ dom (split_counts self)) /\
  (forall split count, split_counts self !! split = Some count -> 1 <= count).

(** The branch-length sample an edge contributes. *)
Definition length_sample (edge : EdgeRef) : Q := default 0%Q (edge_length edge.2).

(** The enumeration of a dictionary that stdpp provides, as one possible
    iteration order. *)
Definition map_order : DictOrder :=
  {| dict_items := fun V d => map_to_list d;
     dict_items_perm := fun V d => reflexivity (map_to_list d) |}.

End DistributionSpec.

(** ** Example trees *)

Module Examples.
Import Encoder Distribution DistributionSpec.

Definition leaf (t : string) (length : option Q) (id : nat) : EdgeRef :=
  (id, mkEdge (Some (mkNode (Some t) [] 0%Q)) length).

Definition inner (children : list nat) (length : option Q) (age : Q) (id : nat)
    : EdgeRef :=
  (id, mkEdge (Some (mkNode None children age)) length).

Definition universe : list string := ["A"; "B"; "C"; "D"]%string.

(** The tree ((A,B),(C,D)), unrooted. *)
Definition tree1 : Tree :=
  {| postorder_edge_iter :=
       [leaf "A" (Some (1 # 2)%Q) 0; leaf "B" None 1;
        inner [0; 1]%nat (Some 1%Q) 1%Q 2;
        leaf "C" None 3; leaf "D" None 4;
        inner [3; 4]%nat None 1%Q 5;
        inner [2; 5]%nat None 2%Q 6];
     is_rooted := false;
     split_mask := ∅;
     split_edges := None |}.

(** The tree ((A,(B)),C), rooted, with a node of one child, so that two
    edges carry the mask of B. *)
Definition tree2 : Tree :=
  {| postorder_edge_iter :=
       [leaf "A" None 0; leaf "B" (Some 3%Q) 1;
        inner [1]%nat (Some 2%Q) 0%Q 2;
        inner [0; 2]%nat None 1%Q 3;
        leaf "C" None 4;
        inner [3; 4]%nat None 2%Q 5];
     is_rooted := true;
     split_mask := ∅;
     split_edges := None |}.

(** [tree1] as [encode_splits] leaves it, with [unrooted=True]. *)
Definition tree1_encoded : Tree :=
  Eval vm_compute in
    match @encode_splits map_order tree1 (Some universe) (Some true) with
    | Ok tree => tree
    | Raise _ => tree1
    end.

(** A fresh distribution over the universe; the distribution and the tree
    after [tree2] has been counted on it; the distribution after [tree1] has
    been counted twice. *)
Definition fresh : SplitDistribution := __init__ (Some universe).

Definition tree2_counted : Tree :=
  Eval vm_compute in
    match (@count_splits_on_tree map_order tree2 fresh).1 with
    | Ok tree => tree
    | Raise _ => tree2
    end.

Definition counted_tree2 : SplitDistribution :=
  Eval vm_compute in (@count_splits_on_tree map_order tree2 fresh).2.

Definition counted_twice : SplitDistribution :=
  (@count_splits_on_tree map_order tree1
     (@count_splits_on_tree map_order tree1 fresh).2).2.

End Examples.

Module DistributionMore.
Import BitUtil Encoder Distribution.

(** ** [splits_considered] (splits.py, lines 182-201) *)

(** One turn of the loop [for s in self.split_counts] (lines 196-200), on
    the four running totals; [count] is [self.split_counts[s]]. *)
Definition consider (taxa_mask : Z) (totals : Z * Z * Z * Z) (item : Z * Z)
    : Z * Z * Z * Z :=
  let '(num_splits, num_unique_splits, num_nt_splits, num_nt_unique_splits) := totals in
  let '(s, count) := item in
  let num_unique_splits := num_unique_splits + 1 in
  let num_splits := num_splits + count in
  if truthy (is_non_singleton_split s taxa_mask) then
    (num_splits, num_unique_splits, num_nt_splits + count, num_nt_unique_splits + 1)
  else
    (num_splits, num_unique_splits, num_nt_splits, num_nt_unique_splits).

Definition splits_considered `{DictOrder} (self : SplitDistribution)
    : Z * Z * Z * Z :=
  let taxa_mask := all_taxa_bitmask (taxa_block self) in
  fold_left (consider taxa_mask) (dict_items (split_counts self)) (0, 0, 0, 0).

(** ** What [splits_considered] is measured against *)

(** The sum of the counts of a list of entries. *)
Definition sum_counts (items : list (Z * Z)) : Z :=
  foldr (fun item total => item.2 + total) 0 items.

(** The entries whose split [is_non_singleton_split] calls non-trivial. *)
Definition non_trivial (taxa_mask : Z) (items : list (Z * Z)) : list (Z * Z) :=
  filter (fun item => truthy (is_non_singleton_split item.1 taxa_mask) = true) items.

(** ** Distributions that sample lengths and ages *)

(** The states reached from a fresh distribution by calls of
    [count_splits_on_tree] that return, with [unrooted] set at will and the
    two [ignore_*] flags left as [__init__] sets them. *)
Inductive sampled `{DictOrder} : SplitDistribution -> Prop :=
| sampled_init taxa_block :
    sampled (__init__ taxa_block)
| sampled_unrooted self unrooted_flag :
    sampled self ->
    sampled (set_flags (ignore_edge_lengths self) (ignore_node_ages self)
               unrooted_flag self)
| sampled_tree self tree tree' self' :
    sampled self ->
    count_splits_on_tree tree self = (Ok tree', self') ->
    sampled self'.

(** The number of samples stored under a split, if any. *)
Definition sample_size (samples : gmap Z (list Q)) (split : Z) : option Z :=
  (fun l => Z.of_nat (length l)) <$> samples !! split.

(** Every list of the second dictionary starts with the list the first
    dictionary has under the same key. *)
Definition samples_extended (samples samples' : gmap Z (list Q)) : Prop :=
  forall split l,
    samples !! split = Some l ->
    exists l', samples' !! split = Some l' /\ l `prefix_of` l'.

End DistributionMore.

Module BitUtilFacts.
Import BitUtil BitSpec.

(** ** Facts about [count_bits] *)

(** One round of the loop: the table entry of the low nibble plus the ones
    of the rest. *)
Lemma popcount_nibble (c : Z) :
  0 <= c ->
  popcount c = nth (Z.to_nat (Z.land c 15)) n_bits_set 0 + popcount (Z.shiftr c 4).
Proof.
  intros Hc. destruct c as [|p|p]; [reflexivity| |lia].
  destruct p as [[[[q|q|]|[q|q|]|]|[[q|q|]|[q|q|]|]|]|[[[q|q|]|[q|q|]|]|[[q|q|]|[q|q|]|]|]|];
    lazy -[popcount_pos Z.add]; cbn [popcount_pos]; lia.
Qed.

Lemma popcount_nonneg (c : Z) : 0 <= popcount c.
Proof.
  destruct c as [|p|p]; simpl; try lia.
  induction p; simpl; lia.
Qed.

Lemma popcount_pos_ge_1 (p : positive) : 1 <= popcount_pos p.
Proof. induction p; simpl; lia. Qed.

Lemma count_bits_loop_correct (fuel : nat) :
  forall c n_bits : Z,
    0 <= c < 2 ^ (4 * Z.of_nat fuel) ->
    count_bits_loop fuel c n_bits = Some (n_bits + popcount c).
Proof.
  induction fuel as [|fuel IH]; intros c n_bits [Hc Hlt].
  - change (2 ^ (4 * Z.of_nat 0)) with 1 in Hlt.
    assert (c = 0) as -> by lia.
    cbn [count_bits_loop popcount]. change (0 >? 0) with false.
    cbn iota. f_equal. lia.
  - cbn [count_bits_loop]. destruct (Z.gtb_spec c 0) as [Hpos|Hle].
    + rewrite IH.
      * f_equal. rewrite (popcount_nibble c) by lia. lia.
      * rewrite Z.shiftr_div_pow2 by lia. split.
        -- apply Z.div_pos; lia.
        -- apply Z.div_lt_upper_bound; [lia|].
           replace (4 * Z.of_nat (S fuel)) with (4 + 4 * Z.of_nat fuel) in Hlt by lia.
           rewrite Z.pow_add_r in Hlt by lia. lia.
    + assert (c = 0) as -> by lia. cbn [popcount]. f_equal. lia.
Qed.

Lemma count_char_app (c : ascii) (s t : string) :
  count_char c (s ++ t) = count_char c s + count_char c t.
Proof. induction s as [|d s IH]; simpl; [reflexivity|]. rewrite IH. lia. Qed.

Lemma popcount_bitstring (v : Z) :
  popcount v = count_char "1" (number_to_bitstring v).
Proof.
  destruct v as [|p|p]; try reflexivity. simpl.
  induction p as [p IH|p IH|]; simpl; rewrite ?count_char_app, <- ?IH; simpl; lia.
Qed.

(** The equation of the source: for [num > 0] the bit string of [num] is the
    bit string of [num >> 1] followed by [str(num & 1)]. *)
Lemma number_to_bitstring_eq (num : Z) :
  number_to_bitstring num =
    if num >? 0
    then (number_to_bitstring (Z.shiftr num 1) ++ str_bit (Z.land num 1))%string
    else ""%string.
Proof.
  destruct num as [|p|p]; try reflexivity.
  destruct p as [q|q|]; reflexivity.
Qed.

Lemma Qeq_bool_inject_Z (c : Z) (q : Q) :
  Qeq_bool (inject_Z c) q = true <-> (inject_Z c == q)%Q.
Proof. apply Qeq_bool_iff. Qed.

(** C2: for a non-negative integer [v], and fuel for every nibble of [v],
    [count_bits] returns the number of ones of the binary representation of
    [v]; for every negative argument, and for every argument whose value is
    not an integer, it raises an exception, whatever the fuel. *)
Theorem count_bits_spec :
  (forall (v : Z) (fuel : nat),
      0 <= v < 2 ^ (4 * Z.of_nat fuel) ->
      count_bits fuel (PyInt v) = Some (Ok (popcount v)) /\
      popcount v = count_char "1" (number_to_bitstring v)) /\
  (forall (a : pyvalue) (fuel : nat),
      is_negative a -> exists e, count_bits fuel a = Some (Raise e)) /\
  (forall (a : pyvalue) (fuel : nat),
      ~ is_integer_valued a -> exists e, count_bits fuel a = Some (Raise e)).
Proof.
  split; [|split].
  - intros v fuel Hv. split; [|apply popcount_bitstring].
    unfold count_bits. cbn [long long_ne]. rewrite Z.eqb_refl. cbn [negb].
    destruct (Z.ltb_spec v 1) as [Hlt|Hge].
    + assert (v = 0) as -> by lia. reflexivity.
    + rewrite count_bits_loop_correct by exact Hv. reflexivity.
  - intros a fuel Hneg. unfold count_bits.
    destruct a as [z|q| |negative|]; cbn [is_negative] in Hneg; cbn [long long_ne];
      try contradiction; try (eexists; reflexivity).
    + rewrite Z.eqb_refl. cbn [negb].
      destruct (Z.ltb_spec z 1); [|lia].
      destruct (Z.ltb_spec z 0); [|lia]. eexists; reflexivity.
    + destruct (Qeq_bool _ q) eqn:Heq; cbn [negb]; [|eexists; reflexivity].
      apply Qeq_bool_inject_Z in Heq.
      set (c := Z.quot (Qnum q) (Z.pos (Qden q))) in *.
      assert (c < 0) as Hc.
      { rewrite Zlt_Qlt. rewrite Heq. exact Hneg. }
      destruct (Z.ltb_spec c 1); [|lia].
      destruct (Z.ltb_spec c 0); [|lia]. eexists; reflexivity.
  - intros a fuel Hnint. unfold count_bits.
    destruct a as [z|q| |negative|]; cbn [is_integer_valued] in Hnint; cbn [long long_ne];
      try (eexists; reflexivity).
    + exfalso. apply Hnint. exact I.
    + destruct (Qeq_bool _ q) eqn:Heq; cbn [negb]; [|eexists; reflexivity].
      apply Qeq_bool_inject_Z in Heq. exfalso. apply Hnint. eauto.
Qed.

Example count_bits_examples :
  count_bits 2 (PyInt 255) = Some (Ok 8) /\
  count_bits 1 (PyInt 255) = None /\
  count_bits 0 (PyInt 0) = Some (Ok 0) /\
  count_bits 1 (PyFloat (6 # 2)) = Some (Ok 2) /\
  count_bits 1 (PyInt (-1)) = Some (Raise (ValueError "negative argument")) /\
  count_bits 1 (PyFloat (1 # 2)) = Some (Raise (ValueError "non-integer argument")).
Proof. repeat split; reflexivity. Qed.

Lemma count_bits_spec_witness :
  (0 <= 11 < 2 ^ (4 * Z.of_nat 1)) /\
  count_bits 1 (PyInt 11) = Some (Ok 3) /\
  is_negative (PyFloat (-3 # 2)) /\
  (exists e, count_bits 0 (PyFloat (-3 # 2)) = Some (Raise e)) /\
  ~ is_integer_valued PyNaN /\
  (exists e, count_bits 0 PyNaN = Some (Raise e)).
Proof.
  split; [simpl; lia|]. split.
  { apply (proj1 count_bits_spec 11 1%nat). simpl; lia. }
  split; [reflexivity|]. split.
  { apply (proj1 (proj2 count_bits_spec) (PyFloat (-3 # 2)) 0%nat). reflexivity. }
  split; [intros H; exact H|].
  apply (proj2 (proj2 count_bits_spec) PyNaN 0%nat). intros H; exact H.
Defined.

(** ** Facts about [is_non_singleton_split] *)

Lemma land_odd_even (a b : Z) : Z.land (2 * a + 1) (2 * b) = 2 * Z.land a b.
Proof.
  apply Z.bits_inj'. intros n Hn. rewrite Z.land_spec.
  destruct (Z.eq_dec n 0) as [->|Hne].
  - rewrite Z.testbit_odd_0, !Z.testbit_even_0. reflexivity.
  - replace n with (Z.succ (n - 1)) by lia.
    rewrite Z.testbit_odd_succ, !Z.testbit_even_succ by lia.
    now rewrite Z.land_spec.
Qed.

Lemma land_even_odd (a b : Z) : Z.land (2 * a) (2 * b + 1) = 2 * Z.land a b.
Proof. rewrite Z.land_comm, land_odd_even, Z.land_comm. reflexivity. Qed.

(** [(x-1) & x] is zero exactly for the powers of two. *)
Lemma land_pred_pos (p : positive) :
  Z.land (Z.pos p - 1) (Z.pos p) = 0 <-> popcount_pos p = 1.
Proof.
  induction p as [q IH|q IH|]; cbn [popcount_pos].
  - pose proof (popcount_pos_ge_1 q).
    rewrite Pos2Z.inj_xI.
    replace (2 * Z.pos q + 1 - 1) with (2 * Z.pos q) by lia.
    rewrite land_even_odd, Z.land_diag. lia.
  - rewrite Pos2Z.inj_xO.
    replace (2 * Z.pos q - 1) with (2 * (Z.pos q - 1) + 1) by lia.
    rewrite land_odd_even, <- IH. lia.
  - split; reflexivity.
Qed.

Lemma land_pred_popcount (x : Z) :
  0 < x -> (Z.land (x - 1) x <> 0 <-> popcount x > 1).
Proof.
  intros Hx. destruct x as [|p|p]; try lia.
  cbn [popcount]. pose proof (popcount_pos_ge_1 p).
  rewrite land_pred_pos. lia.
Qed.

Lemma truthy_py_and (x y : Z) :
  truthy (py_and x y) = true <-> x <> 0 /\ y <> 0.
Proof.
  unfold truthy, py_and.
  destruct (Z.eqb_spec x 0) as [->|Hx].
  - change (0 =? 0) with true. cbn. split; [discriminate|lia].
  - destruct (Z.eqb_spec y 0) as [->|Hy]; cbn; split; try discriminate; try lia; auto.
Qed.

(** C3: for a split [s] that is a non-empty, strict subset of the bits of a
    full mask [m], the result of [is_non_singleton_split] is truthy exactly
    when both [s] and [s ^ m] have more than one bit set. *)
Theorem is_non_singleton_split_spec (s m : Z) :
  0 <= m -> 0 < s -> s <> m -> Z.land s m = s ->
  (truthy (is_non_singleton_split s m) = true <->
   popcount s > 1 /\ popcount (Z.lxor s m) > 1).
Proof.
  intros Hm Hs Hne Hsub.
  assert (0 < Z.lxor s m) as Hx.
  { assert (0 <= Z.lxor s m) by (apply Z.lxor_nonneg; lia).
    assert (Z.lxor s m <> 0) by (rewrite Z.lxor_eq_0_iff; exact Hne). lia. }
  unfold is_non_singleton_split. rewrite truthy_py_and.
  rewrite (land_pred_popcount s Hs), (land_pred_popcount _ Hx). reflexivity.
Qed.

Lemma is_non_singleton_split_spec_witness :
  (0 <= 15 /\ 0 < 3 /\ 3 <> 15 /\ Z.land 3 15 = 3) /\
  (truthy (is_non_singleton_split 3 15) = true <->
   popcount 3 > 1 /\ popcount (Z.lxor 3 15) > 1).
Proof.
  split.
  - repeat split; try lia; reflexivity.
  - apply (is_non_singleton_split_spec 3 15); try lia; reflexivity.
Defined.

(** With four taxa: the split of the first two from the last two is no
    singleton split, the split of the first taxon from the rest is one. *)
Example is_non_singleton_split_0011 :
  is_non_singleton_split 3 15 = 8 /\ truthy (is_non_singleton_split 3 15) = true.
Proof. split; reflexivity. Qed.

Example is_non_singleton_split_0001 :
  is_non_singleton_split 1 15 = 0 /\ truthy (is_non_singleton_split 1 15) = false.
Proof. split; reflexivity. Qed.

(** ** Facts about [split_as_string] and [split_as_string_rev] *)

Lemma append_nil (t : string) : (EmptyString ++ t)%string = t.
Proof. reflexivity. Qed.

Lemma append_cons (c : ascii) (s t : string) :
  (String c s ++ t)%string = String c (s ++ t).
Proof. reflexivity. Qed.

Lemma chars_app (s t : string) : chars (s ++ t) = chars s ++ chars t.
Proof.
  induction s as [|c s IH]; [reflexivity|].
  rewrite append_cons. cbn. now rewrite IH.
Qed.

Lemma chars_length (s : string) : String.length s = length (chars s).
Proof. induction s as [|c s IH]; cbn; [reflexivity|]. now rewrite IH. Qed.

Lemma chars_get (s : string) (i : nat) : String.get i s = chars s !! i.
Proof.
  revert i. induction s as [|c s IH]; intros [|i]; cbn; try reflexivity. apply IH.
Qed.


Lemma chars_string_rev (s : string) : chars (string_rev s) = rev (chars s).
Proof.
  induction s as [|c s IH]; cbn; [reflexivity|]. rewrite chars_app, IH. reflexivity.
Qed.

Lemma chars_repeat_char (n : nat) (c : ascii) : chars (repeat_char n c) = replicate n c.
Proof. induction n as [|n IH]; cbn; [reflexivity|]. now rewrite IH. Qed.

Lemma chars_replace (old new : ascii) (s : string) :
  chars (replace old (String new EmptyString) s) =
    map (fun c => if Ascii.eqb c old then new else c) (chars s).
Proof.
  induction s as [|c s IH]; cbn; [reflexivity|].
  destruct (Ascii.eqb c old); rewrite ?append_cons, ?append_nil; cbn; now rewrite IH.
Qed.

Lemma mask_bits_length (n : nat) (mask : Z) : length (mask_bits n mask) = n.
Proof. revert mask. induction n as [|n IH]; intros mask; cbn; [reflexivity|]. now rewrite IH. Qed.

Lemma mask_bits_lookup (n : nat) :
  forall (mask : Z) (k : nat),
    (k < n)%nat -> mask_bits n mask !! k = Some (Z.testbit mask (Z.of_nat k)).
Proof.
  induction n as [|n IH]; intros mask k Hk; [lia|].
  destruct k as [|k]; cbn [mask_bits].
  - cbn. now rewrite Z.bit0_odd.
  - change ((Z.odd mask :: mask_bits n (Z.div2 mask)) !! S k)
      with (mask_bits n (Z.div2 mask) !! k).
    rewrite IH by lia. f_equal.
    rewrite Z.div2_spec, Z.shiftr_spec by lia. f_equal. lia.
Qed.

Lemma mask_bits_zero (n : nat) : mask_bits n 0 = replicate n false.
Proof. induction n as [|n IH]; cbn; [reflexivity|]. now rewrite IH. Qed.

Lemma chars_number_to_bitstring_pos (p : positive) :
  chars (number_to_bitstring_pos p) = rev (lsb_chars p).
Proof.
  induction p as [q IH|q IH|]; cbn; rewrite ?chars_app, ?IH; reflexivity.
Qed.

Lemma lsb_chars_length (p : positive) (n : nat) :
  Z.pos p < 2 ^ Z.of_nat n -> (length (lsb_chars p) <= n)%nat.
Proof.
  revert n. induction p as [q IH|q IH|]; intros [|n] Hlt;
    try (change (2 ^ Z.of_nat 0) with 1 in Hlt; lia); cbn [lsb_chars length].
  - rewrite Nat2Z.inj_succ, Z.pow_succ_r in Hlt by lia.
    specialize (IH n). lia.
  - rewrite Nat2Z.inj_succ, Z.pow_succ_r in Hlt by lia.
    specialize (IH n). lia.
  - lia.
Qed.

Lemma lsb_chars_pad (p : positive) :
  forall n : nat,
    Z.pos p < 2 ^ Z.of_nat n ->
    lsb_chars p ++ replicate (n - length (lsb_chars p)) "0"%char =
      map bit_char (mask_bits n (Z.pos p)).
Proof.
  induction p as [q IH|q IH|]; intros [|n] Hlt;
    try (change (2 ^ Z.of_nat 0) with 1 in Hlt; lia);
    rewrite Nat2Z.inj_succ, Z.pow_succ_r in Hlt by lia;
    cbn [lsb_chars length mask_bits map app Nat.sub].
  - change (Z.odd (Z.pos q~1)) with true. change (Z.div2 (Z.pos q~1)) with (Z.pos q).
    cbn [bit_char]. f_equal. apply IH. lia.
  - change (Z.odd (Z.pos q~0)) with false. change (Z.div2 (Z.pos q~0)) with (Z.pos q).
    cbn [bit_char]. f_equal. apply IH. lia.
  - change (Z.odd 1) with true. change (Z.div2 1) with 0.
    cbn [bit_char]. f_equal. rewrite mask_bits_zero, Nat.sub_0_r.
    induction n as [|n IHn]; cbn; [reflexivity|]. f_equal. apply IHn.
    assert (0 < 2 ^ Z.of_nat n) by (apply Z.pow_pos_nonneg; lia). lia.
Qed.

(** The padded bit string, read from its right end, is the list of the bits
    of the mask. *)
Lemma chars_rjust_bitstring (mask : Z) (n : nat) :
  0 <= mask < 2 ^ Z.of_nat n ->
  rev (chars (rjust (number_to_bitstring mask) n "0")) = map bit_char (mask_bits n mask).
Proof.
  intros [H0 Hlt]. unfold rjust.
  rewrite chars_app, chars_repeat_char, rev_app_distr, chars_length.
  destruct mask as [|p|p]; [| |lia].
  - cbn [number_to_bitstring chars length rev app]. rewrite Nat.sub_0_r, mask_bits_zero.
    clear. induction n as [|n IH]; [reflexivity|].
    cbn [replicate rev map]. rewrite IH. cbn [bit_char].
    clear. induction n as [|n IH]; [reflexivity|]. cbn. now rewrite IH.
  - cbn [number_to_bitstring]. rewrite chars_number_to_bitstring_pos.
    rewrite rev_involutive, length_rev.
    rewrite <- lsb_chars_pad by exact Hlt. f_equal.
    generalize (n - length (lsb_chars p))%nat. clear.
    intros k. induction k as [|k IH]; [reflexivity|].
    cbn [replicate rev]. rewrite IH.
    clear. induction k as [|k IH]; [reflexivity|]. cbn. now rewrite IH.
Qed.

(** The reversed rendering is the list of the symbols of the bits. *)
Lemma chars_split_as_string_rev {T : Type} (split_mask : Z) (taxa_block : list T)
    (absent present : ascii) :
  0 <= split_mask < 2 ^ Z.of_nat (length taxa_block) ->
  absent <> "1"%char ->
  chars (split_as_string_rev split_mask taxa_block
           (String absent EmptyString) (String present EmptyString)) =
    map (symbol_of absent present) (mask_bits (length taxa_block) split_mask).
Proof.
  intros Hm Habs. unfold split_as_string_rev, split_as_string.
  rewrite chars_string_rev, !chars_replace, <- !map_rev.
  rewrite chars_rjust_bitstring by exact Hm.
  rewrite !map_map. apply map_ext. intros [|]; cbn.
  - reflexivity.
  - destruct (Ascii.eqb_spec absent "1"); [contradiction|reflexivity].
Qed.

Lemma lookup_map {A B : Type} (f : A -> B) (l : list A) (i : nat) :
  map f l !! i = option_map f (l !! i).
Proof.
  revert i. induction l as [|x l IH]; intros [|i]; cbn; try reflexivity. apply IH.
Qed.

(** C8, as amended: for a mask within the taxon count ([0 <= split_mask <
    2^n] with [n = len(taxa_block)]) and one-character symbols whose absent
    symbol is not the character 1, [split_as_string] returns a string of
    length [n] whose character at position [i] is the present symbol when bit
    [n-1-i] of the mask is set and the absent symbol otherwise;
    [split_as_string_rev] returns its reversal, whose character at position
    [i] stands for bit [i]. *)
Theorem split_as_string_spec {T : Type} (split_mask : Z) (taxa_block : list T)
    (absent present : ascii) :
  0 <= split_mask < 2 ^ Z.of_nat (length taxa_block) ->
  absent <> "1"%char ->
  let n := length taxa_block in
  let s := split_as_string split_mask taxa_block
             (String absent EmptyString) (String present EmptyString) in
  let r := split_as_string_rev split_mask taxa_block
             (String absent EmptyString) (String present EmptyString) in
  String.length s = n /\
  (forall i : nat, (i < n)%nat ->
     String.get i s =
       Some (if Z.testbit split_mask (Z.of_nat (n - 1 - i)) then present else absent)) /\
  r = string_rev s /\
  (forall i : nat, (i < n)%nat ->
     String.get i r = Some (if Z.testbit split_mask (Z.of_nat i) then present else absent)).
Proof.
  intros Hm Habs n s r.
  pose proof (chars_split_as_string_rev split_mask taxa_block absent present Hm Habs) as Hr.
  fold r n in Hr.
  assert (chars s = rev (chars r)) as Hs.
  { unfold r, split_as_string_rev. fold s.
    now rewrite chars_string_rev, rev_involutive. }
  assert (length (chars r) = n) as Hlen.
  { rewrite Hr, length_map. apply mask_bits_length. }
  split; [|split; [|split]].
  - now rewrite chars_length, Hs, length_rev.
  - intros i Hi. rewrite chars_get, Hs, rev_alt.
    change (rev_append (chars r) []) with (reverse (chars r)).
    rewrite reverse_lookup by lia.
    rewrite Hlen, Hr, lookup_map, mask_bits_lookup by lia.
    cbn [option_map]. unfold symbol_of.
    replace (n - S i)%nat with (n - 1 - i)%nat by lia. reflexivity.
  - reflexivity.
  - intros i Hi. rewrite chars_get, Hr, lookup_map, mask_bits_lookup by lia.
    reflexivity.
Qed.

Lemma split_as_string_spec_witness :
  (0 <= 5 < 2 ^ Z.of_nat (length ["A"; "B"; "C"; "D"]%string) /\ "."%char <> "1"%char) /\
  split_as_string 5 ["A"; "B"; "C"; "D"]%string "." "*" = ".*.*"%string /\
  String.length (split_as_string 5 ["A"; "B"; "C"; "D"]%string "." "*") = 4%nat.
Proof.
  split; [split; [cbn; lia|discriminate]|]. split; [reflexivity|].
  apply (split_as_string_spec 5 ["A"; "B"; "C"; "D"]%string "." "*");
    [cbn; lia|discriminate].
Defined.

(** C8 as stated fails: a mask with a bit beyond the taxon count gives a
    longer string, and an absent symbol that is the character 1 is itself
    replaced by the present symbol. *)
Lemma split_as_string_counterexample :
  split_as_string 16 ["A"; "B"; "C"; "D"]%string "." "*" = "*...."%string /\
  String.length (split_as_string 16 ["A"; "B"; "C"; "D"]%string "." "*")
    <> length ["A"; "B"; "C"; "D"]%string /\
  Z.testbit 1 1 = false /\
  String.get 0 (split_as_string 1 ["A"; "B"]%string "1" "*") = Some "*"%char.
Proof.
  split; [reflexivity|]. split; [|split; reflexivity].
  intros H. vm_compute in H. discriminate H.
Qed.

(** ** The round trip between a split, its rendering and its bit list *)

Lemma set_bits_zero (n : nat) (i : Z) : set_bits n 0 i = [].
Proof. revert i. induction n as [|n IH]; intros i; [reflexivity|]. cbn. apply IH. Qed.

Lemma symbol_positions_bits (absent present : ascii) (n : nat) :
  absent <> present ->
  forall (s : string) (mask i : Z),
    chars s = map (symbol_of absent present) (mask_bits n mask) ->
    symbol_positions present s i = set_bits n mask i.
Proof.
  intros Hne. induction n as [|n IH]; intros [|c s] mask i Hs; try discriminate Hs.
  - reflexivity.
  - cbn in Hs. injection Hs as Hc Hs.
    cbn [symbol_positions set_bits]. rewrite (IH s (Z.div2 mask) (i + 1) Hs).
    f_equal. subst c. destruct (Z.odd mask); cbn [symbol_of].
    + now rewrite Ascii.eqb_refl.
    + destruct (Ascii.eqb_spec absent present); [contradiction|reflexivity].
Qed.

Lemma mask_of_bits_app (l1 l2 : list Z) :
  mask_of_bits (l1 ++ l2) = mask_of_bits l1 + mask_of_bits l2.
Proof.
  unfold mask_of_bits. induction l1 as [|x l1 IH]; cbn [fold_right app]; lia.
Qed.

Lemma mask_of_bits_set_bits (n : nat) :
  forall mask i : Z,
    0 <= i -> 0 <= mask < 2 ^ Z.of_nat n ->
    mask_of_bits (set_bits n mask i) = mask * 2 ^ i.
Proof.
  induction n as [|n IH]; intros mask i Hi [H0 Hlt].
  - change (2 ^ Z.of_nat 0) with 1 in Hlt. assert (mask = 0) as -> by lia. reflexivity.
  - rewrite Nat2Z.inj_succ, Z.pow_succ_r in Hlt by lia.
    cbn [set_bits]. rewrite mask_of_bits_app.
    pose proof (Z.div2_odd mask) as Hdiv.
    rewrite IH;
      [|lia|rewrite Z.div2_div; split;
            [apply Z.div_pos|apply Z.div_lt_upper_bound]; lia].
    rewrite Z.pow_add_r, Z.pow_1_r by lia.
    destruct (Z.odd mask); cbn [Z.b2z] in Hdiv; unfold mask_of_bits; cbn [fold_right].
    + rewrite Z.shiftl_1_l. lia.
    + lia.
Qed.

Lemma land_pow2_testbit (M k : Z) :
  0 <= k -> Z.land M (2 ^ k) = if Z.testbit M k then 2 ^ k else 0.
Proof.
  intros Hk. apply Z.bits_inj'. intros j Hj.
  rewrite Z.land_spec, Z.pow2_bits_eqb by lia.
  destruct (Z.eqb_spec k j) as [->|Hkj].
  - rewrite andb_true_r. destruct (Z.testbit M j) eqn:E.
    + now rewrite Z.pow2_bits_true by lia.
    + now rewrite Z.bits_0.
  - rewrite andb_false_r. destruct (Z.testbit M k).
    + now rewrite Z.pow2_bits_false by lia.
    + now rewrite Z.bits_0.
Qed.

Lemma land_pow2_eqb (M k : Z) :
  0 <= k -> (Z.land M (2 ^ k) =? 0) = negb (Z.odd (Z.shiftr M k)).
Proof.
  intros Hk. rewrite land_pow2_testbit, <- Z.testbit_odd by lia.
  assert (0 < 2 ^ k) by (apply Z.pow_pos_nonneg; lia).
  destruct (Z.testbit M k); cbn [negb]; [apply Z.eqb_neq; lia|reflexivity].
Qed.

(** The loop of [iter_split_indices], entered at [test_bit = 2^k] with the
    unrestricted mask [-1], yields the set bits from [k] on. *)
Lemma iter_split_indices_loop_correct (n : nat) :
  forall (fuel : nat) (k M : Z),
    0 <= k -> 0 <= M -> Z.shiftr M k < 2 ^ Z.of_nat n -> (n <= fuel)%nat ->
    iter_split_indices_loop fuel M (-1) true (2 ^ k) k =
      Some (set_bits n (Z.shiftr M k) k).
Proof.
  induction n as [|n IH]; intros fuel k M Hk HM Hlt Hfuel.
  - change (2 ^ Z.of_nat 0) with 1 in Hlt.
    assert (0 <= Z.shiftr M k) by (apply Z.shiftr_nonneg; lia).
    assert (Z.shiftr M k = 0) as Hz by lia.
    rewrite Z.shiftr_div_pow2 in Hz by lia.
    assert (0 < 2 ^ k) by (apply Z.pow_pos_nonneg; lia).
    apply Z.div_small_iff in Hz; [|lia].
    destruct fuel; cbn [iter_split_indices_loop set_bits];
      destruct (Z.leb_spec (2 ^ k) M); try lia; reflexivity.
  - assert (0 < 2 ^ k) by (apply Z.pow_pos_nonneg; lia).
    destruct (Z.leb_spec (2 ^ k) M) as [Hle|Hgt].
    + destruct fuel as [|fuel]; [lia|].
      cbn [iter_split_indices_loop]. destruct (Z.leb_spec (2 ^ k) M); [|lia].
      cbn [orb]. rewrite Z.shiftl_mul_pow2, Z.pow_1_r by lia.
      replace (2 ^ k * 2) with (2 ^ (k + 1)) by (rewrite Z.pow_add_r; lia).
      rewrite Nat2Z.inj_succ, Z.pow_succ_r in Hlt by lia.
      assert (Z.shiftr M (k + 1) = Z.div2 (Z.shiftr M k)) as Hsh.
      { rewrite Z.div2_spec, Z.shiftr_shiftr by lia. reflexivity. }
      rewrite IH; try lia.
      * cbn [option_map set_bits]. rewrite land_pow2_eqb, Hsh by lia.
        destruct (Z.odd (Z.shiftr M k)); reflexivity.
      * rewrite Hsh, Z.div2_div. apply Z.div_lt_upper_bound; lia.
    + assert (Z.shiftr M k = 0) as ->.
      { rewrite Z.shiftr_div_pow2 by lia. apply Z.div_small. lia. }
      rewrite set_bits_zero.
      destruct fuel; cbn [iter_split_indices_loop];
        destruct (Z.leb_spec (2 ^ k) M); try lia; reflexivity.
Qed.

(** C9, as amended: for a mask whose set bits lie below the taxon count,
    and one-character symbols of which the absent one is neither the
    character 1 nor the present one, the positions of the present symbol in
    the rendering of [split_as_string], counted from the end where the first
    taxon stands, are exactly the bit list [split_to_list] gives for the
    mask, and the mask with those bits is the original mask. *)
Theorem split_as_string_roundtrip {T : Type} (split_mask : Z) (taxa_block : list T)
    (absent present : ascii) (fuel : nat) :
  0 <= split_mask < 2 ^ Z.of_nat (length taxa_block) ->
  absent <> "1"%char ->
  absent <> present ->
  (length taxa_block <= fuel)%nat ->
  let bits :=
    bits_of_rendering present
      (split_as_string split_mask taxa_block
         (String absent EmptyString) (String present EmptyString)) in
  mask_of_bits bits = split_mask /\
  split_to_list fuel split_mask (-1) false false = Some bits.
Proof.
  intros Hm Habs Hne Hfuel bits.
  assert (bits = set_bits (length taxa_block) split_mask 0) as ->.
  { unfold bits, bits_of_rendering.
    apply (symbol_positions_bits absent present); [exact Hne|].
    exact (chars_split_as_string_rev split_mask taxa_block absent present Hm Habs). }
  split.
  - rewrite mask_of_bits_set_bits by (try exact Hm; lia). change (2 ^ 0) with 1. lia.
  - unfold split_to_list, iter_split_indices. rewrite Z.land_m1_r. cbn [negb].
    pose proof (iter_split_indices_loop_correct (length taxa_block) fuel 0 split_mask) as Hloop.
    rewrite Z.shiftr_0_r in Hloop. change (2 ^ 0) with 1 in Hloop.
    apply Hloop; lia.
Qed.

Lemma split_as_string_roundtrip_witness :
  (0 <= 5 < 2 ^ Z.of_nat (length ["A"; "B"; "C"; "D"]%string) /\
   "-"%char <> "1"%char /\ "-"%char <> "x"%char /\
   (length ["A"; "B"; "C"; "D"]%string <= 4)%nat) /\
  bits_of_rendering "x" (split_as_string 5 ["A"; "B"; "C"; "D"]%string "-" "x") = [0; 2] /\
  mask_of_bits (bits_of_rendering "x"
                  (split_as_string 5 ["A"; "B"; "C"; "D"]%string "-" "x")) = 5 /\
  split_to_list 4 5 (-1) false false = Some [0; 2].
Proof.
  split; [split; [cbn; lia|split; [discriminate|split; [discriminate|cbn; lia]]]|].
  split; [reflexivity|].
  apply (split_as_string_roundtrip 5 ["A"; "B"; "C"; "D"]%string "-" "x" 4);
    [cbn; lia|discriminate|discriminate|cbn; lia].
Defined.

(** C9 as stated fails for some symbols.  With the character 1 as the absent
    symbol the second replacement turns the absent positions into present
    ones, and the mask 1 over two taxa comes back as 3; with the same symbol
    for both, the mask 5 over four taxa comes back as 15. *)
Lemma split_as_string_roundtrip_counterexample :
  0 <= 1 < 2 ^ Z.of_nat (length ["A"; "B"]%string) /\
  split_as_string 1 ["A"; "B"]%string "1" "*" = "**"%string /\
  mask_of_bits (bits_of_rendering "*" (split_as_string 1 ["A"; "B"]%string "1" "*")) = 3 /\
  3 <> 1 /\
  0 <= 5 < 2 ^ Z.of_nat (length ["A"; "B"; "C"; "D"]%string) /\
  split_as_string 5 ["A"; "B"; "C"; "D"]%string "*" "*" = "****"%string /\
  mask_of_bits (bits_of_rendering "*"
                  (split_as_string 5 ["A"; "B"; "C"; "D"]%string "*" "*")) = 15 /\
  15 <> 5.
Proof.
  split; [cbn; lia|]. split; [reflexivity|]. split; [reflexivity|]. split; [lia|].
  split; [cbn; lia|]. split; [reflexivity|]. split; [reflexivity|]. lia.
Qed.

End BitUtilFacts.
Module EncoderFacts.
Import Encoder EncoderSpec DistributionSpec Examples.

(** Closed, decidable goals are settled by evaluation. *)
Ltac by_evaluation := apply (bool_decide_unpack _); vm_compute; exact I.

(** ** Facts about dictionaries and their iteration *)

Section DictOrderFacts.
Context `{order : DictOrder}.

Lemma elem_of_dict_items {V : Type} (d : gmap Z V) (key : Z) (v : V) :
  (key, v) ∈ dict_items d <-> d !! key = Some v.
Proof. rewrite dict_items_perm. apply elem_of_map_to_list. Qed.

Lemma elem_of_dict_keys {V : Type} (d : gmap Z V) (key : Z) :
  key ∈ dict_keys d <-> is_Some (d !! key).
Proof.
  unfold dict_keys. rewrite list_elem_of_fmap. split.
  - intros [[k v] [-> Hin]]. apply elem_of_dict_items in Hin. eauto.
  - intros [v Hv]. exists (key, v). split; [reflexivity|].
    now apply elem_of_dict_items.
Qed.

Lemma NoDup_dict_keys {V : Type} (d : gmap Z V) : NoDup (dict_keys d).
Proof.
  unfold dict_keys. rewrite dict_items_perm. apply NoDup_fst_map_to_list.
Qed.

Lemma split_edges_keys_NoDup (d : SplitEdges) : NoDup (split_edges_keys d).
Proof. destruct d; apply NoDup_dict_keys. Qed.
End DictOrderFacts.

(** The keys of a dictionary filled by normalizing insertions. *)
Lemma fold_normalize_dom (mask : Z) (items : list (Z * EdgeRef)) :
  forall (acc : gmap Z EdgeRef) (key : Z),
    is_Some (fold_left (fun d '(k, val) => <[normalize k mask := val]> d) items acc !! key)
    <-> is_Some (acc !! key) \/ exists k val, (k, val) ∈ items /\ key = normalize k mask.
Proof.
  induction items as [|[k val] items IH]; intros acc key; cbn [fold_left].
  - split; [auto|]. intros [H|(k & val & Hin & _)]; [exact H|].
    apply elem_of_nil in Hin. contradiction.
  - rewrite IH. split.
    + intros [Hacc|(k' & val' & Hin & ->)].
      * destruct (decide (normalize k mask = key)) as [<-|Hne].
        -- right. exists k, val. split; [left|reflexivity].
        -- left. now rewrite lookup_insert_ne in Hacc.
      * right. exists k', val'. split; [now right|reflexivity].
    + intros [Hacc|(k' & val' & Hin & ->)].
      * left. destruct (decide (normalize k mask = key)) as [<-|Hne].
        -- rewrite lookup_insert_eq. eauto.
        -- now rewrite lookup_insert_ne.
      * apply elem_of_cons in Hin as [Heq|Hin].
        -- injection Heq as -> ->. left. rewrite lookup_insert_eq. eauto.
        -- right. eauto.
Qed.

Lemma new_NormalizedBitmaskDict_dom `{DictOrder} (other : gmap Z EdgeRef)
    (mask key : Z) :
  key ∈ dom (new_NormalizedBitmaskDict other mask)
  <-> exists m, m ∈ dom other /\ key = normalize m mask.
Proof.
  rewrite elem_of_dom. unfold new_NormalizedBitmaskDict.
  rewrite fold_normalize_dom. split.
  - intros [[v Hv]|(k & val & Hin & ->)]; [now rewrite lookup_empty in Hv|].
    exists k. split; [|reflexivity].
    apply elem_of_dom. apply elem_of_dict_items in Hin. eauto.
  - intros (m & Hm & ->). right. apply elem_of_dom in Hm as [val Hval].
    exists m, val. split; [|reflexivity]. now apply elem_of_dict_items.
Qed.

(** C5: [encode_splits] stores the raw map, keyed by the raw split masks, as
    a plain dictionary exactly when [unrooted] is [False], or is [None] and
    the tree is rooted; in every other case it stores a
    [NormalizedBitmaskDict] built with the full mask of the universe, whose
    keys are the canonical keys of the raw masks. *)
Theorem encode_splits_rootedness `{DictOrder} (tree tree' : Tree)
    (taxa_block : option (list string)) (unrooted : option bool) :
  encode_splits tree taxa_block unrooted = Ok tree' ->
  let universe := match taxa_block with
                  | Some taxa_block => taxa_block
                  | None => infer_taxa_block tree
                  end in
  exists attrs split_map,
    encode_loop universe (postorder_edge_iter tree) (split_mask tree) ∅
      = Ok (attrs, split_map) /\
    ((exists d, split_edges tree' = Some (PlainDict d)) <-> stored_plain tree unrooted) /\
    (stored_plain tree unrooted -> split_edges tree' = Some (PlainDict split_map)) /\
    (~ stored_plain tree unrooted ->
       exists d,
         split_edges tree' = Some (NormalizedBitmaskDict (all_taxa_bitmask universe) d) /\
         d = new_NormalizedBitmaskDict split_map (all_taxa_bitmask universe) /\
         forall key, key ∈ dom d <->
                     exists m, m ∈ dom split_map /\
                               key = normalize m (all_taxa_bitmask universe)).
Proof.
  intros Henc universe. unfold encode_splits in Henc. fold universe in Henc.
  destruct (encode_loop universe (postorder_edge_iter tree) (split_mask tree) ∅)
    as [[attrs split_map]|e] eqn:Hloop; [|discriminate Henc].
  exists attrs, split_map. split; [reflexivity|].
  cbn [bind] in Henc. unfold stored_plain.
  destruct unrooted as [[|]|]; [| |destruct (is_rooted tree) eqn:Hrooted];
    cbn [negb orb] in Henc; injection Henc as <-; cbn [split_edges].
  - split; [|split].
    + split; [intros [d Hd]; discriminate Hd|intros [Hu|[Hu _]]; discriminate Hu].
    + intros [Hu|[Hu _]]; discriminate Hu.
    + intros _. eexists. split; [reflexivity|]. split; [reflexivity|].
      intros key. apply new_NormalizedBitmaskDict_dom.
  - split; [|split].
    + split; [intros _; now left|intros _; eauto].
    + reflexivity.
    + intros Hn. exfalso. apply Hn. now left.
  - split; [|split].
    + split; [intros _; now right|intros _; eauto].
    + reflexivity.
    + intros Hn. exfalso. apply Hn. now right.
  - split; [|split].
    + split; [intros [d Hd]; discriminate Hd|intros [Hu|[_ Hu]]; discriminate Hu].
    + intros [Hu|[_ Hu]]; discriminate Hu.
    + intros _. eexists. split; [reflexivity|]. split; [reflexivity|].
      intros key. apply new_NormalizedBitmaskDict_dom.
Qed.

Lemma encode_splits_rootedness_witness :
  @encode_splits map_order tree1 (Some universe) (Some true) = Ok tree1_encoded /\
  ~ stored_plain tree1 (Some true) /\
  exists d,
    split_edges tree1_encoded =
      Some (NormalizedBitmaskDict (all_taxa_bitmask universe) d) /\
    forall key, key ∈ dom d ->
                exists m, key = normalize m (all_taxa_bitmask universe).
Proof.
  split; [reflexivity|].
  assert (~ stored_plain tree1 (Some true)) as Hnot.
  { intros [Hu|[Hu _]]; discriminate Hu. }
  split; [exact Hnot|].
  destruct (@encode_splits_rootedness map_order tree1 tree1_encoded
              (Some universe) (Some true) eq_refl)
    as (attrs & split_map & _ & _ & _ & Hnorm).
  destruct (Hnorm Hnot) as (d & Hd & _ & Hkeys).
  exists d. split; [exact Hd|]. intros key Hkey.
  apply Hkeys in Hkey as (m & _ & ->). now exists m.
Defined.

(** ** The masks [encode_splits] attaches *)

Lemma taxon_index_Some (taxa_block : list string) (t : string) :
  t ∈ taxa_block -> is_Some (taxon_index taxa_block t).
Proof.
  induction taxa_block as [|t' rest IH]; intros Hin.
  - apply elem_of_nil in Hin. contradiction.
  - cbn [taxon_index]. destruct (String.eqb_spec t' t) as [->|Hne]; [eauto|].
    apply elem_of_cons in Hin as [->|Hin]; [contradiction|].
    destruct (IH Hin) as [i ->]. cbn. eauto.
Qed.

Lemma taxon_bitmask_known (taxa_block : list string) (t : string) :
  t ∈ taxa_block -> exists m, taxon_bitmask taxa_block t = Ok m.
Proof.
  intros Hin. unfold taxon_bitmask.
  destruct (taxon_index_Some taxa_block t Hin) as [i ->]. eauto.
Qed.

Lemma Forall2_lookup_insert_ne (attrs : gmap nat Z) (edge : nat) (v : Z)
    (children : list nat) (masks : list Z) :
  (forall child, child ∈ children -> child <> edge) ->
  Forall2 (fun child m => <[edge := v]> attrs !! child = Some m) children masks <->
  Forall2 (fun child m => attrs !! child = Some m) children masks.
Proof.
  intros Hne. split; intros HF.
  - induction HF as [|c m cs ms Hc HF IH]; constructor.
    + rewrite lookup_insert_ne in Hc; [exact Hc|].
      apply not_eq_sym, Hne. left.
    + apply IH. intros c' Hc'. apply Hne. now right.
  - induction HF as [|c m cs ms Hc HF IH]; constructor.
    + rewrite lookup_insert_ne; [exact Hc|].
      apply not_eq_sym, Hne. left.
    + apply IH. intros c' Hc'. apply Hne. now right.
Qed.

(** The inner loop: with the masks of all the children set, it leaves the
    OR of these masks and of the mask it started from on the edge. *)
Lemma or_children_masks (edge : nat) (children : list nat) :
  forall (attrs : gmap nat Z) (a : Z),
    attrs !! edge = Some a ->
    (forall child, child ∈ children -> child <> edge /\ is_Some (attrs !! child)) ->
    exists masks,
      Forall2 (fun child m => attrs !! child = Some m) children masks /\
      or_children attrs edge children = Ok (<[edge := fold_left Z.lor masks a]> attrs).
Proof.
  induction children as [|child rest IH]; intros attrs a Ha Hch.
  - exists []. split; [constructor|]. cbn. now rewrite insert_id.
  - destruct (Hch child) as [Hne [b Hb]]; [left|].
    destruct (IH (<[edge := Z.lor a b]> attrs) (Z.lor a b)) as (masks & Hmasks & Hrun).
    + apply lookup_insert_eq.
    + intros c Hc. destruct (Hch c) as [Hcne Hsome]; [now right|].
      split; [exact Hcne|]. now rewrite lookup_insert_ne by (apply not_eq_sym, Hcne).
    + exists (b :: masks). split.
      * constructor; [exact Hb|].
        apply Forall2_lookup_insert_ne in Hmasks; [exact Hmasks|].
        intros c Hc. apply Hch. now right.
      * cbn [or_children fold_left]. unfold getattr_split_mask.
        rewrite Ha, Hb. cbn [bind]. rewrite Hrun, insert_insert_eq. reflexivity.
Qed.

(** Setting the mask of another edge, which is no child of the head node,
    does not disturb an edge. *)
Lemma mask_of_edge_insert (taxa_block : list string) (attrs : gmap nat Z)
    (edge : EdgeRef) (other : nat) (m : Z) :
  mask_of_edge taxa_block attrs edge ->
  other <> edge.1 ->
  (forall node, head_node edge.2 = Some node -> other ∉ child_nodes node) ->
  mask_of_edge taxa_block (<[other := m]> attrs) edge.
Proof.
  intros (node & Hhead & Hmask) Hne Hch. exists node. split; [exact Hhead|].
  specialize (Hch node Hhead).
  destruct (child_nodes node) as [|c cs] eqn:Hcs.
  - destruct (taxon node) as [t|].
    + destruct Hmask as (m' & Hbit & Hm'). exists m'. split; [exact Hbit|].
      now rewrite lookup_insert_ne.
    + now rewrite lookup_insert_ne.
  - destruct Hmask as (masks & HF & Hm'). exists masks. split.
    + apply Forall2_lookup_insert_ne; [|exact HF].
      intros child Hin ->. contradiction.
    + now rewrite lookup_insert_ne.
Qed.

(** One round of the loop over the edges, on an edge that is new and whose
    children have been visited: it sets the mask of this edge, and only
    this one, to what [mask_of_edge] asks for; it raises only on an edge
    without head node or on a leaf whose taxon is not in the universe. *)
Lemma set_split_mask_inv (taxa_block : list string) (attrs : gmap nat Z)
    (edge : EdgeRef) (seen : list nat) :
  edge.1 ∉ seen ->
  (forall node, head_node edge.2 = Some node ->
                forall child, child ∈ child_nodes node -> child ∈ seen) ->
  (forall child, child ∈ seen -> is_Some (attrs !! child)) ->
  match set_split_mask taxa_block attrs edge with
  | Ok attrs' =>
      exists m, attrs' = <[edge.1 := m]> attrs /\ mask_of_edge taxa_block attrs' edge
  | Raise _ =>
      head_node edge.2 = None \/
      exists node t, head_node edge.2 = Some node /\ child_nodes node = [] /\
                     taxon node = Some t /\ t ∉ taxa_block
  end.
Proof.
  intros Hnew Hch Hseen. unfold set_split_mask.
  destruct (head_node edge.2) as [node|] eqn:Hhead; [|now left].
  specialize (Hch node eq_refl).
  destruct (child_nodes node) as [|c cs] eqn:Hcs.
  - destruct (taxon node) as [t|] eqn:Ht.
    + destruct (taxon_bitmask taxa_block t) as [m|e] eqn:Hbit; cbn [bind].
      * exists m. split; [reflexivity|]. exists node. split; [exact Hhead|].
        rewrite Hcs, Ht. exists m. split; [exact Hbit|apply lookup_insert_eq].
      * right. exists node, t. repeat split; try assumption.
        intros Hin. destruct (taxon_bitmask_known _ _ Hin) as [m Hm]. congruence.
    + exists 0. split; [reflexivity|]. exists node. split; [exact Hhead|].
      rewrite Hcs, Ht. apply lookup_insert_eq.
  - rewrite <- Hcs in *.
    assert (forall child, child ∈ child_nodes node -> child <> edge.1) as Hne.
    { intros child Hin ->. apply Hnew, Hch, Hin. }
    destruct (or_children_masks edge.1 (child_nodes node) (<[edge.1 := 0]> attrs) 0)
      as (masks & HF & Hrun).
    + apply lookup_insert_eq.
    + intros child Hin. split; [now apply Hne|].
      rewrite lookup_insert_ne by (apply not_eq_sym, Hne, Hin).
      apply Hseen, Hch, Hin.
    + rewrite Hrun, insert_insert_eq.
      exists (fold_left Z.lor masks 0). split; [reflexivity|].
      exists node. split; [exact Hhead|].
      destruct (child_nodes node) as [|c' cs'] eqn:Hcs'; [discriminate Hcs|].
      exists masks. split; [|apply lookup_insert_eq].
      apply Forall2_lookup_insert_ne; [exact Hne|].
      apply Forall2_lookup_insert_ne in HF; [exact HF|exact Hne].
Qed.

(** The loop over the edges keeps the masks of the edges it has visited as
    [mask_of_edge] asks for. *)
Lemma encode_loop_masks (taxa_block : list string) (rest : list EdgeRef) :
  forall (seen : list nat) (done : list EdgeRef) (attrs attrs' : gmap nat Z)
         (split_map split_map' : gmap Z EdgeRef),
    postorder_from seen rest ->
    (forall child, child ∈ seen -> is_Some (attrs !! child)) ->
    (forall edge, edge ∈ done ->
       edge.1 ∈ seen /\
       (forall node, head_node edge.2 = Some node ->
                     forall child, child ∈ child_nodes node -> child ∈ seen) /\
       mask_of_edge taxa_block attrs edge) ->
    encode_loop taxa_block rest attrs split_map = Ok (attrs', split_map') ->
    forall edge, edge ∈ done ++ rest -> mask_of_edge taxa_block attrs' edge.
Proof.
  induction rest as [|edge0 rest IH];
    intros seen done attrs attrs' split_map split_map' Hpost Hseen Hdone Hrun edge Hin.
  - cbn in Hrun. injection Hrun as <- <-. rewrite app_nil_r in Hin.
    now apply Hdone.
  - destruct Hpost as (Hnew & Hch & Hpost). cbn [encode_loop] in Hrun.
    pose proof (set_split_mask_inv taxa_block attrs edge0 seen Hnew Hch Hseen) as Hstep.
    destruct (set_split_mask taxa_block attrs edge0) as [attrs1|e]; [|discriminate Hrun].
    destruct Hstep as (m & -> & Hmask). cbn [bind] in Hrun.
    unfold getattr_split_mask in Hrun. rewrite lookup_insert_eq in Hrun. cbn [bind] in Hrun.
    apply (IH (edge0.1 :: seen) (done ++ [edge0]) _ _ _ _ Hpost) with (edge := edge) in Hrun.
    + exact Hrun.
    + intros child Hc. apply elem_of_cons in Hc as [->|Hc].
      * rewrite lookup_insert_eq. eauto.
      * destruct (decide (edge0.1 = child)) as [->|Hne].
        -- rewrite lookup_insert_eq. eauto.
        -- rewrite lookup_insert_ne by exact Hne. now apply Hseen.
    + intros edge1 Hin1. apply elem_of_app in Hin1 as [Hin1|Hin1].
      * destruct (Hdone edge1 Hin1) as (Hid & Hch1 & Hmask1). split; [now right|].
        split; [intros node Hnode child Hc; right; eapply Hch1; eauto|].
        apply mask_of_edge_insert; [exact Hmask1| |].
        -- intros Heq. apply Hnew. now rewrite Heq.
        -- intros node Hnode Hc. apply Hnew. eapply Hch1; eauto.
      * apply list_elem_of_singleton in Hin1 as ->. split; [left|].
        split; [intros node Hnode child Hc; right; eapply Hch; eauto|exact Hmask].
    + now rewrite <- app_assoc.
Qed.

(** The loop raises nothing on edges with head nodes whose taxa are in the
    universe. *)
Lemma encode_loop_total (taxa_block : list string) (rest : list EdgeRef) :
  forall (seen : list nat) (attrs : gmap nat Z) (split_map : gmap Z EdgeRef),
    postorder_from seen rest ->
    (forall child, child ∈ seen -> is_Some (attrs !! child)) ->
    (forall edge, edge ∈ rest -> is_Some (head_node edge.2)) ->
    (forall edge node t, edge ∈ rest -> head_node edge.2 = Some node ->
                         taxon node = Some t -> t ∈ taxa_block) ->
    exists r, encode_loop taxa_block rest attrs split_map = Ok r.
Proof.
  induction rest as [|edge0 rest IH]; intros seen attrs split_map Hpost Hseen Hhead Htaxa.
  - eexists. reflexivity.
  - destruct Hpost as (Hnew & Hch & Hpost). cbn [encode_loop].
    pose proof (set_split_mask_inv taxa_block attrs edge0 seen Hnew Hch Hseen) as Hstep.
    destruct (set_split_mask taxa_block attrs edge0) as [attrs1|e].
    + destruct Hstep as (m & -> & Hmask). cbn [bind].
      unfold getattr_split_mask. rewrite lookup_insert_eq. cbn [bind].
      apply (IH (edge0.1 :: seen)); [exact Hpost| | |].
      * intros child Hc. destruct (decide (edge0.1 = child)) as [->|Hne].
        -- rewrite lookup_insert_eq. eauto.
        -- rewrite lookup_insert_ne by exact Hne.
           apply elem_of_cons in Hc as [->|Hc]; [contradiction|now apply Hseen].
      * intros edge Hin. apply Hhead. now right.
      * intros edge node t Hin. apply Htaxa. now right.
    + exfalso. destruct Hstep as [Hnone|(node & t & Hnode & _ & Ht & Hout)].
      * destruct (Hhead edge0) as [node Hnode]; [left|]. congruence.
      * apply Hout. eapply Htaxa; [left|exact Hnode|exact Ht].
Qed.

Lemma elem_of_tree_taxa (tree : Tree) (t : string) :
  t ∈ tree_taxa tree <->
  exists edge node, edge ∈ postorder_edge_iter tree /\
                    head_node edge.2 = Some node /\ taxon node = Some t.
Proof.
  unfold tree_taxa. rewrite list_elem_of_omap. split.
  - intros ([id edge] & Hin & Ht). cbn in Ht.
    destruct (head_node edge) as [node|] eqn:Hnode; [|discriminate Ht].
    exists (id, edge), node. auto.
  - intros ([id edge] & node & Hin & Hnode & Ht). exists (id, edge).
    split; [exact Hin|]. cbn in *. now rewrite Hnode.
Qed.

(** On a tree in postorder, whose edges all have head nodes and whose taxa
    are all in the universe, [encode_splits] returns. *)
Lemma encode_splits_returns `{DictOrder} (tree : Tree)
    (taxa_block : option (list string)) (unrooted : option bool) :
  postorder (postorder_edge_iter tree) ->
  (forall edge, edge ∈ postorder_edge_iter tree -> is_Some (head_node edge.2)) ->
  (forall t, t ∈ tree_taxa tree ->
             t ∈ match taxa_block with
                 | Some taxa_block => taxa_block
                 | None => infer_taxa_block tree
                 end) ->
  exists tree', encode_splits tree taxa_block unrooted = Ok tree'.
Proof.
  intros Hpost Hhead Htaxa. unfold encode_splits.
  set (universe := match taxa_block with
                   | Some taxa_block => taxa_block
                   | None => infer_taxa_block tree
                   end) in *.
  destruct (encode_loop_total universe (postorder_edge_iter tree) []
              (split_mask tree) ∅ Hpost) as [[attrs split_map] ->].
  - intros child Hc. apply elem_of_nil in Hc. contradiction.
  - exact Hhead.
  - intros edge node t Hin Hnode Ht. apply Htaxa, elem_of_tree_taxa. eauto.
  - cbn [bind]. destruct (_ || _); eauto.
Qed.

(** C4: on a tree whose edges come in postorder, a call of [encode_splits]
    that returns leaves on every edge whose head node has children the OR of
    the masks of the edges of these children, and on every edge whose head
    node is a leaf the bit of the taxon of the leaf, or zero when the leaf has
    no taxon; and the call does return when every edge has a head node and
    every taxon of the tree is in the universe, leaves without taxon
    included. *)
Theorem encode_splits_masks `{DictOrder} (tree : Tree)
    (taxa_block : option (list string)) (unrooted : option bool) :
  postorder (postorder_edge_iter tree) ->
  let universe := match taxa_block with
                  | Some taxa_block => taxa_block
                  | None => infer_taxa_block tree
                  end in
  (forall tree',
      encode_splits tree taxa_block unrooted = Ok tree' ->
      postorder_edge_iter tree' = postorder_edge_iter tree /\
      forall edge, edge ∈ postorder_edge_iter tree ->
                   mask_of_edge universe (split_mask tree') edge) /\
  ((forall edge, edge ∈ postorder_edge_iter tree -> is_Some (head_node edge.2)) ->
   (forall t, t ∈ tree_taxa tree -> t ∈ universe) ->
   exists tree', encode_splits tree taxa_block unrooted = Ok tree').
Proof.
  intros Hpost universe. split.
  - intros tree' Henc. unfold encode_splits in Henc. fold universe in Henc.
    destruct (encode_loop universe (postorder_edge_iter tree) (split_mask tree) ∅)
      as [[attrs split_map]|e] eqn:Hloop; [|discriminate Henc].
    cbn [bind] in Henc.
    assert (postorder_edge_iter tree' = postorder_edge_iter tree /\
            split_mask tree' = attrs) as [Hedges ->].
    { destruct (_ || _) in Henc; injection Henc as <-; split; reflexivity. }
    split; [exact Hedges|]. intros edge Hin.
    apply (encode_loop_masks universe (postorder_edge_iter tree) [] []
             (split_mask tree) attrs ∅ split_map Hpost); try assumption.
    + intros child Hc. apply elem_of_nil in Hc. contradiction.
    + intros e Hc. apply elem_of_nil in Hc. contradiction.
  - intros Hhead Htaxa. now apply encode_splits_returns.
Qed.

(** ** The raw map from split masks to edges *)

(** The loop leaves the masks of the edges seen before alone, and the raw
    map it builds holds, besides what it held, exactly the masks of the
    edges of the loop, each with an edge that carries it. *)
Lemma encode_loop_split_map (taxa_block : list string) (rest : list EdgeRef) :
  forall (seen : list nat) (attrs attrs' : gmap nat Z)
         (split_map split_map' : gmap Z EdgeRef),
    postorder_from seen rest ->
    (forall child, child ∈ seen -> is_Some (attrs !! child)) ->
    encode_loop taxa_block rest attrs split_map = Ok (attrs', split_map') ->
    (forall child, child ∈ seen -> attrs' !! child = attrs !! child) /\
    (forall m, m ∈ dom split_map' <->
               m ∈ dom split_map \/
               exists edge, edge ∈ rest /\ attrs' !! edge.1 = Some m) /\
    (forall m edge, split_map' !! m = Some edge ->
                    split_map !! m = Some edge \/
                    (edge ∈ rest /\ attrs' !! edge.1 = Some m)).
Proof.
  induction rest as [|edge0 rest IH];
    intros seen attrs attrs' split_map split_map' Hpost Hseen Hrun.
  - cbn in Hrun. injection Hrun as <- <-. split; [auto|]. split; [|auto].
    intros m. split; [auto|]. intros [Hm|(edge & Hin & _)]; [exact Hm|].
    apply elem_of_nil in Hin. contradiction.
  - destruct Hpost as (Hnew & Hch & Hpost). cbn [encode_loop] in Hrun.
    pose proof (set_split_mask_inv taxa_block attrs edge0 seen Hnew Hch Hseen) as Hstep.
    destruct (set_split_mask taxa_block attrs edge0) as [attrs1|e]; [|discriminate Hrun].
    destruct Hstep as (m0 & -> & _). cbn [bind] in Hrun.
    unfold getattr_split_mask in Hrun. rewrite lookup_insert_eq in Hrun. cbn [bind] in Hrun.
    apply (IH (edge0.1 :: seen) _ _ _ _ Hpost) in Hrun as (Hkeep & Hdom & Hval).
    + assert (attrs' !! edge0.1 = Some m0) as Hm0.
      { rewrite Hkeep by left. apply lookup_insert_eq. }
      split; [|split].
      * intros child Hc. rewrite Hkeep by now right.
        apply lookup_insert_ne. intros Heq. apply Hnew. now rewrite Heq.
      * intros m. rewrite Hdom, dom_insert, elem_of_union, elem_of_singleton. split.
        -- intros [[->|Hm]|(edge & Hin & Hedge)].
           ++ right. exists edge0. split; [left|exact Hm0].
           ++ now left.
           ++ right. exists edge. split; [now right|exact Hedge].
        -- intros [Hm|(edge & Hin & Hedge)]; [left; now right|].
           apply elem_of_cons in Hin as [->|Hin].
           ++ left. left. congruence.
           ++ right. eauto.
      * intros m edge Hedge. destruct (Hval m edge Hedge) as [Hins|[Hin Hmask]].
        -- destruct (decide (m0 = m)) as [->|Hne].
           ++ rewrite lookup_insert_eq in Hins. injection Hins as <-.
              right. split; [left|exact Hm0].
           ++ rewrite lookup_insert_ne in Hins by exact Hne. now left.
        -- right. split; [now right|exact Hmask].
    + intros child Hc. destruct (decide (edge0.1 = child)) as [<-|Hne].
      * rewrite lookup_insert_eq. eauto.
      * rewrite lookup_insert_ne by exact Hne.
        apply elem_of_cons in Hc as [->|Hc]; [contradiction|now apply Hseen].
Qed.

(** For a tree in postorder and a rootedness that asks for a plain
    dictionary, [split_edges] holds exactly the masks of the edges, each
    with an edge of that mask. *)
Lemma encode_splits_raw_keys `{DictOrder} (tree tree' : Tree)
    (taxa_block : option (list string)) (unrooted : option bool) :
  postorder (postorder_edge_iter tree) ->
  stored_plain tree unrooted ->
  encode_splits tree taxa_block unrooted = Ok tree' ->
  exists d,
    split_edges tree' = Some (PlainDict d) /\
    (forall m, m ∈ dom d <->
               exists edge, edge ∈ postorder_edge_iter tree /\
                            split_mask tree' !! edge.1 = Some m) /\
    (forall m edge, d !! m = Some edge ->
                    edge ∈ postorder_edge_iter tree /\
                    split_mask tree' !! edge.1 = Some m).
Proof.
  intros Hpost Hplain Henc. unfold encode_splits in Henc.
  set (universe := match taxa_block with
                   | Some taxa_block => taxa_block
                   | None => infer_taxa_block tree
                   end) in *.
  destruct (encode_loop universe (postorder_edge_iter tree) (split_mask tree) ∅)
    as [[attrs split_map]|e] eqn:Hloop; [|discriminate Henc].
  cbn [bind] in Henc.
  apply (encode_loop_split_map universe _ [] _ _ _ _ Hpost) in Hloop
    as (_ & Hdom & Hval);
    [|intros child Hc; apply elem_of_nil in Hc; contradiction].
  assert (split_edges tree' = Some (PlainDict split_map) /\ split_mask tree' = attrs)
    as [Hse ->].
  { destruct Hplain as [->|[-> Hrooted]]; [|rewrite Hrooted in Henc];
      cbn in Henc; injection Henc as <-; split; reflexivity. }
  exists split_map. split; [exact Hse|]. split.
  - intros m. rewrite Hdom, dom_empty, elem_of_empty. tauto.
  - intros m edge Hedge. destruct (Hval m edge Hedge) as [Habs|Hok]; [|exact Hok].
    now rewrite lookup_empty in Habs.
Qed.

(** ** Every key of [split_edges] can be looked up *)

Lemma taxon_index_lt (taxa_block : list string) (t : string) (i : nat) :
  taxon_index taxa_block t = Some i -> (i < length taxa_block)%nat.
Proof.
  revert i. induction taxa_block as [|t' rest IH]; intros i Hi; [discriminate Hi|].
  cbn [taxon_index] in Hi. destruct (String.eqb t' t).
  - injection Hi as <-. cbn. lia.
  - destruct (taxon_index rest t) as [j|]; [|discriminate Hi].
    injection Hi as <-. specialize (IH j eq_refl). cbn. lia.
Qed.

Lemma taxon_bitmask_submask (taxa_block : list string) (t : string) (m : Z) :
  taxon_bitmask taxa_block t = Ok m -> submask m (all_taxa_bitmask taxa_block).
Proof.
  unfold taxon_bitmask, submask, all_taxa_bitmask.
  destruct (taxon_index taxa_block t) as [i|] eqn:Hi; [|discriminate].
  intros [= <-]. apply taxon_index_lt in Hi.
  rewrite Z.shiftl_1_l, Z.sub_1_r, <- Z.ones_equiv, Z.land_ones by lia.
  apply Z.mod_small. split; [apply Z.pow_nonneg; lia|].
  apply Z.pow_lt_mono_r; lia.
Qed.

Lemma fold_lor_submask (full : Z) (masks : list Z) :
  forall a : Z,
    Forall (fun m => submask m full) masks -> submask a full ->
    submask (fold_left Z.lor masks a) full.
Proof.
  induction masks as [|m masks IH]; intros a Hall Ha; [exact Ha|].
  apply Forall_cons in Hall as [Hm Hall]. cbn [fold_left]. apply IH; [exact Hall|].
  unfold submask in *. now rewrite Z.land_lor_distr_l, Ha, Hm.
Qed.

Lemma Forall2_lookup_Forall (attrs : gmap nat Z) (P : Z -> Prop)
    (children : list nat) (masks : list Z) :
  Forall2 (fun child m => attrs !! child = Some m) children masks ->
  (forall child mc, child ∈ children -> attrs !! child = Some mc -> P mc) ->
  Forall P masks.
Proof.
  induction 1 as [|child mc children masks Hc HF IH]; intros Hall; constructor.
  - eapply Hall; [left|exact Hc].
  - apply IH. intros child' mc' Hin. apply Hall. now right.
Qed.

Lemma mask_of_edge_submask (taxa_block : list string) (attrs : gmap nat Z)
    (edge : EdgeRef) (m : Z) :
  mask_of_edge taxa_block attrs edge ->
  (forall node child mc,
      head_node edge.2 = Some node -> child ∈ child_nodes node ->
      attrs !! child = Some mc -> submask mc (all_taxa_bitmask taxa_block)) ->
  attrs !! edge.1 = Some m ->
  submask m (all_taxa_bitmask taxa_block).
Proof.
  intros (node & Hhead & Hmask) Hch Hm.
  specialize (Hch node).
  destruct (child_nodes node) as [|c cs] eqn:Hcs.
  - destruct (taxon node) as [t|].
    + destruct Hmask as (m' & Hbit & Hm'). rewrite Hm in Hm'. injection Hm' as ->.
      eapply taxon_bitmask_submask, Hbit.
    + rewrite Hm in Hmask. injection Hmask as ->. reflexivity.
  - destruct Hmask as (masks & HF & Hm'). rewrite Hm in Hm'. injection Hm' as ->.
    apply fold_lor_submask; [|reflexivity].
    apply (Forall2_lookup_Forall attrs _ _ _ HF).
    intros child mc. apply Hch, Hhead.
Qed.

(** The raw split masks are submasks of the full mask of the universe. *)
Lemma encode_loop_submask (taxa_block : list string) (rest : list EdgeRef) :
  forall (seen : list nat) (attrs attrs' : gmap nat Z)
         (split_map split_map' : gmap Z EdgeRef),
    postorder_from seen rest ->
    (forall child, child ∈ seen ->
       exists m, attrs !! child = Some m /\ submask m (all_taxa_bitmask taxa_block)) ->
    (forall key, key ∈ dom split_map -> submask key (all_taxa_bitmask taxa_block)) ->
    encode_loop taxa_block rest attrs split_map = Ok (attrs', split_map') ->
    forall key, key ∈ dom split_map' -> submask key (all_taxa_bitmask taxa_block).
Proof.
  induction rest as [|edge0 rest IH];
    intros seen attrs attrs' split_map split_map' Hpost Hseen Hkeys Hrun.
  - cbn in Hrun. injection Hrun as <- <-. exact Hkeys.
  - destruct Hpost as (Hnew & Hch & Hpost). cbn [encode_loop] in Hrun.
    assert (forall child, child ∈ seen -> is_Some (attrs !! child)) as Hsome.
    { intros child Hc. destruct (Hseen child Hc) as (m & -> & _). eauto. }
    pose proof (set_split_mask_inv taxa_block attrs edge0 seen Hnew Hch Hsome) as Hstep.
    destruct (set_split_mask taxa_block attrs edge0) as [attrs1|e]; [|discriminate Hrun].
    destruct Hstep as (m & -> & Hmask). cbn [bind] in Hrun.
    unfold getattr_split_mask in Hrun. rewrite lookup_insert_eq in Hrun. cbn [bind] in Hrun.
    assert (submask m (all_taxa_bitmask taxa_block)) as Hm.
    { apply (mask_of_edge_submask _ _ _ _ Hmask); [|apply lookup_insert_eq].
      intros node child mc Hnode Hchild Hmc.
      assert (child ∈ seen) as Hc by (eapply Hch; eauto).
      rewrite lookup_insert_ne in Hmc by (intros Heq; apply Hnew; now rewrite Heq).
      destruct (Hseen child Hc) as (mc' & Hmc' & Hsub). congruence. }
    eapply (IH (edge0.1 :: seen)); [exact Hpost| | |exact Hrun].
    + intros child Hc. destruct (decide (edge0.1 = child)) as [<-|Hne].
      * exists m. split; [apply lookup_insert_eq|exact Hm].
      * rewrite lookup_insert_ne by exact Hne.
        apply elem_of_cons in Hc as [->|Hc]; [contradiction|now apply Hseen].
    + intros key. rewrite dom_insert, elem_of_union, elem_of_singleton.
      intros [->|Hkey]; [exact Hm|now apply Hkeys].
Qed.

Lemma normalize_idempotent (m full : Z) :
  submask m full -> normalize (normalize m full) full = normalize m full.
Proof.
  unfold submask, normalize. intros Hsub.
  destruct (Z.testbit m 0) eqn:Hbit; [|now rewrite Hbit].
  assert (Z.testbit full 0 = true) as Hfull.
  { apply (f_equal (fun x => Z.testbit x 0)) in Hsub.
    rewrite Z.land_spec, Hbit in Hsub. exact Hsub. }
  now rewrite Z.lxor_spec, Hbit, Hfull.
Qed.

(** After [encode_splits] on a tree in postorder, [split_edges[split]]
    raises nothing for the splits [split_edges] is iterated over. *)
Lemma encode_splits_getitem `{DictOrder} (tree tree' : Tree)
    (taxa_block : option (list string)) (unrooted : option bool) :
  postorder (postorder_edge_iter tree) ->
  encode_splits tree taxa_block unrooted = Ok tree' ->
  exists d,
    split_edges tree' = Some d /\
    forall split, split ∈ split_edges_keys d ->
                  exists edge, split_edges_getitem d split = Ok edge.
Proof.
  intros Hpost Henc. unfold encode_splits in Henc.
  set (universe := match taxa_block with
                   | Some taxa_block => taxa_block
                   | None => infer_taxa_block tree
                   end) in *.
  destruct (encode_loop universe (postorder_edge_iter tree) (split_mask tree) ∅)
    as [[attrs split_map]|e] eqn:Hloop; [|discriminate Henc].
  cbn [bind] in Henc.
  destruct (_ || _) in Henc; injection Henc as <-; cbn [split_edges];
    eexists; (split; [reflexivity|]); intros split Hin; cbn [split_edges_keys] in Hin;
    apply elem_of_dict_keys in Hin; cbn [split_edges_getitem].
  - destruct Hin as [edge ->]. eauto.
  - assert (split ∈ dom (new_NormalizedBitmaskDict split_map (all_taxa_bitmask universe)))
      as Hdom by now apply elem_of_dom.
    apply new_NormalizedBitmaskDict_dom in Hdom as (m & Hm & ->).
    rewrite normalize_idempotent.
    + destruct Hin as [edge ->]. eauto.
    + eapply (encode_loop_submask universe _ [] _ _ ∅ _ Hpost); [| |exact Hloop|exact Hm].
      * intros child Hc. apply elem_of_nil in Hc. contradiction.
      * intros key Hkey. rewrite dom_empty in Hkey. apply elem_of_empty in Hkey.
        contradiction.
Qed.

Lemma tree1_postorder : postorder (postorder_edge_iter tree1).
Proof.
  unfold postorder. cbn [tree1 postorder_edge_iter postorder_from leaf inner fst snd].
  repeat split;
    try (intros node [= <-] child Hchild); try by_evaluation;
    cbn [child_nodes] in *;
    repeat (apply elem_of_cons in Hchild as [->|Hchild]; [by_evaluation|]);
    apply elem_of_nil in Hchild; contradiction.
Defined.

Lemma encode_splits_masks_witness :
  postorder (postorder_edge_iter tree1) /\
  @encode_splits map_order tree1 (Some universe) (Some true) = Ok tree1_encoded /\
  forall edge, edge ∈ postorder_edge_iter tree1 ->
               mask_of_edge universe (split_mask tree1_encoded) edge.
Proof.
  split; [exact tree1_postorder|]. split; [reflexivity|].
  exact (proj2 (proj1 (@encode_splits_masks map_order tree1 (Some universe) (Some true)
                         tree1_postorder) tree1_encoded eq_refl)).
Defined.

(** The masks of [tree1]: A, B, their parent; C, D, their parent; the root. *)
Example tree1_masks :
  map_to_list (split_mask tree1_encoded) ≡ₚ
    [(0%nat, 1); (1%nat, 2); (2%nat, 3); (3%nat, 4); (4%nat, 8); (5%nat, 12);
     (6%nat, 15)].
Proof. by_evaluation. Qed.

(** ** The keys of [split_edges] and the edges of the tree *)

(** After [encode_splits] on a tree in postorder, every edge of the tree
    carries the mask of its subtree. *)
Lemma encode_splits_edge_masks `{DictOrder} (tree tree' : Tree)
    (taxa_block : option (list string)) (unrooted : option bool) :
  postorder (postorder_edge_iter tree) ->
  encode_splits tree taxa_block unrooted = Ok tree' ->
  postorder_edge_iter tree' = postorder_edge_iter tree /\
  forall edge, edge ∈ postorder_edge_iter tree ->
    mask_of_edge match taxa_block with
                 | Some taxa_block => taxa_block
                 | None => infer_taxa_block tree
                 end (split_mask tree') edge.
Proof.
  intros Hpost Henc. unfold encode_splits in Henc.
  set (universe := match taxa_block with
                   | Some taxa_block => taxa_block
                   | None => infer_taxa_block tree
                   end) in *.
  destruct (encode_loop universe (postorder_edge_iter tree) (split_mask tree) ∅)
    as [[attrs split_map]|e] eqn:Hloop; [|discriminate Henc].
  cbn [bind] in Henc.
  assert (postorder_edge_iter tree' = postorder_edge_iter tree /\
          split_mask tree' = attrs) as [Hedges ->].
  { destruct (_ || _) in Henc; injection Henc as <-; split; reflexivity. }
  split; [exact Hedges|]. intros edge Hin.
  apply (encode_loop_masks universe (postorder_edge_iter tree) [] []
           (split_mask tree) attrs ∅ split_map Hpost); try assumption.
  - intros child Hc. apply elem_of_nil in Hc. contradiction.
  - intros e Hc. apply elem_of_nil in Hc. contradiction.
Qed.

(** The values of a dictionary filled by normalizing insertions. *)
Lemma fold_normalize_lookup (mask : Z) (items : list (Z * EdgeRef)) :
  forall (acc : gmap Z EdgeRef) (key : Z) (edge : EdgeRef),
    fold_left (fun d '(k, val) => <[normalize k mask := val]> d) items acc !! key
      = Some edge ->
    acc !! key = Some edge \/ exists k, (k, edge) ∈ items /\ key = normalize k mask.
Proof.
  induction items as [|[k val] items IH]; intros acc key edge; cbn [fold_left];
    [auto|].
  intros Hfold. apply IH in Hfold as [Hacc|(k' & Hin & ->)].
  - destruct (decide (normalize k mask = key)) as [<-|Hne].
    + rewrite lookup_insert_eq in Hacc. injection Hacc as ->.
      right. exists k. split; [left|reflexivity].
    + rewrite lookup_insert_ne in Hacc by exact Hne. now left.
  - right. exists k'. split; [now right|reflexivity].
Qed.

(** After [encode_splits] on a tree in postorder, the keys of [split_edges]
    are exactly the keys of the masks of the edges of the tree, and the edge
    stored under a key is an edge of the tree whose mask has this key. *)
Lemma encode_splits_key_edges `{DictOrder} (tree tree' : Tree)
    (taxa_block : option (list string)) (unrooted : option bool) :
  postorder (postorder_edge_iter tree) ->
  encode_splits tree taxa_block unrooted = Ok tree' ->
  exists d,
    split_edges tree' = Some d /\
    (forall split,
        split ∈ split_edges_keys d <->
        exists edge m, edge ∈ postorder_edge_iter tree /\
                       split_mask tree' !! edge.1 = Some m /\
                       split = key_of_mask d m) /\
    (forall split edge,
        split ∈ split_edges_keys d ->
        split_edges_getitem d split = Ok edge ->
        edge ∈ postorder_edge_iter tree /\
        exists m, split_mask tree' !! edge.1 = Some m /\ split = key_of_mask d m).
Proof.
  intros Hpost Henc. unfold encode_splits in Henc.
  set (universe := match taxa_block with
                   | Some taxa_block => taxa_block
                   | None => infer_taxa_block tree
                   end) in *.
  destruct (encode_loop universe (postorder_edge_iter tree) (split_mask tree) ∅)
    as [[attrs split_map]|e] eqn:Hloop; [|discriminate Henc].
  cbn [bind] in Henc.
  assert (forall key, key ∈ dom split_map ->
                      submask key (all_taxa_bitmask universe)) as Hsub.
  { intros key Hkey.
    eapply (encode_loop_submask universe _ [] _ _ ∅ _ Hpost); [| |exact Hloop|exact Hkey].
    - intros child Hc. apply elem_of_nil in Hc. contradiction.
    - intros k Hk. rewrite dom_empty in Hk. apply elem_of_empty in Hk. contradiction. }
  apply (encode_loop_split_map universe _ [] _ _ _ _ Hpost) in Hloop
    as (_ & Hdom & Hval);
    [|intros child Hc; apply elem_of_nil in Hc; contradiction].
  assert (forall m, m ∈ dom split_map <->
                    exists edge, edge ∈ postorder_edge_iter tree /\
                                 attrs !! edge.1 = Some m) as Hdom'.
  { intros m. rewrite Hdom, dom_empty, elem_of_empty. tauto. }
  assert (forall m edge, split_map !! m = Some edge ->
                         edge ∈ postorder_edge_iter tree /\ attrs !! edge.1 = Some m)
    as Hval'.
  { intros m edge Hedge. destruct (Hval m edge Hedge) as [Habs|Hok]; [|exact Hok].
    now rewrite lookup_empty in Habs. }
  clear Hdom Hval.
  destruct (_ || _) in Henc; injection Henc as <-; cbn [split_edges split_mask];
    eexists; (split; [reflexivity|]); cbn [split_edges_keys key_of_mask split_edges_getitem];
    split.
  - intros split. rewrite elem_of_dict_keys, <- elem_of_dom, Hdom'. split.
    + intros (edge & Hin & Hm). exists edge, split. auto.
    + intros (edge & m & Hin & Hm & ->). eauto.
  - intros split edge _ Hget.
    destruct (split_map !! split) as [e0|] eqn:He0; [|discriminate Hget].
    injection Hget as ->. destruct (Hval' split edge He0) as [Hin Hm].
    split; [exact Hin|]. eauto.
  - intros split. rewrite elem_of_dict_keys, <- elem_of_dom, new_NormalizedBitmaskDict_dom.
    split.
    + intros (m & Hm & ->). apply Hdom' in Hm as (edge & Hin & Hm).
      exists edge, m. auto.
    + intros (edge & m & Hin & Hm & ->). exists m. split; [|reflexivity].
      apply Hdom'. eauto.
  - intros split edge Hkey Hget.
    apply elem_of_dict_keys in Hkey. apply elem_of_dom in Hkey.
    apply new_NormalizedBitmaskDict_dom in Hkey as (m0 & Hm0 & ->).
    rewrite (normalize_idempotent _ _ (Hsub m0 Hm0)) in Hget.
    destruct (new_NormalizedBitmaskDict split_map _ !! _) as [e0|] eqn:He0;
      [|discriminate Hget].
    injection Hget as ->. unfold new_NormalizedBitmaskDict in He0.
    apply fold_normalize_lookup in He0 as [Habs|(k & Hin & Hk)];
      [now rewrite lookup_empty in Habs|].
    apply elem_of_dict_items in Hin. destruct (Hval' k edge Hin) as [Hedge Hm].
    split; [exact Hedge|]. exists k. split; [exact Hm|exact Hk].
Qed.

End EncoderFacts.

Module DistributionFacts.
Import Encoder EncoderSpec EncoderFacts Distribution DistributionSpec Examples.

(** ** One round of the loop of [count_splits_on_tree] *)

Ltac run_method :=
  cbv [bindM get modify lift ret getitem]; cbn [fst snd].

Lemma count_split_run (split_edges : SplitEdges) (split : Z) (self : SplitDistribution) :
  forall r self',
    count_split split_edges split self = (r, self') ->
    same_frame self self' /\
    split_counts self' =
      <[split := default 0 (split_counts self !! split) + 1]> (split_counts self) /\
    splits self' =
      (if decide (split ∈ dom (split_counts self)) then splits self
       else splits self ++ [split]) /\
    (forall other, other <> split ->
       split_edge_lengths self' !! other = split_edge_lengths self !! other) /\
    (ignore_edge_lengths self = true ->
       split_edge_lengths self' = split_edge_lengths self) /\
    (r = Ok tt -> ignore_edge_lengths self = false ->
       exists edge,
         split_edges_getitem split_edges split = Ok edge /\
         split_edge_lengths self' =
           <[split := default [] (split_edge_lengths self !! split) ++ [length_sample edge]]>
             (split_edge_lengths self)).
Proof.
  intros r self'. unfold count_split. run_method.
  assert (forall count, split_counts self !! split = Some count ->
            (if decide (split ∈ dom (split_counts self)) then splits self
             else splits self ++ [split]) = splits self) as Hin.
  { intros count Hc. rewrite decide_True; [reflexivity|]. apply elem_of_dom. eauto. }
  assert (split_counts self !! split = None ->
            (if decide (split ∈ dom (split_counts self)) then splits self
             else splits self ++ [split]) = splits self ++ [split]) as Hout.
  { intros Hc. rewrite decide_False; [reflexivity|]. now apply not_elem_of_dom. }
  destruct (split_counts self !! split) as [count|] eqn:Hcount;
    [rewrite (Hin count eq_refl)|rewrite (Hout eq_refl)]; clear Hin Hout;
    destruct (ignore_edge_lengths self) eqn:Hlen;
    destruct (ignore_node_ages self) eqn:Hage;
    destruct (split_edge_lengths self !! split) as [lengths|] eqn:Hlengths;
    destruct (split_node_ages self !! split) as [ages|] eqn:Hages;
    destruct (split_edges_getitem split_edges split) as [edge|e] eqn:Hget;
    try destruct (head_node edge.2) as [node|];
    repeat (progress (cbn; rewrite ?lookup_insert_eq, ?Hlengths, ?Hages));
    intros [= <- <-]; unfold same_frame; cbn;
    rewrite ?Hlen, ?Hage, ?Hlengths;
    (split; [repeat split; reflexivity|]);
    (split; [reflexivity|]); (split; [reflexivity|]);
    (split; [intros other Hother; rewrite ?lookup_insert_ne by (apply not_eq_sym, Hother);
             reflexivity|]);
    (split; [first [discriminate|intros _; reflexivity]|]);
    intros Hr Hl; try discriminate Hl; try discriminate Hr.
  all: exists edge; split; [reflexivity|]; rewrite ?insert_insert_eq; reflexivity.
Qed.


Lemma same_frame_refl (self : SplitDistribution) : same_frame self self.
Proof. repeat split. Qed.

Lemma same_frame_trans (s1 s2 s3 : SplitDistribution) :
  same_frame s1 s2 -> same_frame s2 s3 -> same_frame s1 s3.
Proof.
  unfold same_frame. intros (?&?&?&?&?&?&?) (?&?&?&?&?&?&?).
  repeat split; congruence.
Qed.

Lemma for_each_cons {X : Type} (x : X) (rest : list X) (body : X -> M unit)
    (self : SplitDistribution) :
  for_each (x :: rest) body self =
    match body x self with
    | (Ok _, self') => for_each rest body self'
    | (Raise e, self') => (Raise e, self')
    end.
Proof. reflexivity. Qed.

(** ** The whole loop, over keys without repetition *)

Lemma for_each_count_split_run (split_edges : SplitEdges) (keys : list Z) :
  NoDup keys ->
  forall (self self' : SplitDistribution) (r : res unit),
    for_each keys (count_split split_edges) self = (r, self') ->
    same_frame self self' /\
    (forall split, split ∉ keys ->
       split_counts self' !! split = split_counts self !! split /\
       split_edge_lengths self' !! split = split_edge_lengths self !! split) /\
    (ignore_edge_lengths self = true ->
       split_edge_lengths self' = split_edge_lengths self) /\
    (r = Ok tt ->
     forall split, split ∈ keys ->
       split_counts self' !! split = Some (default 0 (split_counts self !! split) + 1) /\
       (ignore_edge_lengths self = false ->
        exists edge,
          split_edges_getitem split_edges split = Ok edge /\
          split_edge_lengths self' !! split =
            Some (default [] (split_edge_lengths self !! split) ++ [length_sample edge]))).
Proof.
  induction keys as [|key rest IH]; intros Hnodup self self' r Hrun.
  - cbn in Hrun. injection Hrun as <- <-.
    split; [apply same_frame_refl|]. split; [auto|]. split; [auto|].
    intros _ split Hin. apply elem_of_nil in Hin. contradiction.
  - apply NoDup_cons in Hnodup as [Hfresh Hnodup].
    rewrite for_each_cons in Hrun.
    destruct (count_split split_edges key self) as [r1 self1] eqn:Hstep.
    apply count_split_run in Hstep as (Hf1 & Hc1 & _ & Hl1 & Hig1 & Hok1).
    destruct r1 as [[]|e].
    + apply (IH Hnodup) in Hrun as (Hf & Hout & Hig & Hok).
      assert (ignore_edge_lengths self1 = ignore_edge_lengths self) as Hflag
          by apply Hf1.
      split; [eapply same_frame_trans; eassumption|]. split; [|split].
      * intros split Hnotin. apply not_elem_of_cons in Hnotin as [Hne Hnotin].
        destruct (Hout split Hnotin) as [-> ->].
        rewrite Hc1, lookup_insert_ne by (apply not_eq_sym, Hne).
        rewrite Hl1 by exact Hne. auto.
      * intros Htrue. rewrite Hig by congruence. auto.
      * intros -> split Hin. apply elem_of_cons in Hin as [->|Hin].
        -- destruct (Hout key Hfresh) as [-> ->].
           rewrite Hc1, lookup_insert_eq. split; [reflexivity|].
           intros Hfalse. destruct (Hok1 eq_refl Hfalse) as (edge & Hget & ->).
           exists edge. split; [exact Hget|]. apply lookup_insert_eq.
        -- assert (split <> key) as Hne by (intros ->; contradiction).
           destruct (Hok eq_refl split Hin) as [-> Hlen].
           rewrite Hc1, lookup_insert_ne by (apply not_eq_sym, Hne).
           split; [reflexivity|]. intros Hfalse.
           destruct Hlen as (edge & Hget & ->); [congruence|].
           exists edge. split; [exact Hget|]. now rewrite Hl1.
    + injection Hrun as <- <-. split; [exact Hf1|]. split; [|split].
      * intros split Hnotin. apply not_elem_of_cons in Hnotin as [Hne _].
        rewrite Hc1, lookup_insert_ne by (apply not_eq_sym, Hne).
        rewrite Hl1 by exact Hne. auto.
      * exact Hig1.
      * discriminate.
Qed.

(** ** The list [splits] *)

Lemma filter_ext_elem {A : Type} (P Q : A -> Prop)
    `{forall x, Decision (P x)} `{forall x, Decision (Q x)} (l : list A) :
  (forall x, x ∈ l -> (P x <-> Q x)) -> filter P l = filter Q l.
Proof.
  induction l as [|x l IH]; intros Hext; [reflexivity|].
  assert (P x <-> Q x) as Hx by (apply Hext; left).
  assert (filter P l = filter Q l) as Hl by (apply IH; intros y Hy; apply Hext; now right).
  destruct (decide (P x)) as [HP|HP].
  - rewrite !filter_cons_True by tauto. now rewrite Hl.
  - rewrite !filter_cons_False by tauto. exact Hl.
Qed.

Lemma count_split_sound (split_edges : SplitEdges) (split : Z)
    (self self' : SplitDistribution) (r : res unit) :
  splits_sound self ->
  count_split split_edges split self = (r, self') ->
  splits_sound self' /\
  splits self' = splits self ++ filter (fun k => k ∉ splits self) [split].
Proof.
  intros (Hnodup & Hkeys & Hpos) Hstep.
  apply count_split_run in Hstep as (_ & Hc & Hs & _).
  assert (splits self' = splits self ++ filter (fun k => k ∉ splits self) [split]) as Hs'.
  { rewrite Hs. destruct (decide (split ∈ dom (split_counts self))) as [Hin|Hout].
    - rewrite filter_cons_False by (intros Hn; apply Hn, Hkeys, Hin).
      now rewrite filter_nil, app_nil_r.
    - rewrite filter_cons_True by (now rewrite Hkeys). now rewrite filter_nil. }
  split; [|exact Hs']. unfold splits_sound. rewrite Hc. split; [|split].
  - rewrite Hs. destruct (decide (split ∈ dom (split_counts self))) as [Hin|Hout];
      [exact Hnodup|].
    apply NoDup_app. split; [exact Hnodup|]. split; [|apply NoDup_singleton].
    intros k Hk Hk'. apply list_elem_of_singleton in Hk' as ->.
    apply Hout, Hkeys, Hk.
  - intros k. rewrite dom_insert, Hs. 
    destruct (decide (split ∈ dom (split_counts self))) as [Hin|Hout].
    + rewrite Hkeys, elem_of_union, elem_of_singleton. split; [auto|].
      intros [->|Hk]; assumption.
    + rewrite elem_of_app, list_elem_of_singleton, Hkeys, elem_of_union,
        elem_of_singleton. tauto.
  - intros k count. destruct (decide (split = k)) as [->|Hne].
    + rewrite lookup_insert_eq. intros [= <-].
      destruct (split_counts self !! k) as [c|] eqn:Hk; cbn; [|lia].
      specialize (Hpos k c Hk). lia.
    + rewrite lookup_insert_ne by exact Hne. apply Hpos.
Qed.

Lemma for_each_count_split_sound (split_edges : SplitEdges) (keys : list Z) :
  NoDup keys ->
  forall (self self' : SplitDistribution) (r : res unit),
    splits_sound self ->
    for_each keys (count_split split_edges) self = (r, self') ->
    splits_sound self' /\
    (r = Ok tt ->
     splits self' = splits self ++ filter (fun k => k ∉ splits self) keys).
Proof.
  induction keys as [|key rest IH]; intros Hnodup self self' r Hsound Hrun.
  - cbn in Hrun. injection Hrun as <- <-. split; [exact Hsound|].
    intros _. now rewrite filter_nil, app_nil_r.
  - apply NoDup_cons in Hnodup as [Hfresh Hnodup].
    rewrite for_each_cons in Hrun.
    destruct (count_split split_edges key self) as [r1 self1] eqn:Hstep.
    apply (count_split_sound _ _ _ _ _ Hsound) in Hstep as [Hsound1 Hs1].
    destruct r1 as [[]|e].
    + apply (IH Hnodup _ _ _ Hsound1) in Hrun as [Hsound' Hs'].
      split; [exact Hsound'|]. intros Hr. rewrite (Hs' Hr), Hs1, <- app_assoc.
      f_equal. destruct (decide (key ∈ splits self)) as [Hin|Hout].
      * rewrite !filter_cons_False by (intros Hn; apply Hn, Hin).
        rewrite filter_nil, app_nil_r, app_nil_l. reflexivity.
      * rewrite !filter_cons_True by exact Hout. rewrite filter_nil. cbn.
        f_equal. apply filter_ext_elem. intros k Hk.
        rewrite elem_of_app, list_elem_of_singleton.
        assert (k <> key) by (intros ->; contradiction). tauto.
    + injection Hrun as <- <-. split; [exact Hsound1|discriminate].
Qed.

(** ** [count_splits_on_tree], step by step *)

Lemma count_splits_on_tree_run `{DictOrder} (tree : Tree) (self : SplitDistribution) :
  let self0 := set_total_trees_counted (total_trees_counted self + 1) self in
  match normalize_taxa tree (taxa_block self) with
  | Raise e => count_splits_on_tree tree self = (Raise e, self0)
  | Ok tree1 =>
      match encode_splits tree1 (Some (taxa_block self)) (Some (unrooted self)) with
      | Raise e => count_splits_on_tree tree self = (Raise e, self0)
      | Ok tree2 =>
          match getattr_split_edges tree2 with
          | Raise e => count_splits_on_tree tree self = (Raise e, self0)
          | Ok split_edges =>
              let run := for_each (split_edges_keys split_edges)
                           (count_split split_edges) self0 in
              count_splits_on_tree tree self =
                (match run.1 with Ok _ => Ok tree2 | Raise e => Raise e end, run.2)
          end
      end
  end.
Proof.
  intros self0. unfold count_splits_on_tree. run_method. fold self0.
  destruct (normalize_taxa tree (taxa_block self)) as [tree1|e]; [|reflexivity].
  destruct (encode_splits tree1 (Some (taxa_block self)) (Some (unrooted self)))
    as [tree2|e]; [|reflexivity].
  destruct (getattr_split_edges tree2) as [split_edges|e]; [|reflexivity].
  cbn zeta.
  destruct (for_each (split_edges_keys split_edges) (count_split split_edges) self0)
    as [[[]|e] self']; reflexivity.
Qed.

(** A call, returning or raising, increments [total_trees_counted] and
    leaves the cache and the flags alone. *)
Lemma count_splits_on_tree_frame `{DictOrder} (tree : Tree) (self : SplitDistribution) :
  same_frame (set_total_trees_counted (total_trees_counted self + 1) self)
             (count_splits_on_tree tree self).2.
Proof.
  pose proof (count_splits_on_tree_run tree self) as Hrun. cbn zeta in Hrun.
  destruct (normalize_taxa tree (taxa_block self)) as [tree1|e];
    [|rewrite Hrun; apply same_frame_refl].
  destruct (encode_splits tree1 (Some (taxa_block self)) (Some (unrooted self)))
    as [tree2|e]; [|rewrite Hrun; apply same_frame_refl].
  destruct (getattr_split_edges tree2) as [split_edges|e];
    [|rewrite Hrun; apply same_frame_refl].
  rewrite Hrun. cbn [snd].
  destruct (for_each (split_edges_keys split_edges) (count_split split_edges)
              (set_total_trees_counted (total_trees_counted self + 1) self))
    as [r self'] eqn:Hloop.
  apply for_each_count_split_run in Hloop; [apply Hloop|].
  apply split_edges_keys_NoDup.
Qed.

(** A call that returns: the tree it leaves, and the loop it has run. *)
Lemma count_splits_on_tree_returns `{DictOrder} (tree tree' : Tree)
    (self self' : SplitDistribution) :
  count_splits_on_tree tree self = (Ok tree', self') ->
  exists tree1 split_edges,
    normalize_taxa tree (taxa_block self) = Ok tree1 /\
    encode_splits tree1 (Some (taxa_block self)) (Some (unrooted self)) = Ok tree' /\
    getattr_split_edges tree' = Ok split_edges /\
    for_each (split_edges_keys split_edges) (count_split split_edges)
      (set_total_trees_counted (total_trees_counted self + 1) self) = (Ok tt, self').
Proof.
  intros Hcall. pose proof (count_splits_on_tree_run tree self) as Hrun.
  cbn zeta in Hrun.
  destruct (normalize_taxa tree (taxa_block self)) as [tree1|e] eqn:Hnorm; [|congruence].
  destruct (encode_splits tree1 (Some (taxa_block self)) (Some (unrooted self)))
    as [tree2|e] eqn:Henc; [|congruence].
  destruct (getattr_split_edges tree2) as [split_edges|e] eqn:Hget; [|congruence].
  rewrite Hrun in Hcall.
  destruct (for_each (split_edges_keys split_edges) (count_split split_edges)
              (set_total_trees_counted (total_trees_counted self + 1) self))
    as [[[]|e] self1] eqn:Hloop; cbn [fst snd] in Hcall; [|discriminate Hcall].
  injection Hcall as -> ->. exists tree1, split_edges.
  repeat split; first [reflexivity|assumption].
Qed.


(** ** A tree with a taxon outside the universe *)

Lemma normalize_taxa_unknown (tree : Tree) (universe : list string) :
  (exists t, t ∈ tree_taxa tree /\ t ∉ universe) ->
  exists t, t ∈ tree_taxa tree /\ (t ∉ universe) /\
            normalize_taxa tree universe = Raise (UnknownTaxon t).
Proof.
  intros (t & Hin & Hout). unfold normalize_taxa.
  destruct (find _ (tree_taxa tree)) as [t'|] eqn:Hfind.
  - apply find_some in Hfind as [Hin' Hout']. exists t'.
    split; [now apply list_elem_of_In|]. split; [|reflexivity].
    now apply bool_decide_eq_true in Hout'.
  - apply find_none with (x := t) in Hfind; [|now apply list_elem_of_In].
    apply bool_decide_eq_false in Hfind. contradiction.
Qed.

(** C1, as amended: on a tree with a taxon outside the universe of the
    distribution, [count_splits_on_tree] raises [UnknownTaxon] and leaves
    [splits], [split_counts], [split_edge_lengths], [split_node_ages], the
    flags and the cache as they were; [total_trees_counted] has been
    incremented by then. *)
Theorem count_splits_on_tree_unknown_taxon `{DictOrder} (tree : Tree)
    (self : SplitDistribution) :
  (exists t, t ∈ tree_taxa tree /\ t ∉ taxa_block self) ->
  exists t self',
    t ∈ tree_taxa tree /\ (t ∉ taxa_block self) /\
    count_splits_on_tree tree self = (Raise (UnknownTaxon t), self') /\
    self' = set_total_trees_counted (total_trees_counted self + 1) self /\
    total_trees_counted self' = total_trees_counted self + 1 /\
    splits self' = splits self /\
    split_counts self' = split_counts self /\
    split_edge_lengths self' = split_edge_lengths self /\
    split_node_ages self' = split_node_ages self.
Proof.
  intros Hunknown.
  destruct (normalize_taxa_unknown tree (taxa_block self) Hunknown)
    as (t & Hin & Hout & Hnorm).
  exists t, (set_total_trees_counted (total_trees_counted self + 1) self).
  split; [exact Hin|]. split; [exact Hout|]. split; [|repeat split].
  pose proof (count_splits_on_tree_run tree self) as Hrun. cbn zeta in Hrun.
  now rewrite Hnorm in Hrun.
Qed.

Lemma count_splits_on_tree_unknown_taxon_witness :
  (exists t, t ∈ tree_taxa tree1 /\ (t ∉ taxa_block (__init__ (Some ["A"; "B"; "C"]%string)))) /\
  exists t self',
    @count_splits_on_tree map_order tree1 (__init__ (Some ["A"; "B"; "C"]%string))
      = (Raise (UnknownTaxon t), self') /\
    split_counts self' = ∅ /\ splits self' = [].
Proof.
  assert (exists t, t ∈ tree_taxa tree1 /\
                    (t ∉ taxa_block (__init__ (Some ["A"; "B"; "C"]%string)))) as Hunknown.
  { exists "D"%string. split; by_evaluation. }
  split; [exact Hunknown|].
  destruct (@count_splits_on_tree_unknown_taxon map_order tree1 _ Hunknown)
    as (t & self' & _ & _ & Hcall & _ & _ & Hsplits & Hcounts & _).
  exists t, self'. split; [exact Hcall|]. split; [exact Hcounts|exact Hsplits].
Defined.

(** C1 as stated fails: the tree [tree1] has the taxon D, which the
    universe A, B, C lacks; the call raises [UnknownTaxon], and
    [total_trees_counted], zero before the call, is one after it. *)
Lemma count_splits_on_tree_unknown_taxon_counterexample :
  let self := __init__ (Some ["A"; "B"; "C"]%string) in
  let outcome := @count_splits_on_tree map_order tree1 self in
  "D"%string ∈ tree_taxa tree1 /\
  ("D"%string ∉ taxa_block self) /\
  outcome.1 = Raise (UnknownTaxon "D") /\
  total_trees_counted self = 0 /\
  total_trees_counted outcome.2 = 1 /\
  outcome.2 <> self.
Proof.
  cbv zeta. split; [by_evaluation|]. split; [by_evaluation|].
  split; [reflexivity|]. split; [reflexivity|]. split; [reflexivity|].
  intros Heq. apply (f_equal total_trees_counted) in Heq. vm_compute in Heq.
  discriminate Heq.
Qed.

(** ** The counts and samples a call adds *)

Lemma normalize_taxa_returns (tree tree1 : Tree) (universe : list string) :
  normalize_taxa tree universe = Ok tree1 -> tree1 = tree.
Proof.
  unfold normalize_taxa. destruct (find _ _); [discriminate|]. now intros [= <-].
Qed.

(** C6: a call of [count_splits_on_tree] that returns leaves the tree as
    [encode_splits] leaves the tree passed in, with the universe and the
    [unrooted] flag of the distribution.  For a tree in postorder the keys
    of its [split_edges] are exactly the keys of the masks of its edges, so
    that edges with the same mask share one key, and the edge stored under a
    key is an edge of the tree with such a mask.  Every key, each occurring
    once among the keys, has its count incremented by one, and, unless
    [ignore_edge_lengths] is set, one sample appended to its branch lengths:
    the length of the edge [split_edges] maps it to, or zero when that edge
    has none; the counts and samples of all other splits are as before. *)
Theorem count_splits_on_tree_counts `{DictOrder} (tree tree' : Tree)
    (self self' : SplitDistribution) :
  count_splits_on_tree tree self = (Ok tree', self') ->
  exists split_edges,
    encode_splits tree (Some (taxa_block self)) (Some (unrooted self)) = Ok tree' /\
    postorder_edge_iter tree' = postorder_edge_iter tree /\
    getattr_split_edges tree' = Ok split_edges /\
    (postorder (postorder_edge_iter tree) ->
       (forall edge, edge ∈ postorder_edge_iter tree ->
          mask_of_edge (taxa_block self) (split_mask tree') edge) /\
       (forall split,
           split ∈ split_edges_keys split_edges <->
           exists edge m, edge ∈ postorder_edge_iter tree /\
                          split_mask tree' !! edge.1 = Some m /\
                          split = key_of_mask split_edges m) /\
       (forall split edge,
           split ∈ split_edges_keys split_edges ->
           split_edges_getitem split_edges split = Ok edge ->
           edge ∈ postorder_edge_iter tree /\
           exists m, split_mask tree' !! edge.1 = Some m /\
                     split = key_of_mask split_edges m)) /\
    NoDup (split_edges_keys split_edges) /\
    (forall split, split ∈ split_edges_keys split_edges ->
       split_counts self' !! split = Some (default 0 (split_counts self !! split) + 1) /\
       (ignore_edge_lengths self = false ->
        exists edge,
          split_edges_getitem split_edges split = Ok edge /\
          split_edge_lengths self' !! split =
            Some (default [] (split_edge_lengths self !! split)
                    ++ [default 0%Q (edge_length edge.2)]))) /\
    (forall split, split ∉ split_edges_keys split_edges ->
       split_counts self' !! split = split_counts self !! split /\
       split_edge_lengths self' !! split = split_edge_lengths self !! split) /\
    (ignore_edge_lengths self = true ->
       split_edge_lengths self' = split_edge_lengths self).
Proof.
  intros Hcall.
  apply count_splits_on_tree_returns in Hcall
    as (tree1 & d & Hnorm & Henc & Hget & Hloop).
  apply normalize_taxa_returns in Hnorm as ->.
  exists d. split; [exact Henc|].
  assert (postorder_edge_iter tree' = postorder_edge_iter tree) as Hedges.
  { unfold encode_splits in Henc.
    destruct (encode_loop _ _ _ _) as [[attrs split_map]|e]; [|discriminate Henc].
    cbn [bind] in Henc. destruct (_ || _) in Henc; injection Henc as <-; reflexivity. }
  split; [exact Hedges|]. split; [exact Hget|]. split.
  { intros Hpost.
    destruct (encode_splits_edge_masks _ _ _ _ Hpost Henc) as [_ Hmasks].
    destruct (encode_splits_key_edges _ _ _ _ Hpost Henc) as (d' & Hd' & Hkeys & Hedge).
    assert (d' = d) as ->.
    { unfold getattr_split_edges in Hget. rewrite Hd' in Hget. congruence. }
    split; [exact Hmasks|]. split; [exact Hkeys|exact Hedge]. }
  pose proof (split_edges_keys_NoDup d) as Hnodup.
  split; [exact Hnodup|].
  apply (for_each_count_split_run _ _ Hnodup) in Hloop as (_ & Hout & Hig & Hok).
  split; [|split].
  - intros split Hin. exact (Hok eq_refl split Hin).
  - exact Hout.
  - exact Hig.
Qed.

Lemma count_splits_on_tree_counts_witness :
  @count_splits_on_tree map_order tree2 fresh = (Ok tree2_counted, counted_tree2) /\
  exists split_edges,
    @encode_splits map_order tree2 (Some (taxa_block fresh)) (Some (unrooted fresh))
      = Ok tree2_counted /\
    getattr_split_edges tree2_counted = Ok split_edges /\
    forall split, split ∈ split_edges_keys (H := map_order) split_edges ->
                  split_counts counted_tree2 !! split = Some 1.
Proof.
  split; [reflexivity|].
  destruct (@count_splits_on_tree_counts map_order tree2 tree2_counted fresh
              counted_tree2 eq_refl)
    as (split_edges & Henc & _ & Hget & _ & _ & Hin & _).
  exists split_edges. split; [exact Henc|]. split; [exact Hget|].
  intros split Hsplit. destruct (Hin split Hsplit) as [Hcount _]. exact Hcount.
Defined.

(** In [tree2] two edges carry the mask of B: the split is counted once,
    with the one sample of the edge that [split_edges] holds for it. *)
Example tree2_duplicate_mask :
  split_mask tree2_counted !! 1%nat = Some 2 /\
  split_mask tree2_counted !! 2%nat = Some 2 /\
  split_counts counted_tree2 !! 2 = Some 1 /\
  split_edge_lengths counted_tree2 !! 2 = Some [2%Q].
Proof. repeat split; reflexivity. Qed.

(** ** Calls that return *)

(** One round of the loop returns when [split_edges[split]] does. *)
Lemma count_split_returns (split_edges : SplitEdges) (split : Z)
    (self : SplitDistribution) (edge : EdgeRef) :
  split_edges_getitem split_edges split = Ok edge ->
  (count_split split_edges split self).1 = Ok tt.
Proof.
  intros Hget. unfold count_split. run_method. rewrite Hget.
  destruct (split_counts self !! split) as [count|];
    destruct (ignore_edge_lengths self);
    destruct (ignore_node_ages self);
    destruct (split_edge_lengths self !! split) as [lengths|] eqn:Hlengths;
    destruct (split_node_ages self !! split) as [ages|] eqn:Hages;
    destruct (head_node edge.2) as [node|];
    repeat (progress (cbn; rewrite ?lookup_insert_eq, ?Hlengths, ?Hages));
    reflexivity.
Qed.

Lemma for_each_count_split_returns (split_edges : SplitEdges) (keys : list Z) :
  (forall split, split ∈ keys ->
                 exists edge, split_edges_getitem split_edges split = Ok edge) ->
  forall self, (for_each keys (count_split split_edges) self).1 = Ok tt.
Proof.
  induction keys as [|key rest IH]; intros Hget self; [reflexivity|].
  rewrite for_each_cons. destruct (Hget key) as [edge Hedge]; [left|].
  pose proof (count_split_returns split_edges key self edge Hedge) as Hstep.
  destruct (count_split split_edges key self) as [r self1]. cbn [fst] in Hstep.
  subst r. apply IH. intros split Hin. apply Hget. now right.
Qed.

Lemma normalize_taxa_known (tree : Tree) (universe : list string) :
  (forall t, t ∈ tree_taxa tree -> t ∈ universe) ->
  normalize_taxa tree universe = Ok tree.
Proof.
  intros Hknown. unfold normalize_taxa.
  destruct (find _ (tree_taxa tree)) as [t|] eqn:Hfind; [|reflexivity].
  apply find_some in Hfind as [Hin Hout]. apply bool_decide_eq_true in Hout.
  exfalso. apply Hout, Hknown. now apply list_elem_of_In.
Qed.

(** On a tree in postorder, whose edges all have head nodes and whose taxa
    are all in the universe of the distribution, [count_splits_on_tree]
    returns. *)
Lemma count_splits_on_tree_total `{DictOrder} (tree : Tree) (self : SplitDistribution) :
  postorder (postorder_edge_iter tree) ->
  (forall edge, edge ∈ postorder_edge_iter tree -> is_Some (head_node edge.2)) ->
  (forall t, t ∈ tree_taxa tree -> t ∈ taxa_block self) ->
  exists tree' self', count_splits_on_tree tree self = (Ok tree', self').
Proof.
  intros Hpost Hhead Hknown.
  pose proof (count_splits_on_tree_run tree self) as Hrun. cbn zeta in Hrun.
  rewrite (normalize_taxa_known tree _ Hknown) in Hrun.
  destruct (encode_splits_returns tree (Some (taxa_block self))
              (Some (unrooted self)) Hpost Hhead Hknown) as [tree' Henc].
  rewrite Henc in Hrun.
  destruct (encode_splits_getitem _ _ _ _ Hpost Henc) as (d & Hd & Hget).
  unfold getattr_split_edges in Hrun. rewrite Hd in Hrun. rewrite Hrun.
  rewrite (for_each_count_split_returns d _ Hget). eauto.
Qed.

(** ** The order of [splits] *)

Lemma elem_of_first_occurrences {A : Type} `{EqDecision A} (l : list A) (x : A) :
  x ∈ first_occurrences l <-> x ∈ l.
Proof.
  induction l as [|y l IH]; cbn [first_occurrences]; [reflexivity|].
  rewrite !elem_of_cons, list_elem_of_filter, IH.
  destruct (decide (x = y)); tauto.
Qed.

Lemma filter_all {A : Type} (P : A -> Prop) `{forall x, Decision (P x)} (l : list A) :
  (forall x, x ∈ l -> P x) -> filter P l = l.
Proof.
  induction l as [|y l IH]; intros Hall; [reflexivity|].
  rewrite filter_cons_True by (apply Hall; left). f_equal.
  apply IH. intros x Hx. apply Hall. now right.
Qed.

Lemma first_occurrences_NoDup {A : Type} `{EqDecision A} (l : list A) :
  NoDup l -> first_occurrences l = l.
Proof.
  induction l as [|y l IH]; intros Hnodup; [reflexivity|].
  apply NoDup_cons in Hnodup as [Hfresh Hnodup]. cbn [first_occurrences].
  rewrite (IH Hnodup). f_equal. apply filter_all.
  intros x Hx ->. contradiction.
Qed.

Lemma first_occurrences_app {A : Type} `{EqDecision A} (l1 l2 : list A) :
  first_occurrences (l1 ++ l2) =
    first_occurrences l1 ++ filter (fun x => x ∉ l1) (first_occurrences l2).
Proof.
  induction l1 as [|y l1 IH].
  - cbn [app first_occurrences]. symmetry. apply filter_all.
    intros x _ Hx. apply elem_of_nil in Hx. contradiction.
  - cbn [app first_occurrences]. rewrite IH, filter_app. f_equal. f_equal.
    rewrite list_filter_filter. apply list_filter_iff. intros x.
    rewrite not_elem_of_cons. tauto.
Qed.

(** C10: from a fresh distribution, through any calls of
    [count_splits_on_tree] that return, [splits] has no repetition, holds
    exactly the keys of [split_counts], in the order in which the loops of
    the calls first came upon them, and every count is at least one. *)
Theorem splits_invariant `{DictOrder} (self : SplitDistribution) (observed : list Z) :
  counted self observed ->
  NoDup (splits self) /\
  (forall split, split ∈ splits self <-> split ∈ dom (split_counts self)) /\
  splits self = first_occurrences observed /\
  (forall split count, split_counts self !! split = Some count -> 1 <= count).
Proof.
  intros Hcounted.
  enough (splits_sound self /\ splits self = first_occurrences observed)
    as [(Hnodup & Hkeys & Hpos) Horder] by auto.
  induction Hcounted as [taxa_block|self observed b1 b2 b3 Hcounted IH
                        |self observed tree tree' self' split_edges Hcounted IH Hcall Hget].
  - split; [|reflexivity]. split; [constructor|]. split.
    + intros split. cbn. rewrite dom_empty, elem_of_nil, elem_of_empty. reflexivity.
    + intros split count Hc. cbn in Hc. now rewrite lookup_empty in Hc.
  - exact IH.
  - destruct IH as [Hsound Horder].
    apply count_splits_on_tree_returns in Hcall
      as (tree1 & split_edges' & _ & _ & Hget' & Hloop).
    assert (split_edges' = split_edges) as -> by congruence.
    pose proof (split_edges_keys_NoDup split_edges) as Hnodup.
    apply (for_each_count_split_sound _ _ Hnodup) in Hloop as [Hsound' Hs'];
      [|exact Hsound].
    split; [exact Hsound'|].
    rewrite (Hs' eq_refl), first_occurrences_app, (first_occurrences_NoDup _ Hnodup).
    cbn [splits set_total_trees_counted]. rewrite Horder. f_equal.
    apply list_filter_iff. intros split. now rewrite elem_of_first_occurrences.
Qed.

Lemma splits_invariant_witness :
  counted (H := map_order) counted_tree2
    ([] ++ match getattr_split_edges tree2_counted with
           | Ok split_edges => split_edges_keys (H := map_order) split_edges
           | Raise _ => []
           end) /\
  splits counted_tree2 = [14; 12; 8; 4; 2] /\
  NoDup (splits counted_tree2) /\
  forall split, split ∈ splits counted_tree2 <-> split ∈ dom (split_counts counted_tree2).
Proof.
  assert (counted (H := map_order) counted_tree2
            ([] ++ match getattr_split_edges tree2_counted with
                   | Ok split_edges => split_edges_keys (H := map_order) split_edges
                   | Raise _ => []
                   end)) as Hcounted.
  { eapply (counted_tree (H := map_order) fresh [] tree2 tree2_counted counted_tree2).
    - apply (counted_init (Some universe)).
    - reflexivity.
    - reflexivity. }
  split; [exact Hcounted|]. split; [reflexivity|].
  destruct (@splits_invariant map_order _ _ Hcounted) as (Hnodup & Hkeys & _ & _).
  split; [exact Hnodup|exact Hkeys].
Defined.

(** ** The frequency table and its cache *)

Lemma fold_insert_lookup_notin {V W : Type} (g : V -> W) (items : list (Z * V)) :
  forall (acc : gmap Z W) (key : Z),
    key ∉ items.*1 ->
    fold_left (fun d '(k, v) => <[k := g v]> d) items acc !! key = acc !! key.
Proof.
  induction items as [|[k v] items IH]; intros acc key Hnotin; [reflexivity|].
  cbn in Hnotin. apply not_elem_of_cons in Hnotin as [Hne Hnotin].
  cbn [fold_left]. rewrite IH by exact Hnotin.
  apply lookup_insert_ne. auto.
Qed.

Lemma fold_insert_lookup_in {V W : Type} (g : V -> W) (items : list (Z * V)) :
  forall (acc : gmap Z W) (key : Z) (v : V),
    NoDup items.*1 -> (key, v) ∈ items ->
    fold_left (fun d '(k, v) => <[k := g v]> d) items acc !! key = Some (g v).
Proof.
  induction items as [|[k v'] items IH]; intros acc key v Hnodup Hin.
  - apply elem_of_nil in Hin. contradiction.
  - cbn in Hnodup. apply NoDup_cons in Hnodup as [Hfresh Hnodup].
    cbn [fold_left]. apply elem_of_cons in Hin as [Heq|Hin].
    + injection Heq as -> ->.
      rewrite fold_insert_lookup_notin by exact Hfresh. apply lookup_insert_eq.
    + now apply IH.
Qed.

(** The loop of [calc_freqs] builds the frequency table, whatever the order
    of iteration. *)
Lemma calc_freqs_run `{DictOrder} (self : SplitDistribution) :
  calc_freqs self =
    (Ok (frequencies self),
     set_trees_counted_for_freqs (total_trees_counted self)
       (set_split_freqs (Some (frequencies self)) self)).
Proof.
  unfold calc_freqs. run_method.
  set (total := if total_trees_counted self =? 0 then 1 else total_trees_counted self).
  assert (fold_left (fun freqs '(split, count) => <[split := float_div count total]> freqs)
            (dict_items (split_counts self)) ∅ = frequencies self) as ->; [|reflexivity].
  apply map_eq. intros split. unfold frequencies. fold total. rewrite lookup_fmap.
  destruct (split_counts self !! split) as [count|] eqn:Hcount; cbn [fmap option_fmap option_map].
  - apply (fold_insert_lookup_in (fun count => float_div count total)).
    + apply (NoDup_dict_keys (split_counts self)).
    + now apply elem_of_dict_items.
  - rewrite (fold_insert_lookup_notin (fun count => float_div count total)).
    + apply lookup_empty.
    + intros Hin. apply (elem_of_dict_keys (split_counts self)) in Hin as [count Hc].
      congruence.
Qed.

Lemma frequencies_ext (self self' : SplitDistribution) :
  split_counts self' = split_counts self ->
  total_trees_counted self' = total_trees_counted self ->
  frequencies self' = frequencies self.
Proof. unfold frequencies. now intros -> ->. Qed.

(** A query on a sound cache returns the frequency table of the state, and
    changes nothing but the cache. *)
Lemma get_split_frequencies_run `{DictOrder} (self : SplitDistribution) :
  cache_sound self ->
  exists self',
    _get_split_frequencies self = (Ok (Some (frequencies self)), self') /\
    cache_sound self' /\
    total_trees_counted self' = total_trees_counted self /\
    splits self' = splits self /\
    split_counts self' = split_counts self /\
    split_edge_lengths self' = split_edge_lengths self /\
    split_node_ages self' = split_node_ages self.
Proof.
  intros [Hstamp Hcache]. unfold _get_split_frequencies. run_method.
  destruct (__split_freqs self) as [freqs|] eqn:Hfreqs; cbn [orb].
  - destruct (Z.eqb_spec (__trees_counted_for_freqs self) (total_trees_counted self))
      as [Heq|Hne]; cbn [negb].
    + eexists. split; [rewrite Hfreqs, (Hcache freqs eq_refl Heq); reflexivity|].
      split; [|repeat split]. split; [exact Hstamp|]. intros f. rewrite Hfreqs. auto.
    + rewrite calc_freqs_run. cbn. eexists. split; [reflexivity|].
      split; [|repeat split]. split; cbn; [lia|]. now intros f [= <-] _.
  - rewrite calc_freqs_run. cbn. eexists. split; [reflexivity|].
    split; [|repeat split]. split; cbn; [lia|]. now intros f [= <-] _.
Qed.

(** The cache is sound all along the lifetime of a distribution. *)
Lemma lifetime_cache_sound `{DictOrder} (self : SplitDistribution) :
  lifetime self -> cache_sound self.
Proof.
  induction 1 as [taxa_block|self tree Hlife IH|self Hlife IH|self Hlife IH
                 |self b1 b2 b3 Hlife IH].
  - split; cbn; [lia|discriminate].
  - destruct IH as [Hstamp _].
    pose proof (count_splits_on_tree_frame tree self) as Hframe.
    remember (count_splits_on_tree tree self).2 as self' eqn:Hself'. clear Hself'.
    destruct Hframe as (Htotal & _ & _ & _ & _ & _ & Hst).
    cbn in Htotal, Hst. split; [lia|]. intros freqs _ Heq. lia.
  - rewrite calc_freqs_run. cbn [snd]. split; cbn; [lia|]. now intros f [= <-] _.
  - destruct (get_split_frequencies_run self IH) as (self' & -> & Hsound & _). exact Hsound.
  - exact IH.
Qed.

(** C7: at every point of the lifetime of a distribution, a query of
    [split_frequencies] returns the table that [calc_freqs] computes at that
    point: for each observed split, its count divided by
    [total_trees_counted], or by one when that is zero. *)
Theorem split_frequencies_fresh `{DictOrder} (self : SplitDistribution) :
  lifetime self ->
  exists freqs,
    (_get_split_frequencies self).1 = Ok (Some freqs) /\
    (calc_freqs self).1 = Ok freqs /\
    (forall split,
        freqs !! split =
          (fun count =>
             float_div count
               (if total_trees_counted self =? 0 then 1 else total_trees_counted self))
          <$> split_counts self !! split) /\
    split_counts (_get_split_frequencies self).2 = split_counts self /\
    total_trees_counted (_get_split_frequencies self).2 = total_trees_counted self.
Proof.
  intros Hlife. apply lifetime_cache_sound in Hlife.
  destruct (get_split_frequencies_run self Hlife)
    as (self' & Hquery & _ & Htotal & _ & Hcounts & _).
  exists (frequencies self). rewrite Hquery, calc_freqs_run. cbn [fst snd].
  split; [reflexivity|]. split; [reflexivity|]. split; [|auto].
  intros split. unfold frequencies. now rewrite lookup_fmap.
Qed.

Lemma split_frequencies_fresh_witness :
  lifetime (H := map_order) counted_twice /\
  exists freqs,
    (@_get_split_frequencies map_order counted_twice).1 = Ok (Some freqs) /\
    (@calc_freqs map_order counted_twice).1 = Ok freqs.
Proof.
  assert (lifetime (H := map_order) counted_twice) as Hlife.
  { unfold counted_twice. do 2 apply lifetime_count. apply lifetime_init. }
  split; [exact Hlife|].
  destruct (@split_frequencies_fresh map_order counted_twice Hlife)
    as (freqs & Hquery & Hcalc & _).
  exists freqs. split; [exact Hquery|exact Hcalc].
Defined.

(** [tree1] counted twice: every split has frequency one, also when the
    cache was filled after the first tree and is stale at the query. *)
Example counted_twice_frequencies :
  let stale := (@_get_split_frequencies map_order
                  (@count_splits_on_tree map_order tree1 fresh).2).2 in
  let self := (@count_splits_on_tree map_order tree1 stale).2 in
  total_trees_counted self = 2 /\
  __trees_counted_for_freqs self = 1 /\
  match (@_get_split_frequencies map_order self).1 with
  | Ok (Some freqs) =>
      (@calc_freqs map_order self).1 = Ok freqs /\ freqs !! 12 = Some (2 # 2)%Q
  | _ => False
  end.
Proof. vm_compute. repeat split. Qed.

End DistributionFacts.

Module BitUtilMoreFacts.
Import BitUtil BitSpec BitSpecMore BitUtilFacts TaxaList EncoderFacts.

(** ** [number_to_bitstring] and the length of a rendering *)

Lemma bitstring_value_from_app (s t : string) :
  forall acc : Z,
    bitstring_value_from acc (s ++ t) =
      bitstring_value_from (bitstring_value_from acc s) t.
Proof.
  induction s as [|c s IH]; intros acc; [reflexivity|].
  rewrite append_cons. cbn [bitstring_value_from]. apply IH.
Qed.

Lemma bitstring_value_pos (p : positive) :
  bitstring_value (number_to_bitstring_pos p) = Z.pos p.
Proof.
  unfold bitstring_value.
  induction p as [q IH|q IH|]; cbn [number_to_bitstring_pos].
  - rewrite bitstring_value_from_app, IH, Pos2Z.inj_xI. reflexivity.
  - rewrite bitstring_value_from_app, IH, Pos2Z.inj_xO. cbn. lia.
  - reflexivity.
Qed.

Lemma string_length_app (s t : string) :
  String.length (s ++ t) = (String.length s + String.length t)%nat.
Proof. now rewrite !chars_length, chars_app, length_app. Qed.

Lemma number_to_bitstring_pos_length (p : positive) :
  String.length (number_to_bitstring_pos p) = Pos.to_nat (Pos.size p).
Proof.
  induction p as [q IH|q IH|]; cbn [number_to_bitstring_pos Pos.size];
    [| |reflexivity];
    rewrite string_length_app, IH, Pos2Nat.inj_succ; cbn [String.length]; lia.
Qed.

Lemma bit_length_pos (p : positive) : bit_length (Z.pos p) = Pos.to_nat (Pos.size p).
Proof.
  unfold bit_length. change (Z.pos p >? 0) with true. cbn iota.
  destruct p as [q|q|]; cbn [Z.log2 Pos.size]; lia.
Qed.

Lemma number_to_bitstring_pos_head (p : positive) :
  exists rest, number_to_bitstring_pos p = String "1" rest.
Proof.
  induction p as [q [rest IH]|q [rest IH]|]; cbn [number_to_bitstring_pos];
    rewrite ?IH, ?append_cons; eauto.
Qed.

Lemma number_to_bitstring_length (num : Z) :
  String.length (number_to_bitstring num) = bit_length num.
Proof.
  destruct num as [|p|p]; try reflexivity. cbn [number_to_bitstring].
  now rewrite number_to_bitstring_pos_length, bit_length_pos.
Qed.

(** X1: the bit string of a number, read back as a binary numeral, is the
    number itself, or zero for a number below zero; it has as many digits
    as the number has bits, none for zero and below, and a non-empty one
    starts with the digit 1. *)
Theorem number_to_bitstring_roundtrip (num : Z) :
  bitstring_value (number_to_bitstring num) = Z.max 0 num /\
  String.length (number_to_bitstring num) = bit_length num /\
  (forall c, String.get 0 (number_to_bitstring num) = Some c -> c = "1"%char).
Proof.
  destruct num as [|p|p]; cbn [number_to_bitstring].
  - repeat split. intros c Hc. discriminate Hc.
  - split; [rewrite bitstring_value_pos; lia|].
    split; [apply (number_to_bitstring_length (Z.pos p))|].
    destruct (number_to_bitstring_pos_head p) as [rest ->]. cbn. congruence.
  - repeat split. intros c Hc. discriminate Hc.
Qed.

Lemma replace_char_length (old new : ascii) (s : string) :
  String.length (replace old (String new EmptyString) s) = String.length s.
Proof. now rewrite !chars_length, chars_replace, length_map. Qed.

(** X2: with one-character symbols, the rendering of [split_as_string] is as
    long as the taxa block, or as the bit string of the mask when that is
    longer: nothing is cut off, whatever the mask. *)
Theorem split_as_string_length {T : Type} (split_mask : Z) (taxa_block : list T)
    (symbol1 symbol2 : ascii) :
  String.length (split_as_string split_mask taxa_block
                   (String symbol1 EmptyString) (String symbol2 EmptyString)) =
    Nat.max (length taxa_block) (bit_length split_mask).
Proof.
  unfold split_as_string. rewrite !replace_char_length. unfold rjust.
  rewrite string_length_app, (chars_length (repeat_char _ _)), chars_repeat_char,
    length_replicate, number_to_bitstring_length. lia.
Qed.





(** ** [iter_split_indices] with a mask and with both ordinations *)

Lemma set_bits_succ_length (n : nat) :
  forall (mask i : Z),
    length (set_bits (S n) mask i) =
      (length (set_bits n mask i) + if Z.testbit mask (Z.of_nat n) then 1 else 0)%nat.
Proof.
  induction n as [|n IH]; intros mask i.
  - cbn [set_bits]. rewrite app_nil_r. change (Z.of_nat 0) with 0.
    rewrite Z.bit0_odd. destruct (Z.odd mask); reflexivity.
  - change (set_bits (S (S n)) mask i)
      with ((if Z.odd mask then [i] else []) ++ set_bits (S n) (Z.div2 mask) (i + 1)).
    change (set_bits (S n) mask i)
      with ((if Z.odd mask then [i] else []) ++ set_bits n (Z.div2 mask) (i + 1)).
    rewrite !length_app, IH.
    rewrite Z.div2_spec, Z.shiftr_spec by lia.
    replace (Z.of_nat n + 1) with (Z.of_nat (S n)) by lia. lia.
Qed.

Lemma rank_succ (mask p : Z) :
  0 <= p -> rank mask (p + 1) = rank mask p + if Z.testbit mask p then 1 else 0.
Proof.
  intros Hp. unfold rank.
  replace (Z.to_nat (p + 1)) with (S (Z.to_nat p)) by lia.
  rewrite set_bits_succ_length, Z2Nat.id by lia.
  destruct (Z.testbit mask p); lia.
Qed.

Lemma land_pow2_eqb_testbit (M k : Z) :
  0 <= k -> (Z.land M (2 ^ k) =? 0) = negb (Z.testbit M k).
Proof. intros Hk. now rewrite land_pow2_eqb, <- Z.testbit_odd. Qed.

(** The loop of [iter_split_indices], entered at [test_bit = 2^k]: it yields
    the indices of the set bits of the masked split from [k] on. *)
Lemma iter_split_indices_loop_general (n : nat) :
  forall (fuel : nat) (k M mask idx : Z) (standard_ordination : bool),
    0 <= k -> 0 <= M -> Z.shiftr M k < 2 ^ Z.of_nat n -> (n <= fuel)%nat ->
    iter_split_indices_loop fuel M mask standard_ordination (2 ^ k) idx =
      Some (map (index_at mask standard_ordination k idx)
              (set_bits n (Z.shiftr M k) k)).
Proof.
  induction n as [|n IH]; intros fuel k M mask idx std Hk HM Hlt Hfuel.
  - change (2 ^ Z.of_nat 0) with 1 in Hlt.
    assert (0 <= Z.shiftr M k) by (apply Z.shiftr_nonneg; lia).
    assert (Z.shiftr M k = 0) as Hz by lia.
    rewrite Z.shiftr_div_pow2 in Hz by lia.
    assert (0 < 2 ^ k) by (apply Z.pow_pos_nonneg; lia).
    apply Z.div_small_iff in Hz; [|lia].
    destruct fuel; cbn [iter_split_indices_loop set_bits map];
      destruct (Z.leb_spec (2 ^ k) M); try lia; reflexivity.
  - assert (0 < 2 ^ k) by (apply Z.pow_pos_nonneg; lia).
    destruct (Z.leb_spec (2 ^ k) M) as [Hle|Hgt].
    + destruct fuel as [|fuel]; [lia|].
      cbn [iter_split_indices_loop]. destruct (Z.leb_spec (2 ^ k) M); [|lia].
      rewrite Z.shiftl_mul_pow2, Z.pow_1_r by lia.
      replace (2 ^ k * 2) with (2 ^ (k + 1)) by (rewrite Z.pow_add_r; lia).
      rewrite Nat2Z.inj_succ, Z.pow_succ_r in Hlt by lia.
      assert (Z.shiftr M (k + 1) = Z.div2 (Z.shiftr M k)) as Hsh.
      { rewrite Z.div2_spec, Z.shiftr_shiftr by lia. reflexivity. }
      rewrite IH; try lia.
      * cbn [option_map set_bits]. rewrite map_app, <- Hsh. f_equal. f_equal.
        -- rewrite land_pow2_eqb by lia.
           destruct (Z.odd (Z.shiftr M k)); cbn [negb map]; [|reflexivity].
           unfold index_at. f_equal. destruct std; lia.
        -- apply map_ext. intros p. unfold index_at.
           rewrite land_pow2_eqb_testbit by lia. rewrite negb_involutive.
           destruct std; cbn [orb]; [lia|].
           rewrite (rank_succ mask k) by lia. destruct (Z.testbit mask k); lia.
      * rewrite Hsh, Z.div2_div. apply Z.div_lt_upper_bound; lia.
    + assert (Z.shiftr M k = 0) as ->.
      { rewrite Z.shiftr_div_pow2 by lia. apply Z.div_small. lia. }
      rewrite set_bits_zero.
      destruct fuel; cbn [iter_split_indices_loop map];
        destruct (Z.leb_spec (2 ^ k) M); try lia; reflexivity.
Qed.

Lemma elem_of_set_bits (n : nat) :
  forall (m k i : Z),
    i ∈ set_bits n m k <-> k <= i < k + Z.of_nat n /\ Z.testbit m (i - k) = true.
Proof.
  induction n as [|n IH]; intros m k i.
  - cbn [set_bits]. rewrite elem_of_nil. lia.
  - cbn [set_bits]. rewrite elem_of_app, IH. 
    assert ((i ∈ if Z.odd m then [k] else []) <-> i = k /\ Z.odd m = true) as ->.
    { destruct (Z.odd m); [rewrite list_elem_of_singleton|rewrite elem_of_nil];
        intuition congruence. }
    rewrite <- Z.bit0_odd. split.
    + intros [[-> Hodd]|[Hrange Hbit]].
      * split; [lia|]. now rewrite Z.sub_diag.
      * split; [lia|]. rewrite Z.div2_spec, Z.shiftr_spec in Hbit by lia.
        now replace (i - (k + 1) + 1) with (i - k) in Hbit by lia.
    + intros [Hrange Hbit]. destruct (Z.eq_dec i k) as [->|Hne].
      * left. split; [reflexivity|]. now rewrite Z.sub_diag in Hbit.
      * right. split; [lia|]. rewrite Z.div2_spec, Z.shiftr_spec by lia.
        now replace (i - (k + 1) + 1) with (i - k) by lia.
Qed.

Lemma set_bits_sorted (n : nat) :
  forall m k : Z, StronglySorted Z.lt (set_bits n m k).
Proof.
  induction n as [|n IH]; intros m k; [constructor|].
  cbn [set_bits]. destruct (Z.odd m); cbn [app]; [|apply IH].
  constructor; [apply IH|]. apply Forall_forall. intros i Hi.
  apply elem_of_set_bits in Hi. lia.
Qed.

Lemma StronglySorted_map_add (base : Z) (l : list Z) :
  StronglySorted Z.lt l -> StronglySorted Z.lt (map (Z.add base) l).
Proof.
  induction 1 as [|x l Hsorted IH Hall]; cbn [map]; constructor; [exact IH|].
  apply Forall_forall. intros y Hy. apply list_elem_of_In, in_map_iff in Hy
    as (z & <- & Hz). apply list_elem_of_In in Hz.
  rewrite Forall_forall in Hall. specialize (Hall z Hz). lia.
Qed.

Lemma testbit_above (M : Z) (n : nat) (p : Z) :
  0 <= M < 2 ^ Z.of_nat n -> Z.of_nat n <= p -> Z.testbit M p = false.
Proof.
  intros [H0 Hlt] Hp. destruct (Z.eq_dec M 0) as [->|Hne]; [apply Z.bits_0|].
  apply Z.bits_above_log2; [lia|].
  assert (Z.log2 M < Z.of_nat n) by (apply Z.log2_lt_pow2; lia). lia.
Qed.

(** X4: with the standard ordination, [split_to_list] returns, in
    increasing order and each once, exactly the positions of the bits set in
    both the split and the mask, counted from one when [one_based] is set;
    when the split and the mask have a negative AND it returns no index at
    all. *)
Theorem split_to_list_standard (fuel : nat) (s mask : Z) (one_based : bool) :
  Z.land s mask < 2 ^ Z.of_nat fuel ->
  let base := if one_based then 1 else 0 in
  exists l,
    split_to_list fuel s mask one_based false = Some l /\
    StronglySorted Z.lt l /\
    (Z.land s mask < 0 -> l = []) /\
    (0 <= Z.land s mask ->
     forall i, i ∈ l <-> base <= i /\ Z.testbit (Z.land s mask) (i - base) = true).
Proof.
  intros Hlt base. unfold split_to_list, iter_split_indices. cbn [negb]. fold base.
  destruct (Z.ltb_spec (Z.land s mask) 0) as [Hneg|Hpos].
  - exists []. split; [|split; [constructor|split; [reflexivity|lia]]].
    destruct fuel; cbn [iter_split_indices_loop];
      destruct (Z.leb_spec 1 (Z.land s mask)); try lia; reflexivity.
  - pose proof (iter_split_indices_loop_general fuel fuel 0 (Z.land s mask) mask base true)
      as Hloop.
    rewrite Z.shiftr_0_r in Hloop. change (2 ^ 0) with 1 in Hloop.
    rewrite Hloop by lia. clear Hloop.
    assert (map (index_at mask true 0 base) (set_bits fuel (Z.land s mask) 0) =
            map (Z.add base) (set_bits fuel (Z.land s mask) 0)) as ->.
    { apply map_ext. intros p. unfold index_at. lia. }
    eexists. split; [reflexivity|]. split; [|split; [lia|]].
    + apply StronglySorted_map_add, set_bits_sorted.
    + intros _ i. rewrite list_elem_of_In, in_map_iff. split.
      * intros (p & <- & Hp). apply list_elem_of_In, elem_of_set_bits in Hp.
        replace (base + p - base) with (p - 0) by lia. split; [lia|apply Hp].
      * intros [Hbase Hbit]. exists (i - base). split; [lia|].
        apply list_elem_of_In, elem_of_set_bits. rewrite Z.sub_0_r.
        split; [|exact Hbit]. split; [lia|].
        destruct (Z.lt_ge_cases (i - base) (Z.of_nat fuel)) as [Hin|Hout]; [lia|].
        rewrite (testbit_above (Z.land s mask) fuel) in Hbit by lia. discriminate Hbit.
Qed.

Lemma split_to_list_standard_witness :
  Z.land 13 6 < 2 ^ Z.of_nat 3 /\
  exists l, split_to_list 3 13 6 true false = Some l /\
            (forall i, i ∈ l <-> 1 <= i /\ Z.testbit (Z.land 13 6) (i - 1) = true).
Proof.
  split; [by_evaluation|].
  destruct (split_to_list_standard 3 13 6 true) as (l & Hl & _ & _ & Hin);
    [by_evaluation|].
  exists l. split; [exact Hl|]. apply Hin. by_evaluation.
Defined.

(** X5: with [ordination_in_mask] the indices are those of the standard
    ordination, each replaced by the number of bits of the mask below that
    position (plus one when [one_based] is set): the index of the taxon
    within the taxa the mask selects. *)
Theorem split_to_list_ordination_in_mask (fuel : nat) (s mask : Z) (one_based : bool) :
  0 <= Z.land s mask < 2 ^ Z.of_nat fuel ->
  exists positions,
    split_to_list fuel s mask false false = Some positions /\
    split_to_list fuel s mask one_based true =
      Some (map (fun p => (if one_based then 1 else 0) + rank mask p) positions).
Proof.
  intros [H0 Hlt]. unfold split_to_list, iter_split_indices. cbn [negb].
  pose proof (iter_split_indices_loop_general fuel fuel 0 (Z.land s mask) mask) as Hloop.
  rewrite Z.shiftr_0_r in Hloop. change (2 ^ 0) with 1 in Hloop.
  rewrite !Hloop by lia. clear Hloop.
  exists (set_bits fuel (Z.land s mask) 0). split.
  - f_equal. rewrite <- (map_id (set_bits fuel (Z.land s mask) 0)) at 2.
    apply map_ext. intros p. unfold index_at. lia.
  - f_equal. apply map_ext. intros p. unfold index_at.
    change (rank mask 0) with 0. lia.
Qed.

Lemma split_to_list_ordination_in_mask_witness :
  (0 <= Z.land 12 13 < 2 ^ Z.of_nat 4) /\
  split_to_list 4 12 13 false false = Some [2; 3] /\
  split_to_list 4 12 13 false true = Some [1; 2].
Proof.
  split; [by_evaluation|]. split; [reflexivity|].
  destruct (split_to_list_ordination_in_mask 4 12 13 false) as (positions & Hp & Hr);
    [by_evaluation|].
  rewrite Hr. assert (positions = [2; 3]) as -> by (cbv in Hp; congruence).
  reflexivity.
Defined.

(** ** [count_bits] and [split_to_list] together *)

Lemma popcount_set_bits (n : nat) :
  forall (m k : Z),
    0 <= m < 2 ^ Z.of_nat n -> popcount m = Z.of_nat (length (set_bits n m k)).
Proof.
  induction n as [|n IH]; intros m k [H0 Hlt].
  - change (2 ^ Z.of_nat 0) with 1 in Hlt. assert (m = 0) as -> by lia. reflexivity.
  - rewrite Nat2Z.inj_succ, Z.pow_succ_r in Hlt by lia.
    destruct m as [|p|p]; [|destruct p as [q|q|]|lia].
    + now rewrite set_bits_zero.
    + assert (0 <= Z.pos q < 2 ^ Z.of_nat n) as Hq
          by (rewrite Pos2Z.inj_xI in Hlt; lia).
      change (set_bits (S n) (Z.pos q~1) k) with (k :: set_bits n (Z.pos q) (k + 1)).
      cbn [length]. rewrite Nat2Z.inj_succ, <- (IH _ _ Hq).
      cbn [popcount popcount_pos]. lia.
    + assert (0 <= Z.pos q < 2 ^ Z.of_nat n) as Hq
          by (rewrite Pos2Z.inj_xO in Hlt; lia).
      change (set_bits (S n) (Z.pos q~0) k) with (set_bits n (Z.pos q) (k + 1)).
      rewrite <- (IH _ _ Hq). reflexivity.
    + change (set_bits (S n) 1 k) with (k :: set_bits n 0 (k + 1)).
      now rewrite set_bits_zero.
Qed.

Lemma count_bits_int (v : Z) (fuel : nat) :
  0 <= v < 2 ^ (4 * Z.of_nat fuel) ->
  count_bits fuel (PyInt v) = Some (Ok (popcount v)).
Proof.
  intros Hv. unfold count_bits. cbn [long long_ne]. rewrite Z.eqb_refl. cbn [negb].
  destruct (Z.ltb_spec v 1) as [Hlt|Hge].
  - assert (v = 0) as -> by lia. reflexivity.
  - rewrite count_bits_loop_correct by exact Hv. reflexivity.
Qed.

(** X6: for a non-negative split, [count_bits] returns the number of indices
    that [split_to_list] returns. *)
Theorem count_bits_split_to_list (fuel : nat) (s : Z) :
  0 <= s < 2 ^ Z.of_nat fuel ->
  exists l,
    split_to_list fuel s (-1) false false = Some l /\
    count_bits fuel (PyInt s) = Some (Ok (Z.of_nat (length l))).
Proof.
  intros [H0 Hlt]. exists (set_bits fuel s 0). split.
  - unfold split_to_list, iter_split_indices. rewrite Z.land_m1_r. cbn [negb].
    pose proof (iter_split_indices_loop_correct fuel fuel 0 s) as Hloop.
    rewrite Z.shiftr_0_r in Hloop. change (2 ^ 0) with 1 in Hloop. apply Hloop; lia.
  - rewrite count_bits_int.
    + now rewrite (popcount_set_bits fuel s 0).
    + split; [lia|]. eapply Z.lt_le_trans; [exact Hlt|].
      apply Z.pow_le_mono_r; lia.
Qed.

Lemma count_bits_split_to_list_witness :
  (0 <= 22 < 2 ^ Z.of_nat 5) /\
  exists l, split_to_list 5 22 (-1) false false = Some l /\
            count_bits 5 (PyInt 22) = Some (Ok (Z.of_nat (length l))).
Proof.
  split; [by_evaluation|]. apply (count_bits_split_to_list 5 22). by_evaluation.
Defined.

(** ** [is_non_singleton_split] on both sides of a split *)

(** X7: [is_non_singleton_split] gives a split and its complement within
    the mask the same truth value, for all integers. *)
Theorem is_non_singleton_split_complement (s m : Z) :
  truthy (is_non_singleton_split s m) = truthy (is_non_singleton_split (Z.lxor s m) m).
Proof.
  apply eq_true_iff_eq. unfold is_non_singleton_split.
  rewrite !truthy_py_and, Z.lxor_assoc, Z.lxor_nilpotent, Z.lxor_0_r. tauto.
Qed.

Lemma land_pred_pow2 (k : Z) : 0 <= k -> Z.land (2 ^ k - 1) (2 ^ k) = 0.
Proof.
  intros Hk. rewrite Z.sub_1_r, <- Z.ones_equiv, Z.land_comm, Z.land_ones by lia.
  apply Z_mod_same_full.
Qed.

(** X8: the result of [is_non_singleton_split] is zero when the split, or
    its complement within the mask, is empty or has a single bit. *)
Theorem is_non_singleton_split_trivial (s m : Z) :
  (s = 0 \/ s = m \/
   (exists k, 0 <= k /\ s = 2 ^ k) \/ (exists k, 0 <= k /\ Z.lxor s m = 2 ^ k)) ->
  is_non_singleton_split s m = 0.
Proof.
  unfold is_non_singleton_split, py_and.
  intros [->|[->|[(k & Hk & ->)|(k & Hk & Hx)]]].
  - reflexivity.
  - rewrite Z.lxor_nilpotent. destruct (_ =? 0) eqn:Hz; [|reflexivity].
    now apply Z.eqb_eq in Hz.
  - now rewrite land_pred_pow2 by exact Hk.
  - rewrite Hx, (land_pred_pow2 k Hk). destruct (_ =? 0) eqn:Hz; [|reflexivity].
    now apply Z.eqb_eq in Hz.
Qed.

Lemma is_non_singleton_split_trivial_witness :
  (14 = 0 \/ 14 = 15 \/
   (exists k, 0 <= k /\ 14 = 2 ^ k) \/ (exists k, 0 <= k /\ Z.lxor 14 15 = 2 ^ k)) /\
  is_non_singleton_split 14 15 = 0.
Proof.
  assert (14 = 0 \/ 14 = 15 \/
          (exists k, 0 <= k /\ 14 = 2 ^ k) \/
          (exists k, 0 <= k /\ Z.lxor 14 15 = 2 ^ k)) as Hcase.
  { right. right. right. exists 0. split; [lia|reflexivity]. }
  split; [exact Hcase|]. exact (is_non_singleton_split_trivial 14 15 Hcase).
Defined.

(** ** [split_taxa_list] *)

Lemma land_1_eqb (m : Z) : (Z.land m 1 =? 0) = negb (Z.odd m).
Proof.
  change 1 with (2 ^ 0) at 1. rewrite land_pow2_eqb_testbit by lia.
  now rewrite Z.bit0_odd.
Qed.

Lemma list_getitem_inside {T : Type} (l : list T) (index : Z) :
  0 <= index < Z.of_nat (length l) ->
  exists x, l !! Z.to_nat index = Some x /\ list_getitem l index = Found x.
Proof.
  intros [H0 Hlt]. unfold list_getitem.
  destruct (Z.ltb_spec index 0); [lia|]. destruct (Z.ltb_spec index 0); [lia|].
  destruct (lookup_lt_is_Some_2 l (Z.to_nat index)) as [x Hx]; [lia|].
  exists x. now rewrite Hx.
Qed.

Lemma list_getitem_beyond {T : Type} (l : list T) (index : Z) :
  Z.of_nat (length l) <= index -> list_getitem l index = IndexError.
Proof.
  intros Hge. unfold list_getitem.
  destruct (Z.ltb_spec index 0); [lia|]. destruct (Z.ltb_spec index 0); [lia|].
  now rewrite lookup_ge_None_2 by lia.
Qed.

Lemma set_bits_shift (n : nat) :
  forall (m i d : Z), set_bits n m (d + i) = map (Z.add d) (set_bits n m i).
Proof.
  induction n as [|n IH]; intros m i d; [reflexivity|].
  cbn [set_bits]. rewrite map_app, <- IH.
  replace (d + i + 1) with (d + (i + 1)) by lia.
  destruct (Z.odd m); reflexivity.
Qed.

(** The loop on a mask within the taxa block: it appends the taxa at the
    positions of the set bits. *)
Lemma split_taxa_list_loop_found {T : Type} (taxa_block : list T) (k : nat) :
  forall (fuel : nat) (split_mask index : Z) (taxa : list T),
    0 <= split_mask < 2 ^ Z.of_nat k -> 0 <= index ->
    index + Z.of_nat k <= Z.of_nat (length taxa_block) -> (k <= fuel)%nat ->
    exists found,
      split_taxa_list_loop fuel split_mask taxa_block index taxa =
        Some (Found (taxa ++ found)) /\
      Forall2 (fun i t => taxa_block !! Z.to_nat i = Some t)
        (set_bits k split_mask index) found.
Proof.
  induction k as [|k IH]; intros fuel split_mask index taxa [H0 Hlt] Hindex Hfit Hfuel.
  - change (2 ^ Z.of_nat 0) with 1 in Hlt. assert (split_mask = 0) as -> by lia.
    exists []. rewrite app_nil_r. split; [destruct fuel; reflexivity|constructor].
  - rewrite Nat2Z.inj_succ, Z.pow_succ_r in Hlt by lia.
    destruct (Z.eqb_spec split_mask 0) as [->|Hne].
    + exists []. rewrite app_nil_r, set_bits_zero.
      split; [destruct fuel; reflexivity|constructor].
    + destruct fuel as [|fuel]; [lia|]. cbn [split_taxa_list_loop set_bits].
      destruct (Z.eqb_spec split_mask 0); [contradiction|].
      rewrite land_1_eqb, negb_involutive, <- Z.div2_spec.
      assert (0 <= Z.div2 split_mask < 2 ^ Z.of_nat k) as Hhalf.
      { rewrite Z.div2_div. split; [apply Z.div_pos|apply Z.div_lt_upper_bound]; lia. }
      destruct (Z.odd split_mask).
      * destruct (list_getitem_inside taxa_block index) as (t & Ht & ->); [lia|].
        destruct (IH fuel (Z.div2 split_mask) (index + 1) (taxa ++ [t]))
          as (found & Hrun & Hall); try lia.
        exists (t :: found). split.
        -- rewrite Hrun, <- app_assoc. reflexivity.
        -- constructor; [exact Ht|exact Hall].
      * destruct (IH fuel (Z.div2 split_mask) (index + 1) taxa)
          as (found & Hrun & Hall); try lia.
        exists found. split; [exact Hrun|exact Hall].
Qed.

(** X9: for a mask whose bits all stand for taxa of the block, counted from
    [index], [split_taxa_list] returns the taxa at the indices that
    [split_to_list] returns for the mask, in that order. *)
Theorem split_taxa_list_found {T : Type} (taxa_block : list T) (k fuel : nat)
    (split_mask index : Z) :
  0 <= split_mask < 2 ^ Z.of_nat k -> 0 <= index ->
  index + Z.of_nat k <= Z.of_nat (length taxa_block) -> (k <= fuel)%nat ->
  exists bits taxa,
    split_to_list fuel split_mask (-1) false false = Some bits /\
    split_taxa_list fuel split_mask taxa_block index = Some (Found taxa) /\
    Forall2 (fun i t => taxa_block !! Z.to_nat (index + i) = Some t) bits taxa.
Proof.
  intros Hmask Hindex Hfit Hfuel.
  destruct (split_taxa_list_loop_found taxa_block k fuel split_mask index [] Hmask
              Hindex Hfit Hfuel) as (taxa & Hrun & Hall).
  exists (set_bits k split_mask 0), taxa. split; [|split].
  - unfold split_to_list, iter_split_indices. rewrite Z.land_m1_r. cbn [negb].
    pose proof (iter_split_indices_loop_correct k fuel 0 split_mask) as Hloop.
    rewrite Z.shiftr_0_r in Hloop. change (2 ^ 0) with 1 in Hloop. apply Hloop; lia.
  - exact Hrun.
  - replace index with (index + 0) in Hall by lia. rewrite set_bits_shift in Hall.
    clear -Hall. remember (set_bits k split_mask 0) as bits eqn:Hbits. clear Hbits.
    revert taxa Hall. induction bits as [|i bits IH]; intros taxa Hall.
    + cbn in Hall. apply Forall2_nil_inv_l in Hall as ->. constructor.
    + cbn [map] in Hall. apply Forall2_cons_inv_l in Hall as (t & taxa' & Ht & Hall & ->).
      constructor; [exact Ht|now apply IH].
Qed.

Lemma split_taxa_list_found_witness :
  (0 <= 5 < 2 ^ Z.of_nat 3 /\ 0 <= 1 /\
   1 + Z.of_nat 3 <= Z.of_nat (length ["A"; "B"; "C"; "D"]%string) /\ (3 <= 3)%nat) /\
  split_taxa_list 3 5 ["A"; "B"; "C"; "D"]%string 1 = Some (Found ["B"; "D"]%string).
Proof.
  split; [by_evaluation|].
  destruct (split_taxa_list_found ["A"; "B"; "C"; "D"]%string 3 3 5 1)
    as (bits & taxa & _ & Hrun & _); try by_evaluation.
  reflexivity.
Defined.

(** The loop on a mask with a bit beyond the taxa block. *)
Lemma split_taxa_list_loop_beyond {T : Type} (taxa_block : list T) (p : nat) :
  forall (fuel : nat) (split_mask index : Z) (taxa : list T),
    0 <= index -> Z.testbit split_mask (Z.of_nat p) = true ->
    Z.of_nat (length taxa_block) <= index + Z.of_nat p -> (p < fuel)%nat ->
    split_taxa_list_loop fuel split_mask taxa_block index taxa = Some IndexError.
Proof.
  induction p as [|p IH]; intros fuel split_mask index taxa Hindex Hbit Hout Hfuel;
    (destruct fuel as [|fuel]; [lia|]); cbn [split_taxa_list_loop];
    (destruct (Z.eqb_spec split_mask 0) as [->|Hne];
     [rewrite Z.bits_0 in Hbit; discriminate Hbit|]);
    rewrite land_1_eqb, negb_involutive.
  - change (Z.of_nat 0) with 0 in *. rewrite Z.bit0_odd in Hbit. rewrite Hbit.
    now rewrite list_getitem_beyond by lia.
  - assert (Z.testbit (Z.shiftr split_mask 1) (Z.of_nat p) = true) as Hbit'.
    { rewrite Z.shiftr_spec by lia. now replace (Z.of_nat p + 1) with (Z.of_nat (S p)) by lia. }
    destruct (Z.odd split_mask).
    + destruct (Z.lt_ge_cases index (Z.of_nat (length taxa_block))) as [Hin|Hge].
      * destruct (list_getitem_inside taxa_block index) as (t & _ & ->); [lia|].
        apply IH; try assumption; lia.
      * now rewrite list_getitem_beyond.
    + apply IH; try assumption; lia.
Qed.

(** X10: when the mask has a bit that stands, counted from [index], for a
    position beyond the taxa block, [split_taxa_list] raises [IndexError]
    and returns no list, not even a shorter one. *)
Theorem split_taxa_list_beyond {T : Type} (taxa_block : list T) (p fuel : nat)
    (split_mask index : Z) :
  0 <= index -> Z.testbit split_mask (Z.of_nat p) = true ->
  Z.of_nat (length taxa_block) <= index + Z.of_nat p -> (p < fuel)%nat ->
  split_taxa_list fuel split_mask taxa_block index = Some IndexError.
Proof. intros. now apply (split_taxa_list_loop_beyond taxa_block p). Qed.

Lemma split_taxa_list_beyond_witness :
  (0 <= 0 /\ Z.testbit 9 (Z.of_nat 3) = true /\
   Z.of_nat (length ["A"; "B"; "C"]%string) <= 0 + Z.of_nat 3 /\ (3 < 4)%nat) /\
  split_taxa_list 4 9 ["A"; "B"; "C"]%string 0 = Some IndexError.
Proof.
  split; [repeat split; by_evaluation|].
  apply (split_taxa_list_beyond ["A"; "B"; "C"]%string 3 4 9 0); by_evaluation.
Defined.

(** X11: on a negative mask, [split_taxa_list] raises [IndexError] whatever
    the taxa block, given fuel to reach the end of the block: it never
    returns a list. *)
Theorem split_taxa_list_negative {T : Type} (taxa_block : list T)
    (split_mask index : Z) :
  split_mask < 0 -> 0 <= index ->
  exists fuel0 : nat,
    forall fuel : nat,
      (fuel0 <= fuel)%nat ->
      split_taxa_list fuel split_mask taxa_block index = Some IndexError.
Proof.
  intros Hneg Hindex.
  set (p := Nat.max (length taxa_block) (S (Z.to_nat (Z.log2 (Z.abs split_mask))))).
  exists (S p). intros fuel Hfuel.
  apply (split_taxa_list_loop_beyond taxa_block p); try lia.
  apply Z.bits_iff_neg; [|exact Hneg].
  pose proof (Z.log2_nonneg (Z.abs split_mask)). lia.
Qed.

Lemma split_taxa_list_negative_witness :
  (-2 < 0 /\ 0 <= 0) /\
  exists fuel0 : nat,
    forall fuel : nat,
      (fuel0 <= fuel)%nat ->
      split_taxa_list fuel (-2) ["A"; "B"]%string 0 = Some IndexError.
Proof.
  split; [by_evaluation|].
  apply (split_taxa_list_negative ["A"; "B"]%string (-2) 0); by_evaluation.
Defined.

(** ** [count_bits] on floats and below zero *)

Lemma long_integral_float (q : Q) (v : Z) :
  (inject_Z v == q)%Q ->
  long (PyFloat q) = Ok v /\ long_ne v (PyFloat q) = false.
Proof.
  intros Heq. cbn [long long_ne]. split.
  - f_equal. unfold Qeq in Heq. cbn [inject_Z Qnum Qden] in Heq.
    replace (Qnum q) with (v * Z.pos (Qden q)) by lia.
    apply Z.quot_mul. discriminate.
  - apply negb_false_iff, Qeq_bool_iff, Heq.
Qed.

(** X12: a float whose value is an integer is counted by [count_bits] like
    that integer: the test [c != a] lets it pass. *)
Theorem count_bits_integral_float (q : Q) (v : Z) (fuel : nat) :
  (inject_Z v == q)%Q ->
  count_bits fuel (PyFloat q) = count_bits fuel (PyInt v).
Proof.
  intros Heq. destruct (long_integral_float q v Heq) as [Hlong Hne].
  unfold count_bits. rewrite Hlong, Hne. cbn [long long_ne].
  rewrite Z.eqb_refl. reflexivity.
Qed.

Lemma count_bits_integral_float_witness :
  (inject_Z 3 == 6 # 2)%Q /\
  count_bits 1 (PyFloat (6 # 2)) = count_bits 1 (PyInt 3).
Proof.
  split; [reflexivity|]. apply (count_bits_integral_float (6 # 2) 3 1). reflexivity.
Defined.

(** X13: on a float whose value is not an integer, below zero or not,
    [count_bits] raises [ValueError('non-integer argument')]. *)
Theorem count_bits_fractional_float (q : Q) (fuel : nat) :
  (~ exists v : Z, (inject_Z v == q)%Q) ->
  count_bits fuel (PyFloat q) = Some (Raise (ValueError "non-integer argument")).
Proof.
  intros Hfrac. unfold count_bits. cbn [long long_ne].
  destruct (Qeq_bool _ q) eqn:Heq; [|reflexivity].
  exfalso. apply Hfrac. eexists. apply Qeq_bool_iff, Heq.
Qed.

Lemma count_bits_fractional_float_witness :
  (~ exists v : Z, (inject_Z v == - (3 # 2))%Q) /\
  count_bits 0 (PyFloat (- (3 # 2))) = Some (Raise (ValueError "non-integer argument")).
Proof.
  assert (~ exists v : Z, (inject_Z v == - (3 # 2))%Q) as Hfrac.
  { intros [v Hv]. unfold Qeq in Hv. cbn in Hv. lia. }
  split; [exact Hfrac|]. exact (count_bits_fractional_float (- (3 # 2)) 0 Hfrac).
Defined.

(** X14: on an integer below zero, and on a float with such a value,
    [count_bits] raises [ValueError('negative argument')]. *)
Theorem count_bits_negative_value (a : pyvalue) (v : Z) (fuel : nat) :
  a = PyInt v \/ (exists q, a = PyFloat q /\ (inject_Z v == q)%Q) ->
  v < 0 ->
  count_bits fuel a = Some (Raise (ValueError "negative argument")).
Proof.
  intros Ha Hv.
  assert (count_bits fuel (PyInt v) = Some (Raise (ValueError "negative argument")))
    as Hint.
  { unfold count_bits. cbn [long long_ne]. rewrite Z.eqb_refl. cbn [negb].
    destruct (Z.ltb_spec v 1); [|lia]. destruct (Z.ltb_spec v 0); [reflexivity|lia]. }
  destruct Ha as [->|(q & -> & Heq)]; [exact Hint|].
  destruct (long_integral_float q v Heq) as [Hlong Hne].
  unfold count_bits. rewrite Hlong, Hne. unfold count_bits in Hint.
  cbn [long long_ne] in Hint. rewrite Z.eqb_refl in Hint. exact Hint.
Qed.

Lemma count_bits_negative_value_witness :
  (PyFloat (- (4 # 2)) = PyInt (-2) \/
   (exists q, PyFloat (- (4 # 2)) = PyFloat q /\ (inject_Z (-2) == q)%Q)) /\
  -2 < 0 /\
  count_bits 0 (PyFloat (- (4 # 2))) = Some (Raise (ValueError "negative argument")).
Proof.
  assert (PyFloat (- (4 # 2)) = PyInt (-2) \/
          (exists q, PyFloat (- (4 # 2)) = PyFloat q /\ (inject_Z (-2) == q)%Q)) as Ha.
  { right. exists (- (4 # 2))%Q. split; reflexivity. }
  assert (-2 < 0) as Hv by lia.
  split; [exact Ha|]. split; [exact Hv|].
  exact (count_bits_negative_value (PyFloat (- (4 # 2))) (-2) 0 Ha Hv).
Defined.

End BitUtilMoreFacts.

Module EncoderMoreFacts.
Import Encoder EncoderSpec EncoderFacts DistributionSpec Examples.

(** ** Encoding a tree again *)

Lemma taxon_index_elem (taxa_block : list string) (t : string) (i : nat) :
  taxon_index taxa_block t = Some i -> t ∈ taxa_block.
Proof.
  revert i. induction taxa_block as [|t' rest IH]; intros i Hi; [discriminate Hi|].
  cbn [taxon_index] in Hi. destruct (String.eqb_spec t' t) as [->|Hne]; [left|].
  destruct (taxon_index rest t) as [j|]; [|discriminate Hi]. right. now apply (IH j).
Qed.

Lemma taxon_bitmask_elem (taxa_block : list string) (t : string) (m : Z) :
  taxon_bitmask taxa_block t = Ok m -> t ∈ taxa_block.
Proof.
  unfold taxon_bitmask. destruct (taxon_index taxa_block t) as [i|] eqn:Hi;
    [|discriminate]. intros _. now apply (taxon_index_elem _ _ i).
Qed.

Lemma Forall2_lookup_agree (a1 a2 : gmap nat Z) (children : list nat)
    (masks1 masks2 : list Z) :
  Forall2 (fun child m => a1 !! child = Some m) children masks1 ->
  Forall2 (fun child m => a2 !! child = Some m) children masks2 ->
  (forall child, child ∈ children -> a1 !! child = a2 !! child) ->
  masks1 = masks2.
Proof.
  intros H1. revert masks2.
  induction H1 as [|c m1 cs ms1 Hc H1 IH]; intros masks2 H2 Hagree.
  - now apply Forall2_nil_inv_l in H2.
  - apply Forall2_cons_inv_l in H2 as (m2 & ms2 & Hc2 & H2 & ->).
    rewrite (Hagree c) in Hc by left. f_equal; [congruence|].
    apply IH; [exact H2|]. intros child Hin. apply Hagree. now right.
Qed.

(** The mask [mask_of_edge] asks for is fixed by the masks of the
    children. *)
Lemma mask_of_edge_agree (taxa_block : list string) (a1 a2 : gmap nat Z)
    (edge : EdgeRef) (m1 m2 : Z) :
  mask_of_edge taxa_block a1 edge -> mask_of_edge taxa_block a2 edge ->
  (forall node child, head_node edge.2 = Some node -> child ∈ child_nodes node ->
                      a1 !! child = a2 !! child) ->
  a1 !! edge.1 = Some m1 -> a2 !! edge.1 = Some m2 -> m1 = m2.
Proof.
  intros (node & Hhead & Hmask1) (node' & Hhead' & Hmask2) Hagree Hm1 Hm2.
  assert (node' = node) as -> by congruence. specialize (Hagree node).
  destruct (child_nodes node) as [|c cs].
  - destruct (taxon node) as [t|].
    + destruct Hmask1 as (x1 & Hb1 & Hx1), Hmask2 as (x2 & Hb2 & Hx2). congruence.
    + congruence.
  - destruct Hmask1 as (masks1 & HF1 & Hx1), Hmask2 as (masks2 & HF2 & Hx2).
    rewrite (Forall2_lookup_agree a1 a2 _ masks1 masks2 HF1 HF2) in Hx1
      by (intros child Hin; now apply Hagree).
    congruence.
Qed.

Lemma or_children_other (edge : nat) (children : list nat) :
  forall (attrs attrs' : gmap nat Z) (other : nat),
    or_children attrs edge children = Ok attrs' -> other <> edge ->
    attrs' !! other = attrs !! other.
Proof.
  induction children as [|child rest IH]; intros attrs attrs' other Hrun Hne.
  - cbn in Hrun. congruence.
  - cbn [or_children] in Hrun. unfold getattr_split_mask in Hrun.
    destruct (attrs !! edge) as [a|]; [|discriminate Hrun].
    destruct (attrs !! child) as [b|]; [|discriminate Hrun]. cbn [bind] in Hrun.
    rewrite (IH _ _ _ Hrun Hne). apply lookup_insert_ne. auto.
Qed.

Lemma set_split_mask_other (taxa_block : list string) (attrs attrs' : gmap nat Z)
    (edge : EdgeRef) (other : nat) :
  set_split_mask taxa_block attrs edge = Ok attrs' -> other <> edge.1 ->
  attrs' !! other = attrs !! other.
Proof.
  unfold set_split_mask. intros Hrun Hne.
  destruct (head_node edge.2) as [node|]; [|discriminate Hrun].
  destruct (child_nodes node) as [|c cs].
  - destruct (taxon node) as [t|].
    + destruct (taxon_bitmask taxa_block t) as [m|]; [|discriminate Hrun].
      cbn [bind] in Hrun. injection Hrun as <-. apply lookup_insert_ne. auto.
    + injection Hrun as <-. apply lookup_insert_ne. auto.
  - rewrite (or_children_other _ _ _ _ _ Hrun Hne). apply lookup_insert_ne. auto.
Qed.

(** The loop touches the masks of its own edges only. *)
Lemma encode_loop_other (taxa_block : list string) (rest : list EdgeRef) :
  forall (attrs attrs' : gmap nat Z) (split_map split_map' : gmap Z EdgeRef)
         (other : nat),
    encode_loop taxa_block rest attrs split_map = Ok (attrs', split_map') ->
    other ∉ rest.*1 -> attrs' !! other = attrs !! other.
Proof.
  induction rest as [|edge0 rest IH]; intros attrs attrs' split_map split_map' other
    Hrun Hout.
  - cbn in Hrun. congruence.
  - cbn [encode_loop] in Hrun. cbn in Hout. apply not_elem_of_cons in Hout as [Hne Hout].
    destruct (set_split_mask taxa_block attrs edge0) as [attrs1|] eqn:Hstep;
      [|discriminate Hrun].
    cbn [bind] in Hrun.
    destruct (getattr_split_mask attrs1 edge0.1) as [m|]; [|discriminate Hrun].
    cbn [bind] in Hrun. rewrite (IH _ _ _ _ _ Hrun Hout).
    eapply set_split_mask_other; eauto.
Qed.

(** Two runs of the loop from attribute stores that agree on the edges seen
    before: when the first returns, so does the second, with the same raw map
    and with the same masks on the edges seen and on those of the loop. *)
Lemma encode_loop_agree (taxa_block : list string) (rest : list EdgeRef) :
  forall (seen : list nat) (a1 a2 a1' : gmap nat Z)
         (split_map split_map' : gmap Z EdgeRef),
    postorder_from seen rest ->
    (forall child, child ∈ seen -> is_Some (a1 !! child)) ->
    (forall child, child ∈ seen -> a1 !! child = a2 !! child) ->
    encode_loop taxa_block rest a1 split_map = Ok (a1', split_map') ->
    exists a2',
      encode_loop taxa_block rest a2 split_map = Ok (a2', split_map') /\
      forall child, child ∈ seen \/ child ∈ rest.*1 -> a1' !! child = a2' !! child.
Proof.
  induction rest as [|edge0 rest IH];
    intros seen a1 a2 a1' split_map split_map' Hpost Hseen Hagree Hrun.
  - cbn in Hrun. injection Hrun as <- <-. exists a2. split; [reflexivity|].
    intros child [Hc|Hc]; [now apply Hagree|]. cbn in Hc. apply elem_of_nil in Hc.
    contradiction.
  - destruct Hpost as (Hnew & Hch & Hpost). cbn [encode_loop] in Hrun |- *.
    assert (forall child, child ∈ seen -> is_Some (a2 !! child)) as Hseen2.
    { intros child Hc. rewrite <- Hagree by exact Hc. now apply Hseen. }
    pose proof (set_split_mask_inv taxa_block a1 edge0 seen Hnew Hch Hseen) as Hstep1.
    pose proof (set_split_mask_inv taxa_block a2 edge0 seen Hnew Hch Hseen2) as Hstep2.
    destruct (set_split_mask taxa_block a1 edge0) as [x1|]; [|discriminate Hrun].
    destruct Hstep1 as (m1 & -> & Hmask1). cbn [bind] in Hrun.
    unfold getattr_split_mask in Hrun |- *.
    rewrite lookup_insert_eq in Hrun. cbn [bind] in Hrun.
    destruct (set_split_mask taxa_block a2 edge0) as [x2|].
    + destruct Hstep2 as (m2 & -> & Hmask2). cbn [bind].
      rewrite lookup_insert_eq. cbn [bind].
      assert (m1 = m2) as <-.
      { apply (mask_of_edge_agree taxa_block _ _ edge0 m1 m2 Hmask1 Hmask2);
          [|apply lookup_insert_eq|apply lookup_insert_eq].
        intros node child Hnode Hc.
        assert (child ∈ seen) as Hin by (eapply Hch; eauto).
        assert (edge0.1 <> child) by (intros Heq; apply Hnew; now rewrite Heq).
        rewrite !lookup_insert_ne by assumption. now apply Hagree. }
      destruct (IH (edge0.1 :: seen) (<[edge0.1 := m1]> a1) (<[edge0.1 := m1]> a2)
                  a1' (<[m1 := edge0]> split_map) split_map' Hpost)
        as (a2' & Hrun2 & Hsame); [| |exact Hrun|].
      * intros child Hc. destruct (decide (edge0.1 = child)) as [<-|Hne].
        -- rewrite lookup_insert_eq. eauto.
        -- rewrite lookup_insert_ne by exact Hne.
           apply elem_of_cons in Hc as [->|Hc]; [contradiction|now apply Hseen].
      * intros child Hc. destruct (decide (edge0.1 = child)) as [<-|Hne].
        -- now rewrite !lookup_insert_eq.
        -- rewrite !lookup_insert_ne by exact Hne.
           apply elem_of_cons in Hc as [->|Hc]; [contradiction|now apply Hagree].
      * exists a2'. split; [exact Hrun2|]. intros child Hc. apply Hsame.
        cbn in Hc. rewrite elem_of_cons in *. tauto.
    + exfalso. destruct Hmask1 as (node & Hnode & Hmask1).
      destruct Hstep2 as [Hnone|(node' & t & Hnode' & Hleaf & Ht & Hout)];
        [congruence|].
      assert (node' = node) as -> by congruence.
      rewrite Hleaf, Ht in Hmask1. destruct Hmask1 as (m & Hbit & _).
      apply Hout. eapply taxon_bitmask_elem, Hbit.
Qed.

(** X15: encoding an encoded tree again changes nothing: on a tree in
    postorder, [encode_splits] applied to the tree it has left, with the same
    taxa block and rootedness, returns it as it is; the masks left on the
    edges by the first call are overwritten by equal ones. *)
Theorem encode_splits_again `{DictOrder} (tree tree' : Tree)
    (taxa_block : option (list string)) (unrooted : option bool) :
  postorder (postorder_edge_iter tree) ->
  encode_splits tree taxa_block unrooted = Ok tree' ->
  encode_splits tree' taxa_block unrooted = Ok tree'.
Proof.
  intros Hpost Henc. unfold encode_splits in Henc.
  set (universe := match taxa_block with
                   | Some taxa_block => taxa_block
                   | None => infer_taxa_block tree
                   end) in *.
  destruct (encode_loop universe (postorder_edge_iter tree) (split_mask tree) ∅)
    as [[attrs split_map]|e] eqn:Hloop; [|discriminate Henc].
  cbn [bind] in Henc.
  assert (postorder_edge_iter tree' = postorder_edge_iter tree /\
          is_rooted tree' = is_rooted tree /\ split_mask tree' = attrs)
    as (Hedges & Hrooted & Hattrs).
  { destruct (_ || _) in Henc; injection Henc as <-; repeat split. }
  assert (match taxa_block with
          | Some taxa_block => taxa_block
          | None => infer_taxa_block tree'
          end = universe) as Hinfer.
  { unfold universe, infer_taxa_block, tree_taxa. now rewrite Hedges. }
  destruct (encode_loop_agree universe _ [] (split_mask tree) attrs attrs ∅ split_map
              Hpost)
    as (attrs2 & Hloop2 & Hsame); [| |exact Hloop|].
  { intros child Hc. apply elem_of_nil in Hc. contradiction. }
  { intros child Hc. apply elem_of_nil in Hc. contradiction. }
  assert (attrs2 = attrs) as ->.
  { apply map_eq. intros child.
    destruct (decide (child ∈ (postorder_edge_iter tree).*1)) as [Hin|Hout].
    - symmetry. apply Hsame. now right.
    - apply (encode_loop_other _ _ _ _ _ _ child Hloop2 Hout). }
  unfold encode_splits. rewrite Hinfer, Hedges, Hattrs, Hloop2, Hrooted. cbn [bind].
  rewrite <- Henc. reflexivity.
Qed.

Lemma encode_splits_again_witness :
  (postorder (postorder_edge_iter tree1) /\
   @encode_splits map_order tree1 (Some universe) (Some true) = Ok tree1_encoded) /\
  @encode_splits map_order tree1_encoded (Some universe) (Some true) = Ok tree1_encoded.
Proof.
  split; [split; [exact tree1_postorder|reflexivity]|].
  exact (@encode_splits_again map_order tree1 tree1_encoded (Some universe) (Some true)
           tree1_postorder eq_refl).
Defined.

Lemma tree2_postorder : postorder (postorder_edge_iter tree2).
Proof.
  unfold postorder. cbn [tree2 postorder_edge_iter postorder_from leaf inner fst snd].
  repeat split;
    try (intros node [= <-] child Hchild); try by_evaluation;
    cbn [child_nodes] in *;
    repeat (apply elem_of_cons in Hchild as [->|Hchild]; [by_evaluation|]);
    apply elem_of_nil in Hchild; contradiction.
Defined.

(** ** The edges stored in [split_edges] have head nodes *)

Lemma set_split_mask_head (taxa_block : list string) (attrs attrs' : gmap nat Z)
    (edge : EdgeRef) :
  set_split_mask taxa_block attrs edge = Ok attrs' -> is_Some (head_node edge.2).
Proof.
  unfold set_split_mask. destruct (head_node edge.2) as [node|]; [eauto|discriminate].
Qed.

Lemma encode_loop_heads (taxa_block : list string) (rest : list EdgeRef) :
  forall (attrs attrs' : gmap nat Z) (split_map split_map' : gmap Z EdgeRef),
    encode_loop taxa_block rest attrs split_map = Ok (attrs', split_map') ->
    (forall m edge, split_map !! m = Some edge -> is_Some (head_node edge.2)) ->
    forall m edge, split_map' !! m = Some edge -> is_Some (head_node edge.2).
Proof.
  induction rest as [|edge0 rest IH]; intros attrs attrs' split_map split_map' Hloop Hold.
  - cbn in Hloop. injection Hloop as <- <-. exact Hold.
  - cbn [encode_loop] in Hloop.
    destruct (set_split_mask taxa_block attrs edge0) as [attrs1|e] eqn:Hset;
      [|discriminate Hloop].
    cbn [bind] in Hloop.
    destruct (getattr_split_mask attrs1 edge0.1) as [m0|e]; [|discriminate Hloop].
    cbn [bind] in Hloop. apply (IH _ _ _ _ Hloop).
    intros m edge. destruct (decide (m0 = m)) as [->|Hne].
    + rewrite lookup_insert_eq. intros [= <-]. eapply set_split_mask_head, Hset.
    + rewrite lookup_insert_ne by exact Hne. apply Hold.
Qed.

Lemma fold_normalize_heads (mask : Z) (items : list (Z * EdgeRef)) :
  forall acc : gmap Z EdgeRef,
    (forall key edge, acc !! key = Some edge -> is_Some (head_node edge.2)) ->
    (forall key edge, (key, edge) ∈ items -> is_Some (head_node edge.2)) ->
    forall key edge,
      fold_left (fun d '(k, val) => <[normalize k mask := val]> d) items acc !! key
        = Some edge ->
      is_Some (head_node edge.2).
Proof.
  induction items as [|[k val] rest IH]; intros acc Hacc Hitems; [exact Hacc|].
  cbn [fold_left]. apply IH.
  - intros key edge. destruct (decide (normalize k mask = key)) as [->|Hne].
    + rewrite lookup_insert_eq. intros [= <-]. apply (Hitems k). left.
    + rewrite lookup_insert_ne by exact Hne. apply Hacc.
  - intros key edge Hin. apply (Hitems key). now right.
Qed.

Lemma encode_splits_heads `{DictOrder} (tree tree' : Tree)
    (taxa_block : option (list string)) (unrooted : option bool) (d : SplitEdges) :
  encode_splits tree taxa_block unrooted = Ok tree' ->
  split_edges tree' = Some d ->
  forall split edge,
    split_edges_getitem d split = Ok edge -> is_Some (head_node edge.2).
Proof.
  intros Henc Hd split edge Hget. unfold encode_splits in Henc.
  destruct (encode_loop _ (postorder_edge_iter tree) (split_mask tree) ∅)
    as [[attrs split_map]|e] eqn:Hloop; [|discriminate Henc].
  cbn [bind] in Henc.
  assert (forall m edge, split_map !! m = Some edge -> is_Some (head_node edge.2))
    as Hheads.
  { apply (encode_loop_heads _ _ _ _ _ _ Hloop). intros m e0 He0.
    now rewrite lookup_empty in He0. }
  destruct (_ || _) in Henc; injection Henc as <-; cbn in Hd; injection Hd as <-;
    cbn in Hget.
  - destruct (split_map !! split) as [e0|] eqn:He0; [|discriminate Hget].
    injection Hget as <-. eapply Hheads, He0.
  - destruct (new_NormalizedBitmaskDict split_map _ !! _) as [e0|] eqn:He0;
      [|discriminate Hget].
    injection Hget as <-. unfold new_NormalizedBitmaskDict in He0.
    eapply fold_normalize_heads; [| |exact He0].
    + intros key e1 He1. now rewrite lookup_empty in He1.
    + intros key e1 Hin. apply elem_of_dict_items in Hin. eapply Hheads, Hin.
Qed.

(** ** The keys of [split_edges] *)

(** X16: for a tree in postorder and a rootedness that asks for a plain
    dictionary, the keys of [split_edges] are exactly the masks of the
    edges, and each key is stored with an edge of the tree that carries
    it. *)
Theorem encode_splits_plain_keys `{DictOrder} (tree tree' : Tree)
    (taxa_block : option (list string)) (unrooted : option bool) :
  postorder (postorder_edge_iter tree) ->
  stored_plain tree unrooted ->
  encode_splits tree taxa_block unrooted = Ok tree' ->
  exists d,
    split_edges tree' = Some (PlainDict d) /\
    (forall m, m ∈ dom d <->
               exists edge, edge ∈ postorder_edge_iter tree /\
                            split_mask tree' !! edge.1 = Some m) /\
    (forall m edge, d !! m = Some edge ->
                    edge ∈ postorder_edge_iter tree /\
                    split_mask tree' !! edge.1 = Some m).
Proof. apply encode_splits_raw_keys. Qed.

Lemma encode_splits_plain_keys_witness :
  (postorder (postorder_edge_iter tree2) /\ stored_plain tree2 None) /\
  exists tree' d,
    @encode_splits map_order tree2 (Some universe) None = Ok tree' /\
    split_edges tree' = Some (PlainDict d) /\
    (forall m, m ∈ dom d <->
               exists edge, edge ∈ postorder_edge_iter tree2 /\
                            split_mask tree' !! edge.1 = Some m).
Proof.
  assert (stored_plain tree2 None) as Hplain by (right; split; reflexivity).
  split; [split; [exact tree2_postorder|exact Hplain]|].
  destruct (@encode_splits map_order tree2 (Some universe) None) as [tree'|e] eqn:Henc;
    [|vm_compute in Henc; discriminate Henc].
  destruct (@encode_splits_plain_keys map_order tree2 tree' (Some universe) None
              tree2_postorder Hplain Henc) as (d & Hd & Hdom & _).
  exists tree', d. split; [reflexivity|]. split; [exact Hd|exact Hdom].
Defined.

Lemma normalize_submask (m full : Z) :
  submask m full ->
  submask (normalize m full) full /\ Z.testbit (normalize m full) 0 = false.
Proof.
  unfold submask, normalize. intros Hsub.
  destruct (Z.testbit m 0) eqn:Hbit; [|auto]. split.
  - apply Z.bits_inj'. intros n Hn.
    rewrite Z.land_spec, !Z.lxor_spec, <- Hsub, Z.land_spec.
    destruct (Z.testbit m n), (Z.testbit full n); reflexivity.
  - rewrite Z.lxor_spec, Hbit. rewrite <- Hsub, Z.land_spec in Hbit.
    apply andb_true_iff in Hbit as [_ ->]. reflexivity.
Qed.

(** X17: after [encode_splits] on a tree in postorder, every key that
    iteration over [split_edges] yields has its bits within the full mask of
    the universe and can be looked up without a [KeyError], and the edge
    found has a head node; in a [NormalizedBitmaskDict] no key has the bit
    of the first taxon. *)
Theorem encode_splits_keys `{DictOrder} (tree tree' : Tree)
    (taxa_block : option (list string)) (unrooted : option bool) :
  postorder (postorder_edge_iter tree) ->
  encode_splits tree taxa_block unrooted = Ok tree' ->
  let universe := match taxa_block with
                  | Some taxa_block => taxa_block
                  | None => infer_taxa_block tree
                  end in
  exists d,
    split_edges tree' = Some d /\
    forall split, split ∈ split_edges_keys d ->
      submask split (all_taxa_bitmask universe) /\
      (exists edge, split_edges_getitem d split = Ok edge /\
                    is_Some (head_node edge.2)) /\
      match d with
      | PlainDict _ => True
      | NormalizedBitmaskDict _ _ => Z.testbit split 0 = false
      end.
Proof.
  intros Hpost Henc universe.
  destruct (encode_splits_getitem _ _ _ _ Hpost Henc) as (d & Hd & Hget).
  exists d. split; [exact Hd|]. intros split Hin.
  assert (exists edge, split_edges_getitem d split = Ok edge /\
                       is_Some (head_node edge.2)) as Hedge.
  { destruct (Hget split Hin) as [edge Hedge]. exists edge. split; [exact Hedge|].
    exact (encode_splits_heads _ _ _ _ d Henc Hd split edge Hedge). }
  unfold encode_splits in Henc. fold universe in Henc.
  destruct (encode_loop universe (postorder_edge_iter tree) (split_mask tree) ∅)
    as [[attrs split_map]|e] eqn:Hloop; [|discriminate Henc].
  cbn [bind] in Henc.
  assert (forall key, key ∈ dom split_map ->
                      submask key (all_taxa_bitmask universe)) as Hsub.
  { intros key Hkey.
    eapply (encode_loop_submask universe _ [] _ _ ∅ _ Hpost); [| |exact Hloop|exact Hkey].
    - intros child Hc. apply elem_of_nil in Hc. contradiction.
    - intros k Hk. rewrite dom_empty in Hk. apply elem_of_empty in Hk. contradiction. }
  destruct (_ || _) in Henc; injection Henc as <-; cbn in Hd; injection Hd as <-;
    cbn [split_edges_keys] in Hin; apply elem_of_dict_keys in Hin.
  - split; [|split; [exact Hedge|exact I]]. apply Hsub. now apply elem_of_dom.
  - assert (split ∈ dom (new_NormalizedBitmaskDict split_map (all_taxa_bitmask universe)))
      as Hdom by now apply elem_of_dom.
    apply new_NormalizedBitmaskDict_dom in Hdom as (m & Hm & ->).
    destruct (normalize_submask m _ (Hsub m Hm)) as [Hs Hb].
    split; [exact Hs|]. split; [exact Hedge|exact Hb].
Qed.

Lemma encode_splits_keys_witness :
  (postorder (postorder_edge_iter tree1) /\
   @encode_splits map_order tree1 (Some universe) (Some true) = Ok tree1_encoded) /\
  exists d,
    split_edges tree1_encoded = Some d /\
    forall split, split ∈ split_edges_keys (H := map_order) d ->
      submask split (all_taxa_bitmask universe) /\
      exists edge, split_edges_getitem d split = Ok edge /\ is_Some (head_node edge.2).
Proof.
  split; [split; [exact tree1_postorder|reflexivity]|].
  destruct (@encode_splits_keys map_order tree1 tree1_encoded (Some universe) (Some true)
              tree1_postorder eq_refl) as (d & Hd & Hkeys).
  exists d. split; [exact Hd|]. intros split Hin.
  destruct (Hkeys split Hin) as (Hs & He & _). split; [exact Hs|exact He].
Defined.

End EncoderMoreFacts.
Module DistributionMoreFacts.
Import BitUtil Encoder EncoderSpec EncoderFacts Distribution DistributionSpec Examples.
Import DistributionFacts DistributionMore EncoderMoreFacts.

(** ** [splits_considered]: the four totals *)

Lemma sum_counts_cons (item : Z * Z) (items : list (Z * Z)) :
  sum_counts (item :: items) = item.2 + sum_counts items.
Proof. reflexivity. Qed.

Lemma sum_counts_perm (l l' : list (Z * Z)) :
  l ≡ₚ l' -> sum_counts l = sum_counts l'.
Proof.
  induction 1 as [|x l l' _ IH|x y l|l1 l2 l3 _ IH1 _ IH2];
    rewrite ?sum_counts_cons; lia.
Qed.

Lemma non_trivial_cons (taxa_mask : Z) (item : Z * Z) (items : list (Z * Z)) :
  non_trivial taxa_mask (item :: items) =
    if truthy (is_non_singleton_split item.1 taxa_mask)
    then item :: non_trivial taxa_mask items
    else non_trivial taxa_mask items.
Proof.
  unfold non_trivial. rewrite filter_cons.
  destruct (truthy _); [rewrite decide_True by reflexivity|rewrite decide_False by discriminate];
    reflexivity.
Qed.

Lemma fold_consider (taxa_mask : Z) (items : list (Z * Z)) :
  forall a b c d : Z,
    fold_left (consider taxa_mask) items (a, b, c, d) =
      (a + sum_counts items, b + Z.of_nat (length items),
       c + sum_counts (non_trivial taxa_mask items),
       d + Z.of_nat (length (non_trivial taxa_mask items))).
Proof.
  induction items as [|[s count] rest IH]; intros a b c d.
  - cbn [fold_left]. rewrite !pair_equal_spec. repeat split; cbn; lia.
  - cbn [fold_left consider]. rewrite non_trivial_cons. cbn [fst].
    destruct (truthy _); rewrite IH, !pair_equal_spec, ?sum_counts_cons;
      cbn [snd length]; repeat split; lia.
Qed.

Lemma non_trivial_bounds (taxa_mask : Z) (items : list (Z * Z)) :
  (forall item, item ∈ items -> 0 <= item.2) ->
  0 <= sum_counts (non_trivial taxa_mask items) <= sum_counts items /\
  (length (non_trivial taxa_mask items) <= length items)%nat.
Proof.
  induction items as [|item rest IH]; intros Hpos.
  - cbn. lia.
  - assert (0 <= item.2) by (apply Hpos; left).
    destruct IH as [IH1 IH2]; [intros i Hi; apply Hpos; now right|].
    rewrite non_trivial_cons. destruct (truthy _);
      rewrite ?sum_counts_cons; cbn [length]; lia.
Qed.

(** X18: the four totals of [splits_considered] do not depend on the order
    in which the dictionary [split_counts] is iterated: they are the sum of
    all counts, the number of keys, and the same two numbers over the keys
    that [is_non_singleton_split] accepts against the full mask. *)
Theorem splits_considered_totals `{DictOrder} (self : SplitDistribution) :
  let items := map_to_list (split_counts self) in
  let taxa_mask := all_taxa_bitmask (taxa_block self) in
  splits_considered self =
    (sum_counts items, Z.of_nat (size (split_counts self)),
     sum_counts (non_trivial taxa_mask items),
     Z.of_nat (length (non_trivial taxa_mask items))).
Proof.
  intros items taxa_mask. unfold splits_considered. rewrite fold_consider.
  fold taxa_mask.
  pose proof (dict_items_perm Z (split_counts self)) as Hperm. fold items in Hperm.
  assert (non_trivial taxa_mask (dict_items (split_counts self)) ≡ₚ
          non_trivial taxa_mask items) as Hperm'.
  { unfold non_trivial. now rewrite Hperm. }
  rewrite (sum_counts_perm _ _ Hperm), (sum_counts_perm _ _ Hperm').
  rewrite (Permutation_length Hperm), (Permutation_length Hperm').
  unfold items at 2. rewrite length_map_to_list. reflexivity.
Qed.

(** ** The totals after trees have been counted *)

Lemma sum_counts_insert (m : gmap Z Z) (key : Z) :
  sum_counts (map_to_list (<[key := default 0 (m !! key) + 1]> m)) =
    sum_counts (map_to_list m) + 1.
Proof.
  destruct (m !! key) as [count|] eqn:Hkey; cbn [default].
  - rewrite <- insert_delete_eq.
    rewrite (sum_counts_perm _ _ (map_to_list_insert _ key (count + 1)
                                    (lookup_delete_eq m key))).
    rewrite <- (sum_counts_perm _ _ (map_to_list_delete m key count Hkey)).
    rewrite !sum_counts_cons. cbn [snd]. lia.
  - rewrite (sum_counts_perm _ _ (map_to_list_insert m key (0 + 1) Hkey)).
    rewrite sum_counts_cons. cbn [snd]. lia.
Qed.

Lemma for_each_count_split_sum (split_edges : SplitEdges) (keys : list Z) :
  forall (self self' : SplitDistribution),
    for_each keys (count_split split_edges) self = (Ok tt, self') ->
    sum_counts (map_to_list (split_counts self')) =
      sum_counts (map_to_list (split_counts self)) + Z.of_nat (length keys).
Proof.
  induction keys as [|key rest IH]; intros self self' Hrun.
  - cbn in Hrun. injection Hrun as <-. cbn. lia.
  - rewrite for_each_cons in Hrun.
    destruct (count_split split_edges key self) as [r1 self1] eqn:Hstep.
    apply count_split_run in Hstep as (_ & Hc1 & _).
    destruct r1 as [[]|e]; [|discriminate Hrun].
    rewrite (IH _ _ Hrun), Hc1, sum_counts_insert. cbn [length]. lia.
Qed.

Lemma splits_sound_length (self : SplitDistribution) :
  splits_sound self -> length (splits self) = size (split_counts self).
Proof.
  intros (Hnodup & Hkeys & _).
  rewrite <- (size_dom (D := gset Z)), <- (size_list_to_set (C := gset Z) _ Hnodup).
  f_equal. apply set_eq. intros split. rewrite elem_of_list_to_set. apply Hkeys.
Qed.

Lemma counted_sound `{DictOrder} (self : SplitDistribution) (observed : list Z) :
  counted self observed ->
  splits_sound self /\
  sum_counts (map_to_list (split_counts self)) = Z.of_nat (length observed).
Proof.
  induction 1 as [taxa_block|self observed b1 b2 b3 Hcounted IH
                 |self observed tree tree' self' split_edges Hcounted IH Hcall Hget].
  - split; [|reflexivity]. split; [constructor|]. split.
    + intros split. cbn. rewrite dom_empty, elem_of_nil, elem_of_empty. reflexivity.
    + intros split count Hc. cbn in Hc. now rewrite lookup_empty in Hc.
  - exact IH.
  - destruct IH as [Hsound Hsum].
    apply count_splits_on_tree_returns in Hcall
      as (tree1 & split_edges' & _ & _ & Hget' & Hloop).
    assert (split_edges' = split_edges) as -> by congruence.
    pose proof (split_edges_keys_NoDup split_edges) as Hnodup.
    split.
    + now apply (for_each_count_split_sound _ _ Hnodup) in Hloop as [Hsound' _].
    + rewrite (for_each_count_split_sum _ _ _ _ Hloop). cbn [split_counts set_total_trees_counted].
      rewrite Hsum, length_app. lia.
Qed.

(** X19: after trees have been counted on a fresh distribution,
    [splits_considered] returns as its first total the number of splits the
    loops of the calls have run over, and as its second the length of
    [splits]; the two totals of non-trivial splits lie between zero and
    these. *)
Theorem splits_considered_counted `{DictOrder} (self : SplitDistribution)
    (observed : list Z) :
  counted self observed ->
  exists num_nt_splits num_nt_unique_splits,
    splits_considered self =
      (Z.of_nat (length observed), Z.of_nat (length (splits self)),
       num_nt_splits, num_nt_unique_splits) /\
    0 <= num_nt_splits <= Z.of_nat (length observed) /\
    0 <= num_nt_unique_splits <= Z.of_nat (length (splits self)).
Proof.
  intros Hcounted. apply counted_sound in Hcounted as [Hsound Hsum].
  pose proof (splits_sound_length self Hsound) as Hlen.
  destruct Hsound as (_ & _ & Hpos).
  set (taxa_mask := all_taxa_bitmask (taxa_block self)).
  destruct (non_trivial_bounds taxa_mask (map_to_list (split_counts self))) as [Hnt Hntu].
  { intros [split count] Hin. apply elem_of_map_to_list in Hin.
    apply Hpos in Hin. cbn. lia. }
  rewrite length_map_to_list in Hntu.
  exists (sum_counts (non_trivial taxa_mask (map_to_list (split_counts self)))),
         (Z.of_nat (length (non_trivial taxa_mask (map_to_list (split_counts self))))).
  split; [|lia].
  unfold splits_considered. rewrite fold_consider. fold taxa_mask.
  pose proof (dict_items_perm Z (split_counts self)) as Hperm.
  assert (non_trivial taxa_mask (dict_items (split_counts self)) ≡ₚ
          non_trivial taxa_mask (map_to_list (split_counts self))) as Hperm'.
  { unfold non_trivial. now rewrite Hperm. }
  rewrite (sum_counts_perm _ _ Hperm), (sum_counts_perm _ _ Hperm').
  rewrite (Permutation_length Hperm), (Permutation_length Hperm').
  rewrite length_map_to_list, Hsum, Hlen. reflexivity.
Qed.

Lemma splits_considered_counted_witness :
  counted (H := map_order) counted_tree2
    ([] ++ match getattr_split_edges tree2_counted with
           | Ok split_edges => split_edges_keys (H := map_order) split_edges
           | Raise _ => []
           end) /\
  exists num_nt_splits num_nt_unique_splits,
    @splits_considered map_order counted_tree2 =
      (5, Z.of_nat (length (splits counted_tree2)), num_nt_splits, num_nt_unique_splits).
Proof.
  assert (counted (H := map_order) counted_tree2
            ([] ++ match getattr_split_edges tree2_counted with
                   | Ok split_edges => split_edges_keys (H := map_order) split_edges
                   | Raise _ => []
                   end)) as Hcounted.
  { eapply (counted_tree (H := map_order) fresh [] tree2 tree2_counted counted_tree2).
    - apply (counted_init (Some universe)).
    - reflexivity.
    - reflexivity. }
  split; [exact Hcounted|].
  destruct (@splits_considered_counted map_order _ _ Hcounted)
    as (nt & ntu & Heq & _).
  exists nt, ntu. exact Heq.
Defined.

(** ** What a call of [count_splits_on_tree] leaves behind, whatever its outcome *)

Lemma samples_extended_refl (samples : gmap Z (list Q)) :
  samples_extended samples samples.
Proof. intros split l Hl. exists l. split; [exact Hl|reflexivity]. Qed.

Lemma samples_extended_trans (s1 s2 s3 : gmap Z (list Q)) :
  samples_extended s1 s2 -> samples_extended s2 s3 -> samples_extended s1 s3.
Proof.
  intros H12 H23 split l Hl.
  destruct (H12 split l Hl) as (l2 & Hl2 & Hp2).
  destruct (H23 split l2 Hl2) as (l3 & Hl3 & Hp3).
  exists l3. split; [exact Hl3|]. etransitivity; eassumption.
Qed.

Lemma samples_extended_insert_new (samples : gmap Z (list Q)) (key : Z) (l : list Q) :
  samples !! key = None -> samples_extended samples (<[key := l]> samples).
Proof.
  intros Hnone split l0 Hl0. exists l0. split; [|reflexivity].
  rewrite lookup_insert_ne; [exact Hl0|]. intros ->. congruence.
Qed.

Lemma samples_extended_insert_app (samples : gmap Z (list Q)) (key : Z)
    (l more : list Q) :
  samples !! key = Some l -> samples_extended samples (<[key := l ++ more]> samples).
Proof.
  intros Hsome split l0 Hl0. destruct (decide (split = key)) as [->|Hne].
  - exists (l ++ more). rewrite lookup_insert_eq. split; [reflexivity|].
    assert (l0 = l) as -> by congruence. now apply prefix_app_r.
  - exists l0. rewrite lookup_insert_ne by (apply not_eq_sym, Hne). auto.
Qed.

Lemma count_split_samples (split_edges : SplitEdges) (split : Z)
    (self : SplitDistribution) :
  forall r self',
    count_split split_edges split self = (r, self') ->
    samples_extended (split_edge_lengths self) (split_edge_lengths self') /\
    samples_extended (split_node_ages self) (split_node_ages self').
Proof.
  intros r self'. unfold count_split. run_method.
  destruct (split_counts self !! split) as [count|] eqn:Hcount;
    destruct (ignore_edge_lengths self) eqn:Hlen;
    destruct (ignore_node_ages self) eqn:Hage;
    destruct (split_edge_lengths self !! split) as [lengths|] eqn:Hlengths;
    destruct (split_node_ages self !! split) as [ages|] eqn:Hages;
    destruct (split_edges_getitem split_edges split) as [edge|e] eqn:Hget;
    try destruct (head_node edge.2) as [node|];
    repeat (progress (cbn; rewrite ?lookup_insert_eq, ?Hlengths, ?Hages));
    intros [= <- <-]; cbn; rewrite ?insert_insert_eq;
    split;
    first [apply samples_extended_refl
          |apply samples_extended_insert_new; assumption
          |apply samples_extended_insert_app; assumption].
Qed.

Lemma for_each_count_split_grows (split_edges : SplitEdges) (keys : list Z) :
  NoDup keys ->
  forall (self self' : SplitDistribution) (r : res unit),
    for_each keys (count_split split_edges) self = (r, self') ->
    splits self `prefix_of` splits self' /\
    (forall split,
        split_counts self' !! split = split_counts self !! split \/
        split_counts self' !! split = Some (default 0 (split_counts self !! split) + 1)) /\
    samples_extended (split_edge_lengths self) (split_edge_lengths self') /\
    samples_extended (split_node_ages self) (split_node_ages self').
Proof.
  induction keys as [|key rest IH]; intros Hnodup self self' r Hrun.
  - cbn in Hrun. injection Hrun as <- <-.
    split; [reflexivity|]. split; [auto|].
    split; apply samples_extended_refl.
  - apply NoDup_cons in Hnodup as [Hfresh Hnodup].
    rewrite for_each_cons in Hrun.
    destruct (count_split split_edges key self) as [r1 self1] eqn:Hstep.
    pose proof (count_split_samples _ _ _ _ _ Hstep) as [Hl1 Ha1].
    apply count_split_run in Hstep as (_ & Hc1 & Hs1 & _).
    assert (splits self `prefix_of` splits self1) as Hp1.
    { rewrite Hs1. destruct (decide _); [reflexivity|now apply prefix_app_r]. }
    assert (forall split,
               split_counts self1 !! split = split_counts self !! split \/
               split_counts self1 !! split =
                 Some (default 0 (split_counts self !! split) + 1)) as Hstep1.
    { intros split. rewrite Hc1. destruct (decide (split = key)) as [->|Hne].
      - right. apply lookup_insert_eq.
      - left. apply lookup_insert_ne. apply not_eq_sym, Hne. }
    destruct r1 as [[]|e].
    + pose proof (for_each_count_split_run _ _ Hnodup _ _ _ Hrun) as (_ & Hout & _).
      apply (IH Hnodup) in Hrun as (Hp & Hc & Hl & Ha).
      split; [etransitivity; eassumption|]. split; [|split].
      * intros split. destruct (decide (split = key)) as [->|Hne].
        -- destruct (Hout key Hfresh) as [-> _]. right.
           rewrite Hc1. apply lookup_insert_eq.
        -- assert (split_counts self1 !! split = split_counts self !! split) as Hsame.
           { rewrite Hc1. apply lookup_insert_ne. apply not_eq_sym, Hne. }
           destruct (Hc split) as [Hk|Hk]; rewrite Hk, Hsame; auto.
      * eapply samples_extended_trans; eassumption.
      * eapply samples_extended_trans; eassumption.
    + injection Hrun as <- <-. auto.
Qed.

Lemma count_splits_on_tree_step `{DictOrder} (tree : Tree) (self : SplitDistribution) :
  let self' := (count_splits_on_tree tree self).2 in
  total_trees_counted self' = total_trees_counted self + 1 /\
  splits self `prefix_of` splits self' /\
  (forall split,
      split_counts self' !! split = split_counts self !! split \/
      split_counts self' !! split = Some (default 0 (split_counts self !! split) + 1)) /\
  samples_extended (split_edge_lengths self) (split_edge_lengths self') /\
  samples_extended (split_node_ages self) (split_node_ages self').
Proof.
  intros self'.
  split; [apply (count_splits_on_tree_frame tree self)|].
  pose proof (count_splits_on_tree_run tree self) as Hrun. cbn zeta in Hrun.
  assert (forall e, count_splits_on_tree tree self =
                      (Raise e, set_total_trees_counted (total_trees_counted self + 1) self) ->
            splits self `prefix_of` splits self' /\
            (forall split,
                split_counts self' !! split = split_counts self !! split \/
                split_counts self' !! split =
                  Some (default 0 (split_counts self !! split) + 1)) /\
            samples_extended (split_edge_lengths self) (split_edge_lengths self') /\
            samples_extended (split_node_ages self) (split_node_ages self')) as Hraise.
  { intros e He. unfold self'. rewrite He. cbn.
    split; [reflexivity|]. split; [auto|]. split; apply samples_extended_refl. }
  destruct (normalize_taxa tree (taxa_block self)) as [tree1|e]; [|exact (Hraise e Hrun)].
  destruct (encode_splits tree1 _ _) as [tree2|e]; [|exact (Hraise e Hrun)].
  destruct (getattr_split_edges tree2) as [split_edges|e]; [|exact (Hraise e Hrun)].
  unfold self'. rewrite Hrun. cbn [snd].
  destruct (for_each _ _ _) as [r self2] eqn:Hloop.
  apply (for_each_count_split_grows _ _ (split_edges_keys_NoDup split_edges)) in Hloop.
  exact Hloop.
Qed.

(** X20: whatever its outcome, a call of [count_splits_on_tree] counts one
    more tree and only adds to what the distribution holds: [splits] is
    extended at its end, each count stays or goes up by one (a new split
    starting from zero), and each list of edge lengths and of node ages is
    extended at its end. *)
Theorem count_splits_on_tree_grows `{DictOrder} (tree : Tree) (self : SplitDistribution) :
  let self' := (count_splits_on_tree tree self).2 in
  total_trees_counted self' = total_trees_counted self + 1 /\
  splits self `prefix_of` splits self' /\
  (forall split,
      split_counts self' !! split = split_counts self !! split \/
      split_counts self' !! split = Some (default 0 (split_counts self !! split) + 1)) /\
  samples_extended (split_edge_lengths self) (split_edge_lengths self') /\
  samples_extended (split_node_ages self) (split_node_ages self').
Proof. exact (count_splits_on_tree_step tree self). Qed.

(** ** Counts and frequencies along the lifetime of a distribution *)

Lemma lifetime_counts_bounded `{DictOrder} (self : SplitDistribution) :
  lifetime self ->
  0 <= total_trees_counted self /\
  forall split count,
    split_counts self !! split = Some count -> 1 <= count <= total_trees_counted self.
Proof.
  intros Hlife.
  induction Hlife as [taxa_block|self tree Hlife IH|self Hlife IH|self Hlife IH
                     |self b1 b2 b3 Hlife IH].
  - split; [cbn; lia|]. intros split count Hc. cbn in Hc. now rewrite lookup_empty in Hc.
  - destruct IH as [Htotal Hcounts].
    destruct (count_splits_on_tree_step tree self) as (Ht & _ & Hc & _).
    rewrite Ht. split; [lia|]. intros split count Hcount.
    destruct (Hc split) as [Hsame|Hup]; rewrite Hcount in *.
    + symmetry in Hsame. apply Hcounts in Hsame. lia.
    + injection Hup as ->. destruct (split_counts self !! split) as [c|] eqn:Hold; cbn.
      * specialize (Hcounts split c Hold). lia.
      * lia.
  - rewrite calc_freqs_run. exact IH.
  - destruct (get_split_frequencies_run self (lifetime_cache_sound self Hlife))
      as (self' & Hquery & _ & Ht & _ & Hc & _).
    rewrite Hquery. cbn [snd]. rewrite Ht, Hc. exact IH.
  - exact IH.
Qed.

Lemma float_div_unit (count total : Z) :
  1 <= count <= total -> (0 < float_div count total)%Q /\ (float_div count total <= 1)%Q.
Proof.
  intros Hb. unfold float_div.
  assert (0 < inject_Z total)%Q as Htotal.
  { change 0%Q with (inject_Z 0). rewrite <- Zlt_Qlt. lia. }
  split.
  - apply Qlt_shift_div_l; [exact Htotal|]. rewrite Qmult_0_l.
    change 0%Q with (inject_Z 0). rewrite <- Zlt_Qlt. lia.
  - apply Qle_shift_div_r; [exact Htotal|]. rewrite Qmult_1_l.
    rewrite <- Zle_Qle. lia.
Qed.

(** X21: at every point of the lifetime of a distribution, no split has
    been counted more often than trees have been counted, and every
    frequency that a query of [split_frequencies] returns is greater than
    zero and at most one. *)
Theorem split_frequencies_unit_interval `{DictOrder} (self : SplitDistribution) :
  lifetime self ->
  (forall split count,
      split_counts self !! split = Some count ->
      1 <= count <= total_trees_counted self) /\
  exists freqs,
    (_get_split_frequencies self).1 = Ok (Some freqs) /\
    forall split f, freqs !! split = Some f -> (0 < f)%Q /\ (f <= 1)%Q.
Proof.
  intros Hlife.
  destruct (lifetime_counts_bounded self Hlife) as [Htotal Hcounts].
  split; [exact Hcounts|].
  destruct (get_split_frequencies_run self (lifetime_cache_sound self Hlife))
    as (self' & Hquery & _).
  exists (frequencies self). rewrite Hquery. split; [reflexivity|].
  intros split f Hf. unfold frequencies in Hf. rewrite lookup_fmap in Hf.
  destruct (split_counts self !! split) as [count|] eqn:Hcount; [|discriminate Hf].
  injection Hf as <-. specialize (Hcounts split count Hcount).
  destruct (Z.eqb_spec (total_trees_counted self) 0) as [Hz|_]; [lia|].
  now apply float_div_unit.
Qed.

Lemma split_frequencies_unit_interval_witness :
  lifetime (H := map_order) counted_twice /\
  exists freqs,
    (@_get_split_frequencies map_order counted_twice).1 = Ok (Some freqs) /\
    forall split f, freqs !! split = Some f -> (0 < f)%Q /\ (f <= 1)%Q.
Proof.
  assert (lifetime (H := map_order) counted_twice) as Hlife.
  { unfold counted_twice. do 2 apply lifetime_count. apply lifetime_init. }
  split; [exact Hlife|].
  exact (proj2 (@split_frequencies_unit_interval map_order counted_twice Hlife)).
Defined.

(** ** Two queries in a row *)

(** X22: a query of [split_frequencies] writes nothing but the cache, and a
    second query right after it returns the same table and leaves the
    distribution as the first one has left it, in every state. *)
Theorem split_frequencies_query_twice `{DictOrder} (self : SplitDistribution) :
  let first := _get_split_frequencies self in
  _get_split_frequencies first.2 = first /\
  total_trees_counted first.2 = total_trees_counted self /\
  taxa_block first.2 = taxa_block self /\
  splits first.2 = splits self /\
  split_counts first.2 = split_counts self /\
  split_edge_lengths first.2 = split_edge_lengths self /\
  split_node_ages first.2 = split_node_ages self /\
  ignore_edge_lengths first.2 = ignore_edge_lengths self /\
  ignore_node_ages first.2 = ignore_node_ages self /\
  unrooted first.2 = unrooted self.
Proof.
  cbn zeta. unfold _get_split_frequencies. run_method.
  destruct (__split_freqs self) as [freqs|] eqn:Hfreqs; cbn [orb];
    [destruct (Z.eqb_spec (__trees_counted_for_freqs self) (total_trees_counted self))
       as [Heq|Hne]; cbn [negb]|].
  - cbn [fst snd]. rewrite Hfreqs. cbn [orb].
    rewrite (proj2 (Z.eqb_eq _ _) Heq). cbn [negb]. rewrite Hfreqs.
    repeat split.
  - rewrite calc_freqs_run. cbn. rewrite Z.eqb_refl. cbn. repeat split.
  - rewrite calc_freqs_run. cbn. rewrite Z.eqb_refl. cbn. repeat split.
Qed.

(** ** One sample of each kind per counted occurrence *)

Lemma count_split_ages (split_edges : SplitEdges) (split : Z)
    (self : SplitDistribution) (edge : EdgeRef) (node : Node) :
  split_edges_getitem split_edges split = Ok edge ->
  head_node edge.2 = Some node ->
  ignore_node_ages self = false ->
  split_node_ages (count_split split_edges split self).2 =
    <[split := default [] (split_node_ages self !! split) ++ [distance_from_tip node]]>
      (split_node_ages self).
Proof.
  intros Hget Hhead Hage. unfold count_split. run_method.
  rewrite Hget, Hage.
  destruct (split_counts self !! split) as [count|];
    destruct (ignore_edge_lengths self);
    destruct (split_edge_lengths self !! split) as [lengths|] eqn:Hlengths;
    destruct (split_node_ages self !! split) as [ages|] eqn:Hages;
    repeat (progress (cbn; rewrite ?lookup_insert_eq, ?Hlengths, ?Hages, ?Hhead));
    rewrite ?insert_insert_eq; reflexivity.
Qed.

Lemma count_split_sample_sizes (split_edges : SplitEdges) (split : Z)
    (self self' : SplitDistribution) :
  (forall key edge,
      split_edges_getitem split_edges key = Ok edge -> is_Some (head_node edge.2)) ->
  ignore_edge_lengths self = false ->
  ignore_node_ages self = false ->
  (forall key,
      sample_size (split_edge_lengths self) key = split_counts self !! key /\
      sample_size (split_node_ages self) key = split_counts self !! key) ->
  count_split split_edges split self = (Ok tt, self') ->
  ignore_edge_lengths self' = false /\
  ignore_node_ages self' = false /\
  forall key,
    sample_size (split_edge_lengths self') key = split_counts self' !! key /\
    sample_size (split_node_ages self') key = split_counts self' !! key.
Proof.
  intros Hheads Hlen Hage Hinv Hstep.
  pose proof (count_split_run _ _ _ _ _ Hstep) as (Hframe & Hc & _ & _ & _ & Hl).
  destruct (Hl eq_refl Hlen) as (edge & Hget & Hlengths).
  destruct (Hheads split edge Hget) as [node Hnode].
  pose proof (count_split_ages _ _ self _ _ Hget Hnode Hage) as Hages.
  rewrite Hstep in Hages. cbn [snd] in Hages.
  destruct Hframe as (_ & _ & Hf1 & Hf2 & _).
  split; [congruence|]. split; [congruence|].
  intros key. unfold sample_size in *. rewrite Hc, Hlengths, Hages.
  destruct (decide (split = key)) as [->|Hne].
  - rewrite !lookup_insert_eq. cbn [fmap option_fmap option_map].
    destruct (Hinv key) as [Hkl Hka].
    destruct (split_counts self !! key) as [count|];
      destruct (split_edge_lengths self !! key) as [lengths|];
      destruct (split_node_ages self !! key) as [ages|];
      try discriminate Hkl; try discriminate Hka; cbn in *;
      rewrite ?length_app; cbn [length];
      split; f_equal; try injection Hkl as Hkl; try injection Hka as Hka; lia.
  - rewrite !lookup_insert_ne by exact Hne. apply Hinv.
Qed.

Lemma for_each_count_split_sample_sizes (split_edges : SplitEdges) (keys : list Z) :
  (forall key edge,
      split_edges_getitem split_edges key = Ok edge -> is_Some (head_node edge.2)) ->
  forall self self' : SplitDistribution,
    ignore_edge_lengths self = false ->
    ignore_node_ages self = false ->
    (forall key,
        sample_size (split_edge_lengths self) key = split_counts self !! key /\
        sample_size (split_node_ages self) key = split_counts self !! key) ->
    for_each keys (count_split split_edges) self = (Ok tt, self') ->
    ignore_edge_lengths self' = false /\
    ignore_node_ages self' = false /\
    forall key,
      sample_size (split_edge_lengths self') key = split_counts self' !! key /\
      sample_size (split_node_ages self') key = split_counts self' !! key.
Proof.
  intros Hheads. induction keys as [|key rest IH]; intros self self' Hlen Hage Hinv Hrun.
  - cbn in Hrun. injection Hrun as <-. auto.
  - rewrite for_each_cons in Hrun.
    destruct (count_split split_edges key self) as [r1 self1] eqn:Hstep.
    destruct r1 as [[]|e]; [|discriminate Hrun].
    destruct (count_split_sample_sizes _ _ _ _ Hheads Hlen Hage Hinv Hstep)
      as (Hlen1 & Hage1 & Hinv1).
    exact (IH _ _ Hlen1 Hage1 Hinv1 Hrun).
Qed.

Lemma sampled_sound `{DictOrder} (self : SplitDistribution) :
  sampled self ->
  ignore_edge_lengths self = false /\
  ignore_node_ages self = false /\
  forall key,
    sample_size (split_edge_lengths self) key = split_counts self !! key /\
    sample_size (split_node_ages self) key = split_counts self !! key.
Proof.
  induction 1 as [taxa_block|self u Hs IH|self tree tree' self' Hs IH Hcall].
  - split; [reflexivity|]. split; [reflexivity|]. intros key.
    unfold sample_size. cbn. rewrite !lookup_empty. auto.
  - destruct IH as (Hlen & Hage & Hinv). cbn. auto.
  - destruct IH as (Hlen & Hage & Hinv).
    apply count_splits_on_tree_returns in Hcall
      as (tree1 & d0 & _ & Henc & Hget & Hloop).
    unfold getattr_split_edges in Hget.
    destruct (split_edges tree') as [d|] eqn:Hd; [|discriminate Hget].
    injection Hget as <-.
    apply (for_each_count_split_sample_sizes d _ (encode_splits_heads _ _ _ _ d Henc Hd)
             (set_total_trees_counted (total_trees_counted self + 1) self) _
             Hlen Hage Hinv Hloop).
Qed.

(** X23: in a distribution that samples edge lengths and node ages, after
    any calls of [count_splits_on_tree] that return, each split has exactly
    as many edge lengths, and as many node ages, as its count says, and a
    split that was never counted has neither. *)
Theorem sampled_sample_sizes `{DictOrder} (self : SplitDistribution) :
  sampled self ->
  forall split,
    sample_size (split_edge_lengths self) split = split_counts self !! split /\
    sample_size (split_node_ages self) split = split_counts self !! split.
Proof. intros Hs. apply (sampled_sound self Hs). Qed.

Lemma sampled_sample_sizes_witness :
  sampled (H := map_order) counted_tree2 /\
  forall split,
    sample_size (split_edge_lengths counted_tree2) split
      = split_counts counted_tree2 !! split /\
    sample_size (split_node_ages counted_tree2) split
      = split_counts counted_tree2 !! split.
Proof.
  assert (sampled (H := map_order) counted_tree2) as Hs.
  { apply (sampled_tree (H := map_order) fresh tree2 tree2_counted counted_tree2).
    - apply (sampled_init (Some universe)).
    - reflexivity. }
  split; [exact Hs|].
  exact (@sampled_sample_sizes map_order counted_tree2 Hs).
Defined.

(** ** Trees on which the call returns *)

(** X24: on a tree in postorder, whose edges all have head nodes and whose
    taxa are all in the universe of the distribution, a call of
    [count_splits_on_tree] returns, in every state of the distribution; the
    tree it leaves has the same edges, and one more tree is counted. *)
Theorem count_splits_on_tree_well_formed `{DictOrder} (tree : Tree)
    (self : SplitDistribution) :
  postorder (postorder_edge_iter tree) ->
  (forall edge, edge ∈ postorder_edge_iter tree -> is_Some (head_node edge.2)) ->
  (forall t, t ∈ tree_taxa tree -> t ∈ taxa_block self) ->
  exists tree' self',
    count_splits_on_tree tree self = (Ok tree', self') /\
    postorder_edge_iter tree' = postorder_edge_iter tree /\
    total_trees_counted self' = total_trees_counted self + 1.
Proof.
  intros Hpost Hhead Hknown.
  destruct (count_splits_on_tree_total tree self Hpost Hhead Hknown)
    as (tree' & self' & Hcall).
  exists tree', self'. split; [exact Hcall|]. split.
  - apply count_splits_on_tree_returns in Hcall as (tree1 & d & Hnorm & Henc & _).
    rewrite (normalize_taxa_known tree _ Hknown) in Hnorm. injection Hnorm as <-.
    unfold encode_splits in Henc.
    destruct (encode_loop _ _ _ _) as [[attrs split_map]|e]; [|discriminate Henc].
    cbn [bind] in Henc. destruct (_ || _) in Henc; injection Henc as <-; reflexivity.
  - pose proof (count_splits_on_tree_step tree self) as (Ht & _).
    rewrite Hcall in Ht. exact Ht.
Qed.

Lemma count_splits_on_tree_well_formed_witness :
  (postorder (postorder_edge_iter tree1) /\
   (forall edge, edge ∈ postorder_edge_iter tree1 -> is_Some (head_node edge.2)) /\
   (forall t, t ∈ tree_taxa tree1 -> t ∈ taxa_block fresh)) /\
  exists tree' self',
    @count_splits_on_tree map_order tree1 fresh = (Ok tree', self') /\
    total_trees_counted self' = 1.
Proof.
  assert (forall edge, edge ∈ postorder_edge_iter tree1 -> is_Some (head_node edge.2))
    as Hhead.
  { intros edge Hin. cbn [tree1 postorder_edge_iter] in Hin.
    repeat (apply elem_of_cons in Hin as [->|Hin]; [cbn; eauto|]).
    apply elem_of_nil in Hin. contradiction. }
  assert (forall t, t ∈ tree_taxa tree1 -> t ∈ taxa_block fresh) as Hknown.
  { intros t Hin. change (tree_taxa tree1) with ["A"; "B"; "C"; "D"]%string in Hin.
    exact Hin. }
  split; [split; [exact tree1_postorder|split; [exact Hhead|exact Hknown]]|].
  destruct (@count_splits_on_tree_well_formed map_order tree1 fresh
              tree1_postorder Hhead Hknown) as (tree' & self' & Hcall & _ & Ht).
  exists tree', self'. split; [exact Hcall|exact Ht].
Defined.

End DistributionMoreFacts.
